(** * st-angular: the navigation watcher, the server-context sanitizer and the
    random application id

    A shallow embedding of three pieces of the repository:
    - [packages/router/src/utils/navigations.ts]   ([afterNextNavigation]),
    - [packages/platform-server/src/utils.ts]      ([sanitizeServerContext]),
    - [packages/core/src/application_tokens.ts]    ([_randomChar],
      [_appIdRandomProviderFactory]).

    Part I holds the definitions, Part II the theorems about them. *)

From Stdlib Require Import String Ascii List Bool Arith ZArith Lia SpecFloat.
Import ListNotations.

Set Implicit Arguments.

(* ================================================================= *)
(** * Part I: definitions *)
(* ================================================================= *)

(** ** JavaScript values and abrupt completion *)

Module Js.

(** The only exception the modelled expressions can raise: reading a
    property of [undefined] or [null]. *)
Inductive Error : Type :=
| TypeError.

(** The result of evaluating an expression: a value or a thrown error. *)
Inductive Completion (A : Type) : Type :=
| Normal (a : A)
| Throw (err : Error).

Arguments Normal {A} a.
Arguments Throw {A} err.

Definition ret {A : Type} (a : A) : Completion A := Normal a.

Definition bind {A B : Type} (c : Completion A) (k : A -> Completion B)
  : Completion B :=
  match c with
  | Normal a => k a
  | Throw err => Throw err
  end.

End Js.

Notation "x <- c ;; k" := (Js.bind c (fun x => k))
  (at level 61, c at next level, right associativity).

(** ** The router events ([packages/router/src/events.ts], imported by
    [navigations.ts]; the file itself is not part of the sources) *)

Module RouterEvents.

(** Modelled from the spec: [NavigationCancellationCode] of [../events].  The
    spec names [Redirect] and [SupersededByNewNavigation] and says the
    set holds further codes "representing genuine termination (e.g., guard
    rejection, no-match)"; [OtherCode n] stands for any one of those. *)
Inductive NavigationCancellationCode : Type :=
| Redirect
| SupersededByNewNavigation
| OtherCode (n : nat).

Definition code_eqb (a b : NavigationCancellationCode) : bool :=
  match a, b with
  | Redirect, Redirect => true
  | SupersededByNewNavigation, SupersededByNewNavigation => true
  | OtherCode n, OtherCode m => Nat.eqb n m
  | _, _ => false
  end.

(** Modelled from the spec: the classes of the router's event objects.
    The four that [afterNextNavigation] tests with [instanceof], and
    [OtherClass name] for every other event class ([NavigationStart],
    [RoutesRecognized], ...). *)
Inductive EventClass : Type :=
| NavigationEnd
| NavigationCancel
| NavigationError
| NavigationSkipped
| OtherClass (name : string).

Definition class_eqb (a b : EventClass) : bool :=
  match a, b with
  | NavigationEnd, NavigationEnd => true
  | NavigationCancel, NavigationCancel => true
  | NavigationError, NavigationError => true
  | NavigationSkipped, NavigationSkipped => true
  | OtherClass n, OtherClass m => String.eqb n m
  | _, _ => false
  end.

(** An event object: its class and its [code] property ([None] when the
    property is [undefined]). *)
Record EventObject : Type := mkEvent {
  class_of : EventClass;
  code : option NavigationCancellationCode
}.

(** What the event stream can carry at run time.  [router.events] is typed
    [Observable<Event>]; [Undefined] and [Null] are the malformed items the
    type does not rule out at run time. *)
Inductive Value : Type :=
| Undefined
| Null
| Instance (o : EventObject).

(** [v instanceof C]: false on primitives, never throws. *)
Definition instanceOf (v : Value) (c : EventClass) : bool :=
  match v with
  | Instance o => class_eqb (class_of o) c
  | Undefined | Null => false
  end.

(** [v.code]: throws on [undefined] and [null]. *)
Definition getCode (v : Value) : Js.Completion (option NavigationCancellationCode) :=
  match v with
  | Instance o => Js.ret (code o)
  | Undefined | Null => Js.Throw Js.TypeError
  end.

(** [x === C] for a property value [x] and an enum member [C]. *)
Definition strictEq (x : option NavigationCancellationCode)
  (c : NavigationCancellationCode) : bool :=
  match x with
  | Some c' => code_eqb c' c
  | None => false
  end.

End RouterEvents.

(** ** The rxjs operators used by the pipeline *)

Module Rx.

(** What an observable sends to its subscriber. *)
Inductive Notification (A : Type) : Type :=
| Next (a : A)
| Error (err : Js.Error)
| Complete.

Arguments Next {A} a.
Arguments Error {A} err.
Arguments Complete {A}.

Definition isTerminalNotification {A : Type} (n : Notification A) : bool :=
  match n with
  | Next _ => false
  | Error _ | Complete => true
  end.

(** An operator subscribed to its source: from its state and the value the
    source pushes, the new state and what it sends downstream, in order.
    An [Error] or [Complete] is the last thing an operator sends. *)
Definition Operator (S A B : Type) : Type := S -> A -> S * list (Notification B).

(** [filter(predicate)]: forwards the values the predicate accepts; a throw
    of the predicate becomes an error notification. *)
Definition filter {A : Type} (predicate : A -> Js.Completion bool)
  : Operator unit A A :=
  fun s a =>
    match predicate a with
    | Js.Normal true => (s, [Next a])
    | Js.Normal false => (s, [])
    | Js.Throw err => (s, [Error err])
    end.

(** [map(project)]. *)
Definition map {A B : Type} (project : A -> Js.Completion B)
  : Operator unit A B :=
  fun s a =>
    match project a with
    | Js.Normal b => (s, [Next b])
    | Js.Throw err => (s, [Error err])
    end.

(** [take(count)] for [count > 0]; the state is [seen]:
    [if (++seen <= count) { next(value); if (count <= seen) complete(); }] *)
Definition take {A : Type} (count : nat) : Operator nat A A :=
  fun seen a =>
    let seen' := S seen in
    if seen' <=? count then
      (seen', Next a :: (if count <=? seen' then [Complete] else []))
    else (seen', []).

(** Pushing the notifications of an upstream operator into the next one.
    Delivery stops at the first [Error] or [Complete], whoever sends it:
    the chain is unsubscribed then. *)
Fixpoint feed {S B C : Type} (op : Operator S B C) (s : S)
  (ns : list (Notification B)) : S * list (Notification C) :=
  match ns with
  | [] => (s, [])
  | Next b :: rest =>
      let '(s', out) := op s b in
      if existsb isTerminalNotification out then (s', out)
      else let '(s'', out') := feed op s' rest in (s'', out ++ out')
  | Error err :: _ => (s, [Error err])
  | Complete :: _ => (s, [Complete])
  end.

(** [source.pipe(f, g)]. *)
Definition pipe {S1 S2 A B C : Type} (f : Operator S1 A B) (g : Operator S2 B C)
  : Operator (S1 * S2) A C :=
  fun s a =>
    let '(s1, out1) := f (fst s) a in
    let '(s2, out2) := feed g (snd s) out1 in
    ((s1, s2), out2).

End Rx.

Notation "f |> g" := (Rx.pipe f g) (at level 50, left associativity).

(** ** [packages/router/src/utils/navigations.ts] *)

Module Navigations.

Import RouterEvents.

(** [enum NavigationResult] (lines 14-18). *)
Inductive NavigationResult : Type :=
| COMPLETE
| FAILED
| REDIRECTING.

Definition result_eqb (a b : NavigationResult) : bool :=
  match a, b with
  | COMPLETE, COMPLETE => true
  | FAILED, FAILED => true
  | REDIRECTING, REDIRECTING => true
  | _, _ => false
  end.

(** The predicate of the first [filter] (lines 32-35). *)
Definition isNavigationOutcomeEvent (e : Value) : Js.Completion bool :=
  Js.ret (instanceOf e NavigationEnd || instanceOf e NavigationCancel ||
          instanceOf e NavigationError || instanceOf e NavigationSkipped).

(** The projection of [map] (lines 36-45).  [e.code] is read only in the
    branch guarded by [e instanceof NavigationCancel], and a second time
    only when the first comparison is false. *)
Definition toNavigationResult (e : Value) : Js.Completion NavigationResult :=
  if instanceOf e NavigationEnd || instanceOf e NavigationSkipped then
    Js.ret COMPLETE
  else
    redirecting <-
      (if instanceOf e NavigationCancel then
         c <- getCode e ;;
         if strictEq c Redirect then Js.ret true
         else c' <- getCode e ;; Js.ret (strictEq c' SupersededByNewNavigation)
       else Js.ret false) ;;
    Js.ret (if redirecting then REDIRECTING else FAILED).

(** The predicate of the second [filter] (lines 46-48). *)
Definition isNotRedirecting (result : NavigationResult) : Js.Completion bool :=
  Js.ret (negb (result_eqb result REDIRECTING)).

(** The states of the four operators; only [take] has one ([seen]). *)
Definition PipeState : Type := (unit * unit * unit * nat)%type.

Definition initialPipeState : PipeState := (tt, tt, tt, 0).

(** [.pipe(filter(...), map(...), filter(...), take(1))] (lines 31-50). *)
Definition pipeline : Rx.Operator PipeState Value NavigationResult :=
  Rx.filter isNavigationOutcomeEvent
  |> Rx.map toNavigationResult
  |> Rx.filter isNotRedirecting
  |> Rx.take 1.

(** [router.events] as the watcher sees it: the events the router emits
    after the subscription, in emission order, and whether the stream then
    completes (the router is disposed) or stays open. *)
Record Router : Type := mkRouter {
  events : list Value;
  completes : bool
}.

(** The outcome of one event, as the first [filter] and the [map] decide
    it: [None] for an event that does not reach the [map]. *)
Definition classify (e : Value) : option NavigationResult :=
  match isNavigationOutcomeEvent e with
  | Js.Normal true =>
      match toNavigationResult e with
      | Js.Normal r => Some r
      | Js.Throw _ => None
      end
  | _ => None
  end.

(** An event is recognized when the first [filter] lets it through. *)
Definition isRecognized (e : Value) : bool :=
  match isNavigationOutcomeEvent e with
  | Js.Normal b => b
  | Js.Throw _ => false
  end.

(** An event whose outcome is [COMPLETE] or [FAILED]. *)
Definition isTerminal (e : Value) : bool :=
  match classify e with
  | Some COMPLETE | Some FAILED => true
  | Some REDIRECTING | None => false
  end.

Definition isRedirecting (e : Value) : bool :=
  match classify e with
  | Some REDIRECTING => true
  | _ => false
  end.

Section Watcher.

(** The caller's side: [action] is a callback without arguments or result;
    all it can do is change the caller's world. *)
Variable W : Type.
Variable action : W -> W.

(** The subscription made by [afterNextNavigation], with what an observer
    of the program can see of it.  Positions are indices into the event
    sequence; the completion of the source has the position after the last
    event. *)
Record Watcher : Type := mkWatcher {
  operators : PipeState;          (* the operators' states *)
  closed : bool;                  (* the subscription is torn down *)
  world : W;                      (* the caller's world *)
  delivered : nat;                (* events pushed into the pipeline *)
  calls : list nat;               (* positions at which [action] ran *)
  unsubscribedAt : option nat;    (* position of the teardown *)
  unhandled : list Js.Error       (* errors that reached the subscriber *)
}.

(** [.subscribe(() => { action(); })] (lines 51-53): the subscription at
    the moment it is made. *)
Definition subscribe (w0 : W) : Watcher :=
  {| operators := initialPipeState; closed := false; world := w0;
     delivered := 0; calls := []; unsubscribedAt := None; unhandled := [] |}.

(** The subscriber: its [next] handler runs [action]; it has no [error]
    handler, so an error is reported as unhandled; an error or a completion
    tears the subscription down. *)
Definition observe (pos : nat) (n : Rx.Notification NavigationResult)
  (w : Watcher) : Watcher :=
  match n with
  | Rx.Next _ =>
      {| operators := operators w; closed := closed w;
         world := action (world w);
         delivered := delivered w; calls := calls w ++ [pos];
         unsubscribedAt := unsubscribedAt w; unhandled := unhandled w |}
  | Rx.Error err =>
      {| operators := operators w; closed := true; world := world w;
         delivered := delivered w; calls := calls w;
         unsubscribedAt := Some pos; unhandled := unhandled w ++ [err] |}
  | Rx.Complete =>
      {| operators := operators w; closed := true; world := world w;
         delivered := delivered w; calls := calls w;
         unsubscribedAt := Some pos; unhandled := unhandled w |}
  end.

(** The notifications leaving the pipeline reach the subscriber in order,
    as long as the subscription is open. *)
Fixpoint notify (pos : nat) (ns : list (Rx.Notification NavigationResult))
  (w : Watcher) : Watcher :=
  match ns with
  | [] => w
  | n :: rest => if closed w then w else notify pos rest (observe pos n w)
  end.

(** The router emits the event [e] at position [pos].  A closed
    subscription is no longer among the subject's observers. *)
Definition emit (pos : nat) (e : Value) (w : Watcher) : Watcher :=
  if closed w then w
  else
    let '(s, out) := pipeline (operators w) e in
    notify pos out
      {| operators := s; closed := false; world := world w;
         delivered := S (delivered w); calls := calls w;
         unsubscribedAt := unsubscribedAt w; unhandled := unhandled w |}.

Fixpoint emitAll (pos : nat) (es : list Value) (w : Watcher) : Watcher :=
  match es with
  | [] => w
  | e :: rest => emitAll (S pos) rest (emit pos e w)
  end.

(** The source completes: every operator forwards the completion. *)
Definition sourceComplete (pos : nat) (w : Watcher) : Watcher :=
  notify pos [Rx.Complete] w.

(** [afterNextNavigation(router, action)] (lines 29-54), run against
    everything the router emits afterwards. *)
Definition afterNextNavigation (router : Router) (w0 : W) : Watcher :=
  let w := emitAll 0 (events router) (subscribe w0) in
  if completes router then sourceComplete (length (events router)) w else w.

(** Three states the theorems speak of.  The watcher [w] after [n] more
    events went into the pipeline without coming out of it: *)
Definition delivering (n : nat) (w : Watcher) : Watcher :=
  {| operators := operators w; closed := closed w; world := world w;
     delivered := n + delivered w; calls := calls w;
     unsubscribedAt := unsubscribedAt w; unhandled := unhandled w |}.

(** after one such event: *)
Definition skipped (w : Watcher) : Watcher :=
  {| operators := operators w; closed := closed w; world := world w;
     delivered := S (delivered w); calls := calls w;
     unsubscribedAt := unsubscribedAt w; unhandled := unhandled w |}.

(** and after the event at [pos] came out of [take(1)]: *)
Definition fired (pos : nat) (w : Watcher) : Watcher :=
  {| operators := (tt, tt, tt, 1); closed := true; world := action (world w);
     delivered := S (delivered w); calls := calls w ++ [pos];
     unsubscribedAt := Some pos; unhandled := unhandled w |}.

End Watcher.

(** Event values for the examples. *)
Definition navigationEnd : Value := Instance (mkEvent NavigationEnd None).
Definition navigationSkipped : Value := Instance (mkEvent NavigationSkipped None).
Definition navigationError : Value := Instance (mkEvent NavigationError None).
Definition navigationCancel (c : NavigationCancellationCode) : Value :=
  Instance (mkEvent NavigationCancel (Some c)).
Definition navigationStart : Value :=
  Instance (mkEvent (OtherClass "NavigationStart"%string) None).

End Navigations.

(** ** The watcher as the specification describes it *)

Module WatcherSpec.

Import RouterEvents.

(** From the specification's data model: "NavigationEvent - a tagged
    variant over four kinds: Completed, Skipped, Cancelled{reason},
    Failed".  The reason is the [code] of the object, which it may lack. *)
Inductive NavigationEvent : Type :=
| Completed
| Skipped
| Cancelled (reason : option NavigationCancellationCode)
| Failed.

(** The kind of a value of the stream, by its class alone; [None] is the
    specification's "any other event kind not in the four above". *)
Definition kindOf (v : Value) : option NavigationEvent :=
  match v with
  | Instance o =>
      match class_of o with
      | NavigationEnd => Some Completed
      | NavigationSkipped => Some Skipped
      | NavigationCancel => Some (Cancelled (code o))
      | NavigationError => Some Failed
      | OtherClass _ => None
      end
  | Undefined | Null => None
  end.

Definition ofRecognizedKind (v : Value) : bool :=
  match kindOf v with
  | Some _ => true
  | None => false
  end.

Module Outcome.

(** From the specification: "Outcome - ... exactly one of
    {Complete, Failed, Redirecting}". *)
Inductive t : Type :=
| Complete
| Failed
| Redirecting.

End Outcome.

(** The classification of section 4.1 of the specification. *)
Definition classification (e : NavigationEvent) : Outcome.t :=
  match e with
  | Completed | Skipped => Outcome.Complete
  | Cancelled (Some Redirect) | Cancelled (Some SupersededByNewNavigation) =>
      Outcome.Redirecting
  | Cancelled _ | Failed => Outcome.Failed
  end.

(** What the specification's watcher sees of a value: its outcome, and
    nothing of a value of another kind. *)
Definition outcomeOf (v : Value) : option Outcome.t :=
  option_map classification (kindOf v).

Definition isTerminalOutcome (o : option Outcome.t) : bool :=
  match o with
  | Some Outcome.Complete | Some Outcome.Failed => true
  | Some Outcome.Redirecting | None => false
  end.

(** "The first event (in emission order) that yields a non-Redirecting
    terminal outcome wins": its position, counted from [pos]. *)
Fixpoint firstTerminalOutcome (pos : nat) (os : list (option Outcome.t))
  : option nat :=
  match os with
  | [] => None
  | o :: rest =>
      if isTerminalOutcome o then Some pos else firstTerminalOutcome (S pos) rest
  end.

(** What the specification lets one see of a registration: the position
    of the event at which the callback fired, and the position at which the
    registration was destroyed (that of the closure is the length of the
    sequence). *)
Record Behaviour : Type := mkBehaviour {
  firedAt : option nat;
  disposedAt : option nat
}.

(** "The first event classified Complete or Failed triggers the callback
    exactly once; the watcher then unsubscribes"; "if the event source
    completes/closes without ever producing a Complete or Failed
    classification, the callback never fires and the watcher is
    disposed". *)
Definition behaviour (os : list (option Outcome.t)) (sourceCloses : bool)
  : Behaviour :=
  match firstTerminalOutcome 0 os with
  | Some p => mkBehaviour (Some p) (Some p)
  | None =>
      mkBehaviour None (if sourceCloses then Some (List.length os) else None)
  end.

End WatcherSpec.

(** ** JavaScript strings and numbers *)

Module JsString.

(** A string is the sequence of its UTF-16 code units. *)
Definition t : Type := list Z.

Definition chr (a : ascii) : Z := Z.of_N (N_of_ascii a).

(** A literal without characters beyond U+00FF. *)
Definition lit (s : string) : t := List.map chr (list_ascii_of_string s).

(** An item of a character class: a range [lo-hi] or a single character. *)
Inductive ClassItem : Type :=
| Range (lo hi : ascii)
| Single (c : ascii).

(** The two patterns of one code unit: [[items]] and [[^items]]. *)
Inductive Pattern : Type :=
| Class (items : list ClassItem)
| NegatedClass (items : list ClassItem).

Definition itemMatches (i : ClassItem) (c : Z) : bool :=
  match i with
  | Range lo hi => (chr lo <=? c)%Z && (c <=? chr hi)%Z
  | Single x => (c =? chr x)%Z
  end.

Definition inClass (items : list ClassItem) (c : Z) : bool :=
  existsb (fun i => itemMatches i c) items.

Definition matches (p : Pattern) (c : Z) : bool :=
  match p with
  | Class items => inClass items c
  | NegatedClass items => negb (inClass items c)
  end.

(** [s.replace(/p/g, replacement)] for a pattern of one code unit, without
    the [u] flag, and a replacement without [$]: every matching code unit
    is replaced, the others are kept, from left to right. *)
Definition replaceAll (p : Pattern) (replacement : t) (s : t) : t :=
  flat_map (fun c => if matches p c then replacement else [c]) s.

End JsString.

Module JsNumber.

(** A Number is an IEEE 754 binary64 value. *)
Definition prec : Z := 53.
Definition emax : Z := 1024.

Definition mul : spec_float -> spec_float -> spec_float := SFmul prec emax.
Definition add : spec_float -> spec_float -> spec_float := SFadd prec emax.

(** A numeric literal that is an integer. *)
Definition ofZ (n : Z) : spec_float := binary_normalize prec emax n 0 false.

(** The largest integer that is not above a finite, nonzero value. *)
Definition floorZ (s : bool) (m : positive) (e : Z) : Z :=
  let v := if s then Zneg m else Zpos m in
  if (0 <=? e)%Z then (v * 2 ^ e)%Z else (v / 2 ^ (- e))%Z.

(** [Math.floor(x)]: zeros, infinities and NaN are returned as they are;
    an integer result keeps the sign of [x] when it is zero. *)
Definition Math_floor (x : spec_float) : spec_float :=
  match x with
  | S754_finite s m e => binary_normalize prec emax (floorZ s m e) 0 s
  | _ => x
  end.

(** [ToUint16(x)]: NaN, zeros and infinities give 0; a finite value is
    truncated towards zero and reduced modulo 2^16. *)
Definition toUint16 (x : spec_float) : Z :=
  match x with
  | S754_finite s m e =>
      let k := floorZ false m e in
      ((if s then - k else k) mod 65536)%Z
  | _ => 0%Z
  end.

(** [String.fromCharCode(x)]. *)
Definition fromCharCode (x : spec_float) : JsString.t := [toUint16 x].

(** The largest Number below 1. *)
Definition belowOne : spec_float := S754_finite false 9007199254740991 (-53).

(** A value [Math.random()] can return: a Number [r] with [0 <= r < 1]. *)
Definition inUnitInterval (r : spec_float) : bool :=
  valid_binary prec emax r && SFleb (ofZ 0) r && SFltb r (ofZ 1).

End JsNumber.

(** ** [packages/platform-server/src/utils.ts] *)

Module PlatformServerUtils.

Import JsString.

(** [const DEFAULT_SERVER_CONTEXT = 'other'] (line 119). *)
Definition DEFAULT_SERVER_CONTEXT : JsString.t := lit "other".

(** The regular expression [/[^a-zA-Z0-9\-]/g] of line 134. *)
Definition notAllowed : Pattern :=
  NegatedClass [Range "a" "z"; Range "A" "Z"; Range "0" "9"; Single "-"].

(** [sanitizeServerContext] (lines 133-136). *)
Definition sanitizeServerContext (serverContext : JsString.t) : JsString.t :=
  let context := replaceAll notAllowed (lit "") serverContext in
  if 0 <? List.length context then context else DEFAULT_SERVER_CONTEXT.

(** A code unit of [a-zA-Z0-9-]. *)
Definition isAllowed (c : Z) : bool :=
  negb (matches notAllowed c).

End PlatformServerUtils.

(** ** [packages/core/src/application_tokens.ts] *)

Module ApplicationTokens.

Import JsNumber.

Section Random.

(** The values [Math.random()] returns, in the order of the calls; the
    state threaded through the functions is the number of calls made. *)
Variable draws : nat -> spec_float.

Definition Math_random (calls : nat) : spec_float * nat :=
  (draws calls, S calls).

(** [_randomChar] (lines 41-43):
    [String.fromCharCode(97 + Math.floor(Math.random() * 25))]. *)
Definition _randomChar (calls : nat) : JsString.t * nat :=
  let '(r, calls1) := Math_random calls in
  (fromCharCode (add (ofZ 97) (Math_floor (mul r (ofZ 25)))), calls1).

(** [_appIdRandomProviderFactory] (lines 27-29): the template literal
    evaluates its three calls from left to right. *)
Definition _appIdRandomProviderFactory (calls : nat) : JsString.t * nat :=
  let '(c1, calls1) := _randomChar calls in
  let '(c2, calls2) := _randomChar calls1 in
  let '(c3, calls3) := _randomChar calls2 in
  ((c1 ++ c2 ++ c3)%list, calls3).

End Random.

End ApplicationTokens.

(** ** More of [String.prototype] *)

Module JsText.

Import JsString.

Local Open Scope Z_scope.

Fixpoint eqb (a b : JsString.t) : bool :=
  match a, b with
  | [], [] => true
  | x :: a', y :: b' => (x =? y) && eqb a' b'
  | _, _ => false
  end.

(** [s.length > 0], and the truthiness of a string. *)
Definition nonEmpty (s : JsString.t) : bool :=
  match s with
  | [] => false
  | _ :: _ => true
  end.

(** The code units [trim] removes: WhiteSpace and LineTerminator. *)
Definition isWhiteSpace (c : Z) : bool :=
  (c =? 9) || (c =? 10) || (c =? 11) || (c =? 12) || (c =? 13) || (c =? 32) ||
  (c =? 160) || (c =? 5760) || ((8192 <=? c) && (c <=? 8202)) ||
  (c =? 8232) || (c =? 8233) || (c =? 8239) || (c =? 8287) || (c =? 12288) ||
  (c =? 65279).

Fixpoint trimStart (s : JsString.t) : JsString.t :=
  match s with
  | [] => []
  | c :: rest => if isWhiteSpace c then trimStart rest else s
  end.

Definition trimEnd (s : JsString.t) : JsString.t := rev (trimStart (rev s)).

(** [s.trim()]. *)
Definition trim (s : JsString.t) : JsString.t := trimEnd (trimStart s).

(** [s.indexOf(c)] for a string [c] of one code unit: the first index, or -1. *)
Fixpoint indexOf (c : Z) (s : JsString.t) : Z :=
  match s with
  | [] => -1
  | x :: rest =>
      if x =? c then 0
      else let i := indexOf c rest in if i =? -1 then -1 else i + 1
  end.

(** [s.slice(start, end)]: a negative index counts from the end. *)
Definition sliceIndex (len i : Z) : Z :=
  if i <? 0 then Z.max (len + i) 0 else Z.min i len.

Definition slice (s : JsString.t) (start end_ : Z) : JsString.t :=
  let len := Z.of_nat (List.length s) in
  let from := sliceIndex len start in
  let to := sliceIndex len end_ in
  firstn (Z.to_nat (Z.max (to - from) 0)) (skipn (Z.to_nat from) s).

(** [s.slice(start)]. *)
Definition sliceFrom (s : JsString.t) (start : Z) : JsString.t :=
  slice s start (Z.of_nat (List.length s)).

Definition semicolon : Z := chr ";".
Definition colon : Z := chr ":".
Definition dash : Z := chr "-".

(** [s.split(/;+/g)]: the pieces between the maximal runs of semicolons; a
    run at the start or at the end gives an empty first or last piece.
    [splitAux s] is the piece [s] starts with and the pieces after it. *)
Fixpoint splitAux (s : JsString.t) : JsString.t * list JsString.t :=
  match s with
  | [] => ([], [])
  | c :: rest =>
      let '(piece, pieces) := splitAux rest in
      if c =? semicolon then
        match rest with
        | c' :: _ => if c' =? semicolon then ([], pieces) else ([], piece :: pieces)
        | [] => ([], piece :: pieces)
        end
      else (c :: piece, pieces)
  end.

Definition splitSemicolons (s : JsString.t) : list JsString.t :=
  let '(piece, pieces) := splitAux s in piece :: pieces.

Definition isLower (c : Z) : bool := (chr "a" <=? c) && (c <=? chr "z").
Definition isUpper (c : Z) : bool := (chr "A" <=? c) && (c <=? chr "Z").

(** [s.replace(/([a-z])([A-Z])/g, '$1-$2')]: from left to right, a
    lowercase letter followed by an uppercase one gets a dash between the
    two, and the search goes on after the uppercase letter. *)
Fixpoint camelToDash (s : JsString.t) : JsString.t :=
  match s with
  | a :: ((b :: rest') as rest) =>
      if isLower a && isUpper b then a :: dash :: b :: camelToDash rest'
      else a :: camelToDash rest
  | _ => s
  end.

(** A lowercase letter directly followed by an uppercase one somewhere in
    the string. *)
Fixpoint hasCamelPair (s : JsString.t) : bool :=
  match s with
  | a :: ((b :: _) as rest) => (isLower a && isUpper b) || hasCamelPair rest
  | _ => false
  end.

(** [s.toLowerCase()] for a string of ASCII code units. *)
Definition asciiToLowerCase (s : JsString.t) : JsString.t :=
  List.map (fun c => if isUpper c then c + 32 else c) s.

End JsText.

(** ** Thrown errors with their messages, and ordinary objects *)

Module Exn.

(** An [Error] with its message, or a [TypeError] raised by the engine
    (its message is the engine's). *)
Inductive t : Type :=
| Error (message : JsString.t)
| TypeError.

(** What a call does: return a value or throw. *)
Inductive Outcome (A : Type) : Type :=
| Returns (a : A)
| Throws (e : t).

Arguments Returns {A} a.
Arguments Throws {A} e.

Definition bind {A B : Type} (c : Outcome A) (k : A -> Outcome B) : Outcome B :=
  match c with
  | Returns a => k a
  | Throws e => Throws e
  end.

End Exn.

Notation "x <<- c ;; k" := (Exn.bind c (fun x => k))
  (at level 61, c at next level, right associativity).

Module JsObject.

Import JsString.

Local Open Scope Z_scope.

(** An object made by [{}] whose properties hold strings: its own
    properties in the order [for (key in o)] visits them. *)
Definition t : Type := list (JsString.t * JsString.t).

Definition empty : t := [].

Definition isDigit (c : Z) : bool := (chr "0" <=? c) && (c <=? chr "9").

Definition digitsValue (k : JsString.t) : Z :=
  fold_left (fun acc c => acc * 10 + (c - chr "0")) k 0.

(** The array index a property key stands for, if any: a canonical decimal
    numeral below 2^32 - 1.  Such keys are visited first, in numeric order. *)
Definition arrayIndex (k : JsString.t) : option Z :=
  match k with
  | [] => None
  | c :: rest =>
      if forallb isDigit k && (negb (c =? chr "0") || negb (JsText.nonEmpty rest))
         && (digitsValue k <? 4294967295)
      then Some (digitsValue k) else None
  end.

(** [o[k]] for an own property; [None] is [undefined]. *)
Fixpoint get (o : t) (k : JsString.t) : option JsString.t :=
  match o with
  | [] => None
  | (k', v) :: rest => if JsText.eqb k' k then Some v else get rest k
  end.

Fixpoint update (o : t) (k v : JsString.t) : t :=
  match o with
  | [] => []
  | (k', v') :: rest =>
      if JsText.eqb k' k then (k', v) :: rest else (k', v') :: update rest k v
  end.

(** A new key that is the array index [n] goes before the first key that is
    no array index or a greater one. *)
Fixpoint insertIndex (o : t) (n : Z) (k v : JsString.t) : t :=
  match o with
  | [] => [(k, v)]
  | (k', v') :: rest =>
      match arrayIndex k' with
      | Some n' => if n' <? n then (k', v') :: insertIndex rest n k v
                   else (k, v) :: o
      | None => (k, v) :: o
      end
  end.

(** [o[k] = v] for a string [v].  [__proto__] is the accessor inherited
    from [Object.prototype]; its setter ignores a value that is no object.
    An own property keeps its place; a new one is added in key order. *)
Definition set (o : t) (k v : JsString.t) : t :=
  if JsText.eqb k (lit "__proto__") then o
  else
    match get o k with
    | Some _ => update o k v
    | None =>
        match arrayIndex k with
        | Some n => insertIndex o n k v
        | None => (o ++ [(k, v)])%list
        end
    end.

Definition keys (o : t) : list JsString.t := List.map fst o.

(** [o[k]] with [undefined] read as the empty string. *)
Definition valueOf (o : t) (k : JsString.t) : JsString.t :=
  match get o k with
  | Some v => v
  | None => lit ""
  end.

End JsObject.

(** ** [packages/platform-server/src/server_renderer.ts]: the styles *)

Module ServerRendererStyles.

Import JsString JsText Exn.

Local Open Scope Z_scope.

(** What these functions use of an element: the value of its [style]
    attribute, [None] when it has none.  [getAttribute('style')] returns
    it, [setAttribute('style', v)] sets it, [removeAttribute('style')]
    removes it. *)
Definition Element : Type := option JsString.t.

Definition getAttribute_style (element : Element) : option JsString.t := element.
Definition setAttribute_style (element : Element) (value : JsString.t) : Element :=
  Some value.
Definition removeAttribute_style (element : Element) : Element := None.

(** The loop of [_readStyleAttribute] (lines 289-299) from index [i] on;
    [styleList] is what is left of the list. *)
Fixpoint readStyleList (styleList : list JsString.t) (styleMap : JsObject.t)
  : Outcome JsObject.t :=
  match styleList with
  | [] => Returns styleMap
  | item :: rest =>
      let style := trim item in
      if 0 <? Z.of_nat (List.length style) then
        let colonIndex := indexOf colon style in
        if colonIndex =? -1 then
          Throws (Error (lit "Invalid CSS style: " ++ style))
        else
          let name := trim (slice style 0 colonIndex) in
          readStyleList rest
            (JsObject.set styleMap name (trim (sliceFrom style (colonIndex + 1))))
      else readStyleList rest styleMap
  end.

(** [_readStyleAttribute] (lines 284-302). *)
Definition _readStyleAttribute (element : Element) : Outcome JsObject.t :=
  let styleMap := JsObject.empty in
  match getAttribute_style element with
  | Some styleAttribute =>
      if nonEmpty styleAttribute then
        readStyleList (splitSemicolons styleAttribute) styleMap
      else Returns styleMap
  | None => Returns styleMap
  end.

(** The loop of [_writeStyleAttribute] (lines 309-314). *)
Fixpoint writeStyleList (entries : JsObject.t) (styleAttrValue : JsString.t)
  : JsString.t :=
  match entries with
  | [] => styleAttrValue
  | (key, newValue) :: rest =>
      if nonEmpty newValue then
        writeStyleList rest (styleAttrValue ++ key ++ [colon] ++ newValue ++ [semicolon])
      else writeStyleList rest styleAttrValue
  end.

(** [_writeStyleAttribute] (lines 304-320). *)
Definition _writeStyleAttribute (element : Element) (styleMap : JsObject.t)
  : Element :=
  let styleAttrValue := writeStyleList styleMap (lit "") in
  if nonEmpty styleAttrValue then setAttribute_style element styleAttrValue
  else removeAttribute_style element.

Section Renderer.

(** [String.prototype.toLowerCase], which the theorems do not look into. *)
Variable toLowerCase : JsString.t -> JsString.t.

(** [RendererStyleFlags2.Important], a constant of [@angular/core]. *)
Variable Important : Z.

(** The style name as [setStyle] uses it (line 160). *)
Definition styleName (style : JsString.t) : JsString.t :=
  toLowerCase (camelToDash style).

(** The value [setStyle] stores (lines 161-165); [None] is a [value] that
    is [null] or [undefined], [Some s] one whose string form is [s]. *)
Definition styleValue (value : option JsString.t) (flags : Z) : JsString.t :=
  let value := match value with
               | None => lit ""
               | Some s => trim s
               end in
  if Z.land flags Important =? 0 then value else value ++ lit " !important".

(** [DefaultServerRenderer2.setStyle] (lines 159-168). *)
Definition setStyle (el : Element) (style : JsString.t)
  (value : option JsString.t) (flags : Z) : Outcome Element :=
  let style := styleName style in
  styleMap <<- _readStyleAttribute el ;;
  let value := styleValue value flags in
  let styleMap := JsObject.set styleMap style value in
  Returns (_writeStyleAttribute el styleMap).

(** [DefaultServerRenderer2.removeStyle] (lines 170-174). *)
Definition removeStyle (el : Element) (style : JsString.t) (flags : Z)
  : Outcome Element :=
  setStyle el style (Some (lit "")) flags.

End Renderer.

(** What a later read of the [style] attribute gives for the style [name]:
    its value, the empty string when it has none. *)
Definition styleOf (element : Element) (name : JsString.t) : Outcome JsString.t :=
  styleMap <<- _readStyleAttribute element ;;
  Returns (JsObject.valueOf styleMap name).

Definition has (c : Z) (s : JsString.t) : bool := existsb (Z.eqb c) s.

(** A style name that comes back from the attribute as it is: no white
    space at its ends, no colon, no semicolon. *)
Definition cleanName (name : JsString.t) : bool :=
  eqb (trim name) name && negb (has colon name) && negb (has semicolon name).

(** A style value that does not end its declaration: no semicolon. *)
Definition safeValue (value : JsString.t) : bool := negb (has semicolon value).

(** A value as the attribute gives it back. *)
Definition cleanValue (value : JsString.t) : bool :=
  eqb (trim value) value && safeValue value.

(** A style map that can be written and read back: its keys are distinct
    clean names, none is [__proto__], and no value holds a semicolon. *)
Definition writable (styleMap : JsObject.t) : Prop :=
  NoDup (JsObject.keys styleMap) /\
  ~ In (lit "__proto__") (JsObject.keys styleMap) /\
  Forall (fun e => cleanName (fst e) = true /\ safeValue (snd e) = true) styleMap.

(** A style map as reading gives it: moreover its values have no white
    space at their ends. *)
Definition wellFormed (styleMap : JsObject.t) : Prop :=
  writable styleMap /\
  Forall (fun e => cleanValue (snd e) = true) styleMap.

(** The entries that are written, and the declaration of each. *)
Definition written (o : JsObject.t) : JsObject.t :=
  filter (fun e => nonEmpty (snd e)) o.

Definition declaration (e : JsString.t * JsString.t) : JsString.t :=
  fst e ++ colon :: snd e.

End ServerRendererStyles.

(** ** [packages/platform-server/src/server_renderer.ts]: the factory *)

Module ServerRendererFactory.

Import JsString JsText Exn.

(** [ViewEncapsulation] of [@angular/core]; [createRenderer] tells
    [Emulated] from all the others. *)
Inductive ViewEncapsulation : Type :=
| Emulated
| NoEncapsulation
| ShadowDom.

Section Factory.

(** The [styles] of a component and of the shared host, which the factory
    only passes on, and the three functions of [@angular/platform-browser]
    it calls. *)
Variable Styles : Type.
Variable shimStylesContent : JsString.t -> Styles -> Styles.
Variable shimContentAttribute : JsString.t -> JsString.t.
Variable shimHostAttribute : JsString.t -> JsString.t.

(** [RendererType2]: the fields read here. *)
Record RendererType2 : Type := mkType {
  id : JsString.t;
  encapsulation : ViewEncapsulation;
  styles : Styles
}.

(** A call of [sharedStylesHost.addStyles], with the id of the component
    type whose styles are added. *)
Record AddStyles : Type := mkAddStyles {
  forComponent : JsString.t;
  added : Styles
}.

(** An instance of [EmulatedEncapsulationServerRenderer2]. *)
Record EmulatedRenderer : Type := mkEmulated {
  component : RendererType2;
  contentAttr : JsString.t;
  hostAttr : JsString.t
}.

(** A renderer: the factory's one default renderer, or an emulated
    renderer, the [n]-th the factory created (its identity) with its
    fields, which are never assigned again. *)
Inductive Renderer : Type :=
| DefaultRenderer
| Emulated2 (n : nat) (r : EmulatedRenderer).

(** A DOM element by reference. *)
Definition ElementRef : Type := nat.

(** The factory: its fields, the emulated renderers it has created, and
    what it has done to the shared styles host and to host elements. *)
Record Factory : Type := mkFactory {
  rendererByCompId : list (JsString.t * Renderer);   (* the Map, in insertion order *)
  appId : JsString.t;
  created : list EmulatedRenderer;                   (* oldest first *)
  addStylesCalls : list AddStyles;                   (* oldest first *)
  hostAttributes : list (ElementRef * JsString.t)    (* setAttribute(el, hostAttr, '') *)
}.

(** [new ServerRendererFactory2(..., appId)]. *)
Definition newFactory (appId : JsString.t) : Factory :=
  mkFactory [] appId [] [] [].

(** [Map.prototype.get], [has] and [set]. *)
Fixpoint mapGet (m : list (JsString.t * Renderer)) (k : JsString.t)
  : option Renderer :=
  match m with
  | [] => None
  | (k', r) :: rest => if eqb k' k then Some r else mapGet rest k
  end.

Definition mapHas (m : list (JsString.t * Renderer)) (k : JsString.t) : bool :=
  match mapGet m k with
  | Some _ => true
  | None => false
  end.

Fixpoint mapSet (m : list (JsString.t * Renderer)) (k : JsString.t) (r : Renderer)
  : list (JsString.t * Renderer) :=
  match m with
  | [] => [(k, r)]
  | (k', r') :: rest =>
      if eqb k' k then (k', r) :: rest else (k', r') :: mapSet rest k r
  end.

(** The constructor of [EmulatedEncapsulationServerRenderer2] (lines
    259-271): it adds the shimmed styles to the shared host. *)
Definition newEmulatedRenderer (f : Factory) (type : RendererType2)
  : EmulatedRenderer * Factory :=
  let componentShortId := appId f ++ lit "-" ++ id type in
  let styles := shimStylesContent componentShortId (styles type) in
  (mkEmulated type (shimContentAttribute componentShortId)
              (shimHostAttribute componentShortId),
   mkFactory (rendererByCompId f) (appId f) (created f)
             (addStylesCalls f ++ [mkAddStyles (id type) styles])
             (hostAttributes f)).

(** [renderer.applyToHost(element)] (lines 48 and 273-275): the default
    renderer has no such method, so the call throws a [TypeError]. *)
Definition applyToHost (f : Factory) (renderer : Renderer) (element : ElementRef)
  : Outcome Factory :=
  match renderer with
  | DefaultRenderer => Throws TypeError
  | Emulated2 _ r =>
      Returns (mkFactory (rendererByCompId f) (appId f) (created f)
                         (addStylesCalls f)
                         (hostAttributes f ++ [(element, hostAttr r)]))
  end.

(** [createRenderer(element, type)] (lines 34-60); [None] is an [element]
    or a [type] that is [null]. *)
Definition createRenderer (f : Factory) (element : option ElementRef)
  (type : option RendererType2) : Outcome (Renderer * Factory) :=
  match element, type with
  | Some element, Some type =>
      match encapsulation type with
      | Emulated =>
          let '(renderer, f) :=
            match mapGet (rendererByCompId f) (id type) with
            | Some renderer => (renderer, f)
            | None =>
                let '(r, f) := newEmulatedRenderer f type in
                let renderer := Emulated2 (List.length (created f)) r in
                (renderer,
                 mkFactory (mapSet (rendererByCompId f) (id type) renderer)
                           (appId f) (created f ++ [r]) (addStylesCalls f)
                           (hostAttributes f))
            end in
          f <<- applyToHost f renderer element ;;
          Returns (renderer, f)
      | _ =>
          let f :=
            if mapHas (rendererByCompId f) (id type) then f
            else
              let styles := shimStylesContent (id type) (styles type) in
              mkFactory (mapSet (rendererByCompId f) (id type) DefaultRenderer)
                        (appId f) (created f)
                        (addStylesCalls f ++ [mkAddStyles (id type) styles])
                        (hostAttributes f) in
          Returns (DefaultRenderer, f)
      end
  | _, _ => Returns (DefaultRenderer, f)
  end.

(** A run of calls of [createRenderer], as long as none throws. *)
Fixpoint createRenderers (f : Factory)
  (calls : list (option ElementRef * option RendererType2)) : Outcome Factory :=
  match calls with
  | [] => Returns f
  | (element, type) :: rest =>
      rf <<- createRenderer f element type ;;
      createRenderers (snd rf) rest
  end.

(** The ids of the component types whose styles were added. *)
Definition styledIds (f : Factory) : list JsString.t :=
  List.map forComponent (addStylesCalls f).

(** What every call keeps: the styles were added for the keys of the map,
    in the order of their insertion, and no key twice. *)
Definition invariant (f : Factory) : Prop :=
  styledIds f = List.map fst (rendererByCompId f) /\
  NoDup (List.map fst (rendererByCompId f)).

End Factory.

Arguments DefaultRenderer {Styles}.
Arguments Emulated2 {Styles} n r.
Arguments newFactory {Styles} appId.

End ServerRendererFactory.


(** ** [packages/platform-server/src/utils.ts]: rendering *)

Module PlatformServerRender.

Import JsString PlatformServerUtils.

(** The values this code throws or rejects a promise with: the [Error]
    of line 54, the [EmptyError] of rxjs's [first], or a value that comes
    from the code it calls. *)
Inductive Thrown : Type :=
| RenderError (message : JsString.t)
| EmptyError
| Foreign (v : Z).

(** What becomes of a promise. *)
Inductive PromiseState (A : Type) : Type :=
| Fulfilled (a : A)
| Rejected (e : Thrown)
| Pending.

Arguments Fulfilled {A} a.
Arguments Rejected {A} e.
Arguments Pending {A}.

(** An observable of booleans: what it emits, and how it ends. *)
Inductive StreamEnd : Type :=
| Completes
| Fails (e : Thrown)
| StaysOpen.

Record Observable : Type := mkObservable {
  emitted : list bool;
  ending : StreamEnd
}.

(** [source.pipe(first((isStable: boolean) => isStable)).toPromise()]
    (line 63): fulfilled at the first [true]; without one, rejected with
    [EmptyError] when the source completes, with the source's error when
    it fails, and never settled while the source stays open. *)
Definition firstStable (source : Observable) : PromiseState bool :=
  if existsb (fun isStable => isStable) (emitted source) then Fulfilled true
  else match ending source with
       | Completes => Rejected EmptyError
       | Fails e => Rejected e
       | StaysOpen => Pending
       end.

(** A bootstrapped component: the [Renderer2] of its injector and
    [location.nativeElement], [None] when that is not truthy. *)
Record ComponentRef : Type := mkComponent {
  renderer : nat;
  nativeElement : option nat
}.

(** What a [BEFORE_APP_SERIALIZED] callback does when called. *)
Inductive Callback : Type :=
| ReturnsValue
| ReturnsPromise (p : PromiseState unit)
| Raises (e : Thrown).

(** What [_render] reads from the bootstrapped module or application:
    [get(APP_ID, null)], the provided [SERVER_CONTEXT] if any, the
    components and [isStable] of the [ApplicationRef],
    [get(IS_HYDRATION_FEATURE_ENABLED, false)] and
    [get(BEFORE_APP_SERIALIZED, null)]. *)
Record Bootstrapped : Type := mkBootstrapped {
  APP_ID : option JsString.t;
  SERVER_CONTEXT : option JsString.t;
  components : list ComponentRef;
  isStable : Observable;
  IS_HYDRATION_FEATURE_ENABLED : bool;
  BEFORE_APP_SERIALIZED : option (list Callback)
}.

(** What the code does to the objects it is given, in order. *)
Inductive Effect : Type :=
| SetAttribute (renderer element : nat) (name value : JsString.t)
| AnnotateForHydration
| Call (callback : nat)
| Warn (e : Thrown)
| RenderToString
| Destroy.

(** [appendServerContextInfo] (lines 37-45). *)
Definition appendServerContextInfo (serverContext : JsString.t)
    (components : list ComponentRef) : list Effect :=
  flat_map (fun componentRef =>
              match nativeElement componentRef with
              | Some element =>
                  [SetAttribute (renderer componentRef) element
                                (lit "ng-server-context") serverContext]
              | None => []
              end) components.

(** The loop of lines 80-93 from callback number [i] on: the effects, and
    the promises pushed to [asyncPromises]. *)
Fixpoint runCallbacks (i : nat) (callbacks : list Callback)
  : list Effect * list (PromiseState unit) :=
  match callbacks with
  | [] => ([], [])
  | callback :: rest =>
      let '(effects, asyncPromises) := runCallbacks (S i) rest in
      match callback with
      | ReturnsValue => (Call i :: effects, asyncPromises)
      | ReturnsPromise p => (Call i :: effects, p :: asyncPromises)
      | Raises e => (Call i :: Warn e :: effects, asyncPromises)
      end
  end.

(** [Promise.all(asyncPromises.map(p => p.catch(e => console.warn(..., e))))]
    (lines 105-110): the warnings, for the rejected promises in the order
    of the array, and whether every promise settles. *)
Fixpoint awaitAll (asyncPromises : list (PromiseState unit)) : list Effect * bool :=
  match asyncPromises with
  | [] => ([], true)
  | p :: rest =>
      let '(warnings, settled) := awaitAll rest in
      match p with
      | Fulfilled _ => (warnings, settled)
      | Rejected e => (Warn e :: warnings, settled)
      | Pending => (warnings, false)
      end
  end.

(** [!transitionId] (line 52) is false for a string that is not empty. *)
Definition truthy (value : option JsString.t) : bool :=
  match value with
  | Some (_ :: _) => true
  | _ => false
  end.

(** The message of the [Error] of lines 53-55. *)
Definition transitionError : JsString.t :=
  lit "renderModule[Factory]() requires the use of BrowserModule.withServerTransition() to ensure
the server-rendered app can be properly bootstrapped into a client app.".

(** What a trace holds: the [setAttribute] calls, the callbacks called and
    the values warned about, each in order. *)
Definition attributesSet (trace : list Effect)
  : list (nat * nat * JsString.t * JsString.t) :=
  flat_map (fun effect =>
              match effect with
              | SetAttribute r element name value => [(r, element, name, value)]
              | _ => []
              end) trace.

Definition callsOf (trace : list Effect) : list nat :=
  flat_map (fun effect => match effect with Call i => [i] | _ => [] end) trace.

Definition warningsOf (trace : list Effect) : list Thrown :=
  flat_map (fun effect => match effect with Warn e => [e] | _ => [] end) trace.

(** A callback that throws, or returns a promise that is rejected. *)
Definition fails (callback : Callback) : bool :=
  match callback with
  | Raises _ | ReturnsPromise (Rejected _) => true
  | _ => false
  end.

(** The callbacks provided, none when [get(BEFORE_APP_SERIALIZED, null)]
    is [null]. *)
Definition callbacksOf (app : Bootstrapped) : list Callback :=
  match BEFORE_APP_SERIALIZED app with
  | Some callbacks => callbacks
  | None => []
  end.

(** The server context [_render] passes on (lines 61-62). *)
Definition serverContextOf (app : Bootstrapped) : JsString.t :=
  sanitizeServerContext
    match SERVER_CONTEXT app with
    | Some provided => provided
    | None => DEFAULT_SERVER_CONTEXT
    end.

(** An effect other than the two of [complete]. *)
Definition quiet (effect : Effect) : Prop :=
  effect <> RenderToString /\ effect <> Destroy.

(** What [_render] has done when the application is stable and the
    promises of the callbacks have been awaited. *)
Definition doneOf (app : Bootstrapped) : list Effect :=
  appendServerContextInfo (serverContextOf app) (components app) ++
  (if IS_HYDRATION_FEATURE_ENABLED app then [AnnotateForHydration] else []) ++
  fst (runCallbacks 0 (callbacksOf app)) ++
  fst (awaitAll (snd (runCallbacks 0 (callbacksOf app)))).

Section Render.

(** [platformState.renderToString()]: the document as a string, which
    depends on what was done before the call. *)
Variable renderToString : list Effect -> JsString.t.

(** [complete] (lines 95-99), called after the effects [done]. *)
Definition complete (done : list Effect) : list Effect * PromiseState JsString.t :=
  (done ++ [RenderToString; Destroy], Fulfilled (renderToString done)).

(** [_render] (lines 47-114): the effects, and the promise returned.  The
    renderers, [annotateForHydration], [renderToString] and
    [platform.destroy] are taken to return. *)
Definition _render (bootstrapPromise : PromiseState Bootstrapped)
  : list Effect * PromiseState JsString.t :=
  match bootstrapPromise with
  | Rejected e => ([], Rejected e)
  | Pending => ([], Pending)
  | Fulfilled moduleOrApplicationRef =>
      let transitionId := APP_ID moduleOrApplicationRef in
      if negb (truthy transitionId) then ([], Rejected (RenderError transitionError))
      else
        let serverContext :=
          sanitizeServerContext
            match SERVER_CONTEXT moduleOrApplicationRef with
            | Some provided => provided
            | None => DEFAULT_SERVER_CONTEXT
            end in
        match firstStable (isStable moduleOrApplicationRef) with
        | Rejected e => ([], Rejected e)
        | Pending => ([], Pending)
        | Fulfilled _ =>
            let appended :=
              appendServerContextInfo serverContext (components moduleOrApplicationRef) in
            let annotated :=
              if IS_HYDRATION_FEATURE_ENABLED moduleOrApplicationRef
              then [AnnotateForHydration] else [] in
            let '(called, asyncPromises) :=
              match BEFORE_APP_SERIALIZED moduleOrApplicationRef with
              | Some callbacks => runCallbacks 0 callbacks
              | None => ([], [])
              end in
            let done := appended ++ annotated ++ called in
            match asyncPromises with
            | [] => complete done
            | _ :: _ =>
                let '(warnings, settled) := awaitAll asyncPromises in
                if settled then complete (done ++ warnings)
                else (done ++ warnings, Pending)
            end
        end
  end.

End Render.

End PlatformServerRender.

(** ** [packages/core/src/application_tokens.ts]: values to draw *)

Module ApplicationTokensDraws.

Import JsNumber.

Local Open Scope Z_scope.

(** A value of [0, 1) on which [_randomChar] returns the code unit [c]:
    the binary64 quotient [(2 * (c - 97) + 1) / 50]. *)
Definition drawFor (c : Z) : spec_float :=
  SFdiv prec emax (ofZ (2 * (c - 97) + 1)) (ofZ 50).

End ApplicationTokensDraws.
(* ================================================================= *)
(** * Part II: theorems *)
(* ================================================================= *)

(** ** The navigation watcher *)

Module NavigationsFacts.

Import RouterEvents Navigations WatcherSpec.

(** Splits a conjunction into its parts, and nothing else. *)
Ltac splits := repeat match goal with |- _ /\ _ => split end.

Section Steps.

Variable W : Type.
Variable action : W -> W.

Lemma emit_closed (pos : nat) (e : Value) (w : Watcher W) :
  closed w = true -> emit action pos e w = w.
Proof. intros H. unfold emit. now rewrite H. Qed.

(** The callbacks of the pipeline complete normally on every value. *)
Lemma isNavigationOutcomeEvent_normal (e : Value) :
  isNavigationOutcomeEvent e = Js.Normal (isRecognized e).
Proof. reflexivity. Qed.

Lemma toNavigationResult_normal (e : Value) :
  exists r, toNavigationResult e = Js.Normal r.
Proof.
  destruct e as [| |[cls c]]; try (eexists; reflexivity).
  destruct cls; try (eexists; reflexivity).
  unfold toNavigationResult. simpl.
  destruct (strictEq c Redirect); simpl; eexists; reflexivity.
Qed.

Lemma isNotRedirecting_normal (r : NavigationResult) :
  isNotRedirecting r = Js.Normal (negb (result_eqb r REDIRECTING)).
Proof. reflexivity. Qed.

(** What leaves the pipeline, by the outcome of the event. *)
Lemma pipeline_unrecognized (s : PipeState) (e : Value) :
  isRecognized e = false -> pipeline s e = (s, []).
Proof.
  intros He. destruct s as [[[[] []] []] seen].
  unfold pipeline, Rx.pipe, Rx.filter.
  rewrite isNavigationOutcomeEvent_normal, He. reflexivity.
Qed.

Lemma pipeline_redirecting (s : PipeState) (e : Value) :
  isRedirecting e = true -> pipeline s e = (s, []).
Proof.
  intros He. destruct s as [[[[] []] []] seen].
  unfold isRedirecting, classify in He. unfold pipeline, Rx.pipe, Rx.filter, Rx.map.
  destruct (isNavigationOutcomeEvent e) as [[]|]; try discriminate.
  cbn [fst snd Rx.feed].
  destruct (toNavigationResult e) as [[]|]; try discriminate; reflexivity.
Qed.

Lemma pipeline_terminal (e : Value) :
  isTerminal e = true ->
  exists r, classify e = Some r /\ r <> REDIRECTING /\
            pipeline initialPipeState e = ((tt, tt, tt, 1), [Rx.Next r; Rx.Complete]).
Proof.
  intros He. unfold isTerminal in He. unfold classify in *.
  unfold pipeline, Rx.pipe, Rx.filter, Rx.map.
  destruct (isNavigationOutcomeEvent e) as [[]|]; try discriminate.
  cbn [fst snd Rx.feed initialPipeState].
  destruct (toNavigationResult e) as [[]|]; try discriminate;
    (eexists; split; [reflexivity|split; [discriminate|reflexivity]]).
Qed.

(** An event the first [filter] drops changes nothing but the count of
    delivered events, whatever the state of the operators. *)
Lemma emit_unrecognized (pos : nat) (e : Value) (w : Watcher W) :
  isRecognized e = false -> closed w = false -> emit action pos e w = skipped w.
Proof.
  intros He Hw. unfold emit. rewrite Hw, pipeline_unrecognized by assumption.
  unfold skipped. now rewrite Hw.
Qed.

(** So does an event the second [filter] drops. *)
Lemma emit_redirecting (pos : nat) (e : Value) (w : Watcher W) :
  isRedirecting e = true -> closed w = false -> emit action pos e w = skipped w.
Proof.
  intros He Hw. unfold emit. rewrite Hw, pipeline_redirecting by assumption.
  unfold skipped. now rewrite Hw.
Qed.

(** A terminal event reaches the subscriber of a fresh pipeline, and
    [take(1)] completes right after it. *)
Lemma emit_terminal (pos : nat) (e : Value) (w : Watcher W) :
  isTerminal e = true -> closed w = false -> operators w = initialPipeState ->
  emit action pos e w = fired action pos w.
Proof.
  intros He Hw Hs. destruct (pipeline_terminal e He) as (r & _ & _ & Hp).
  unfold emit. rewrite Hw, Hs, Hp. reflexivity.
Qed.

(** The subscriber does not touch the count of delivered events. *)
Lemma notify_delivered (pos : nat) (ns : list (Rx.Notification NavigationResult))
  (w : Watcher W) :
  delivered (notify action pos ns w) = delivered w.
Proof.
  revert w. induction ns as [|n ns IH]; intros w; simpl; auto.
  destruct (closed w); auto. rewrite IH. now destruct n.
Qed.

(** Every event emitted while the subscription is open is delivered. *)
Lemma emit_delivered (pos : nat) (e : Value) (w : Watcher W) :
  closed w = false -> delivered (emit action pos e w) = S (delivered w).
Proof.
  intros Hw. unfold emit. rewrite Hw.
  destruct (pipeline (operators w) e) as [s out].
  now rewrite notify_delivered.
Qed.

Lemma not_terminal_cases (e : Value) :
  isTerminal e = false -> isRecognized e = false \/ isRedirecting e = true.
Proof.
  unfold isTerminal, isRedirecting, classify, isRecognized.
  destruct (isNavigationOutcomeEvent e) as [[]|]; auto.
  destruct e as [| |[[] c]]; try discriminate; simpl; auto.
  destruct c as [[]|]; simpl; auto; discriminate.
Qed.

Lemma emit_not_terminal (pos : nat) (e : Value) (w : Watcher W) :
  isTerminal e = false -> closed w = false -> emit action pos e w = skipped w.
Proof.
  intros He Hw. destruct (not_terminal_cases e He).
  - now apply emit_unrecognized.
  - now apply emit_redirecting.
Qed.

Lemma emitAll_closed (es : list Value) (pos : nat) (w : Watcher W) :
  closed w = true -> emitAll action pos es w = w.
Proof.
  revert pos. induction es as [|e es IH]; intros pos H; simpl; auto.
  rewrite emit_closed by assumption. now apply IH.
Qed.

Lemma emitAll_app (es1 es2 : list Value) (pos : nat) (w : Watcher W) :
  emitAll action pos (es1 ++ es2) w =
  emitAll action (pos + List.length es1) es2 (emitAll action pos es1 w).
Proof.
  revert pos w. induction es1 as [|e es1 IH]; intros pos w; simpl.
  - now rewrite Nat.add_0_r.
  - rewrite IH. f_equal. lia.
Qed.

Lemma delivering_0 (w : Watcher W) : delivering 0 w = w.
Proof. now destruct w. Qed.

Lemma delivering_S (n : nat) (w : Watcher W) :
  delivering n (skipped w) = delivering (S n) w.
Proof. unfold delivering, skipped. simpl. f_equal. lia. Qed.

(** Events without a terminal one leave an open watcher open. *)
Lemma emitAll_not_terminal (es : list Value) (pos : nat) (w : Watcher W) :
  Forall (fun e => isTerminal e = false) es -> closed w = false ->
  emitAll action pos es w = delivering (List.length es) w.
Proof.
  intros Hes. revert pos w.
  induction Hes as [|e es He _ IH]; intros pos w Hw; simpl emitAll.
  - now rewrite delivering_0.
  - rewrite emit_not_terminal by assumption.
    rewrite IH by exact Hw. apply delivering_S.
Qed.

(** The first terminal event settles the watcher, whatever follows it. *)
Lemma emitAll_first_terminal (pre post : list Value) (t : Value) (pos : nat)
  (w : Watcher W) :
  Forall (fun e => isTerminal e = false) pre -> isTerminal t = true ->
  closed w = false -> operators w = initialPipeState ->
  emitAll action pos (pre ++ t :: post) w =
  fired action (pos + List.length pre) (delivering (List.length pre) w).
Proof.
  intros Hpre Ht Hw Hs. rewrite emitAll_app. simpl emitAll.
  rewrite (@emitAll_not_terminal pre pos w Hpre Hw).
  rewrite emit_terminal by assumption.
  now apply emitAll_closed.
Qed.

(** A sequence of events has no terminal event, or splits at its first
    one. *)
Lemma first_terminal (es : list Value) :
  Forall (fun e => isTerminal e = false) es \/
  exists pre t post, es = pre ++ t :: post /\
    Forall (fun e => isTerminal e = false) pre /\ isTerminal t = true.
Proof.
  induction es as [|e es IH].
  - left. constructor.
  - destruct (isTerminal e) eqn:He.
    + right. exists [], e, es. repeat split; auto.
    + destruct IH as [IH|(pre & t & post & -> & Hpre & Ht)].
      * left. now constructor.
      * right. exists (e :: pre), t, post. repeat split; auto.
Qed.

(** The two ways a run of [afterNextNavigation] can end. *)
Lemma afterNextNavigation_no_terminal (es : list Value) (c : bool) (w0 : W) :
  Forall (fun e => isTerminal e = false) es ->
  afterNextNavigation action (mkRouter es c) w0 =
  {| operators := initialPipeState; closed := c; world := w0;
     delivered := List.length es; calls := [];
     unsubscribedAt := if c then Some (List.length es) else None;
     unhandled := [] |}.
Proof.
  intros Hes. unfold afterNextNavigation. simpl events. simpl completes.
  rewrite emitAll_not_terminal by (assumption || reflexivity).
  unfold delivering, subscribe. simpl. rewrite Nat.add_0_r.
  destruct c; reflexivity.
Qed.

Lemma afterNextNavigation_terminal (pre post : list Value) (t : Value)
  (c : bool) (w0 : W) :
  Forall (fun e => isTerminal e = false) pre -> isTerminal t = true ->
  afterNextNavigation action (mkRouter (pre ++ t :: post) c) w0 =
  {| operators := (tt, tt, tt, 1); closed := true; world := action w0;
     delivered := S (List.length pre); calls := [List.length pre];
     unsubscribedAt := Some (List.length pre); unhandled := [] |}.
Proof.
  intros Hpre Ht. unfold afterNextNavigation. simpl events. simpl completes.
  rewrite emitAll_first_terminal by (assumption || reflexivity).
  unfold fired, delivering, subscribe. simpl. rewrite Nat.add_0_r.
  destruct c; reflexivity.
Qed.

Lemma redirecting_not_terminal (e : Value) :
  classify e = Some REDIRECTING -> isTerminal e = false.
Proof. unfold isTerminal. now intros ->. Qed.

End Steps.

Lemma terminal_recognized (e : Value) :
  isTerminal e = true -> isRecognized e = true.
Proof.
  unfold isTerminal, classify, isRecognized.
  destruct (isNavigationOutcomeEvent e) as [[]|]; auto; discriminate.
Qed.

Lemma filter_not_terminal (es : list Value) :
  Forall (fun e => isTerminal e = false) es ->
  Forall (fun e => isTerminal e = false) (filter isRecognized es).
Proof.
  intros H. rewrite Forall_forall in *. intros e He.
  apply filter_In in He. now apply H.
Qed.

Lemma firstn_length_app {A : Type} (l1 l2 : list A) :
  firstn (List.length l1) (l1 ++ l2) = l1.
Proof. induction l1 as [|x l1 IH]; simpl; [now destruct l2 | now rewrite IH]. Qed.

(** The scenarios P2 and P3 of the specification. *)
Example redirect_then_completed :
  calls (afterNextNavigation S
           (mkRouter [navigationCancel Redirect; navigationEnd] false) 0) = [1].
Proof. reflexivity. Qed.

Example superseded_then_failed :
  calls (afterNextNavigation S
           (mkRouter [navigationCancel SupersededByNewNavigation; navigationError]
                     false) 0) = [1].
Proof. reflexivity. Qed.

(** C1: when the events are any number of events classified REDIRECTING,
    then one event classified COMPLETE or FAILED (and nothing terminal
    after it), [action] is invoked exactly once, at the position of the
    terminal event; up to that event it has not been invoked. *)
Theorem afterNextNavigation_exactly_once :
  forall (W : Type) (action : W -> W) (w0 : W)
         (redirects rest : list Value) (t : Value) (c : bool),
  Forall (fun e => classify e = Some REDIRECTING) redirects ->
  isTerminal t = true ->
  Forall (fun e => isTerminal e = false) rest ->
  let before := afterNextNavigation action (mkRouter redirects false) w0 in
  let w := afterNextNavigation action (mkRouter (redirects ++ t :: rest) c) w0 in
  (calls before = [] /\ world before = w0 /\ closed before = false) /\
  calls w = [List.length redirects] /\
  world w = action w0 /\
  unsubscribedAt w = Some (List.length redirects).
Proof.
  intros W action w0 redirects rest t c Hr Ht _.
  assert (Hn : Forall (fun e => isTerminal e = false) redirects).
  { eapply Forall_impl; [|exact Hr]. apply redirecting_not_terminal. }
  cbv zeta.
  rewrite afterNextNavigation_no_terminal by exact Hn.
  rewrite afterNextNavigation_terminal by assumption.
  simpl. auto.
Qed.

Lemma afterNextNavigation_exactly_once_witness :
  let before :=
    afterNextNavigation S (mkRouter [navigationCancel Redirect] false) 0 in
  let w :=
    afterNextNavigation S
      (mkRouter ([navigationCancel Redirect] ++ navigationError :: [navigationStart])
                true) 0 in
  (calls before = [] /\ world before = 0 /\ closed before = false) /\
  calls w = [1] /\ world w = 1 /\ unsubscribedAt w = Some 1.
Proof.
  apply (@afterNextNavigation_exactly_once nat S 0
           [navigationCancel Redirect] [navigationStart] navigationError true).
  - repeat constructor.
  - reflexivity.
  - repeat constructor.
Defined.

(** C2: the outcome of every recognized event.  [NavigationEnd] and
    [NavigationSkipped] are COMPLETE; a [NavigationCancel] whose code is
    [Redirect] or [SupersededByNewNavigation] is REDIRECTING; a
    [NavigationCancel] with any other code (or none) and [NavigationError]
    are FAILED; these are all the recognized events.  The single event
    [NavigationSkipped] makes [action] run exactly once. *)
Theorem classify_table :
  (forall c, classify (Instance (mkEvent NavigationEnd c)) = Some COMPLETE) /\
  (forall c, classify (Instance (mkEvent NavigationSkipped c)) = Some COMPLETE) /\
  (forall c, c = Some Redirect \/ c = Some SupersededByNewNavigation ->
             classify (Instance (mkEvent NavigationCancel c)) = Some REDIRECTING) /\
  (forall c, c <> Some Redirect -> c <> Some SupersededByNewNavigation ->
             classify (Instance (mkEvent NavigationCancel c)) = Some FAILED) /\
  (forall c, classify (Instance (mkEvent NavigationError c)) = Some FAILED) /\
  (forall e, isRecognized e = true <-> exists r, classify e = Some r) /\
  (forall (W : Type) (action : W -> W) (w0 : W) (c : bool),
     let w := afterNextNavigation action (mkRouter [navigationSkipped] c) w0 in
     calls w = [0] /\ world w = action w0 /\ closed w = true).
Proof.
  split; [reflexivity|]. split; [reflexivity|].
  split; [intros c [-> | ->]; reflexivity|].
  split; [intros [[]|] H1 H2; try reflexivity; congruence|].
  split; [reflexivity|].
  split; [|intros W action w0 []; cbv zeta; repeat split; reflexivity].
  intros e. unfold classify. rewrite isNavigationOutcomeEvent_normal.
  destruct (isRecognized e).
  - destruct (toNavigationResult_normal e) as [r ->].
    split; [now exists r | reflexivity].
  - split; [discriminate | now intros [r ?]].
Qed.

Lemma classify_table_witness :
  classify (navigationCancel (OtherCode 3)) = Some FAILED.
Proof.
  apply (proj1 (proj2 (proj2 (proj2 classify_table))) (Some (OtherCode 3)));
    discriminate.
Defined.

(** C3: an event classified REDIRECTING, that is a [NavigationCancel] whose
    code is [Redirect] or [SupersededByNewNavigation], leaves the watcher
    as it was: no call of [action], no teardown, [take] has seen nothing;
    an open watcher stays open and takes the next event.  For
    [NavigationCancel(Redirect), NavigationCancel(Superseded), NavigationEnd]
    nothing has happened after two events, and [action] runs once, at the
    third. *)
Theorem redirecting_keeps_waiting :
  forall (W : Type) (action : W -> W) (pos : nat) (e : Value) (w : Watcher W),
  isRedirecting e = true ->
  (exists o, e = Instance (mkEvent NavigationCancel (Some o)) /\
             (o = Redirect \/ o = SupersededByNewNavigation)) /\
  (let w' := emit action pos e w in
   calls w' = calls w /\ world w' = world w /\ closed w' = closed w /\
   unsubscribedAt w' = unsubscribedAt w /\ operators w' = operators w /\
   unhandled w' = unhandled w /\
   (closed w = false ->
    forall e2, delivered (emit action (S pos) e2 w') = S (S (delivered w)))) /\
  (forall w0 : W,
   let two := [navigationCancel Redirect; navigationCancel SupersededByNewNavigation] in
   let w2 := afterNextNavigation action (mkRouter two false) w0 in
   let w3 := afterNextNavigation action (mkRouter (two ++ [navigationEnd]) false) w0 in
   (calls w2 = [] /\ closed w2 = false /\ unsubscribedAt w2 = None) /\
   calls w3 = [2] /\ world w3 = action w0 /\ unsubscribedAt w3 = Some 2).
Proof.
  intros W action pos e w He. split; [|split].
  - destruct e as [| |[[] [[]|]]]; try discriminate He; eexists; split; eauto.
  - cbv zeta. destruct (closed w) eqn:Hw.
    + rewrite emit_closed by assumption.
      splits; try reflexivity; [exact Hw | discriminate].
    + rewrite emit_redirecting by assumption.
      splits; try reflexivity; [exact Hw | intros _ e2].
      now rewrite emit_delivered.
  - intros w0. cbv zeta. splits; reflexivity.
Qed.

Lemma redirecting_keeps_waiting_witness :
  let e := navigationCancel SupersededByNewNavigation in
  let w := subscribe 0 in
  (exists o, e = Instance (mkEvent NavigationCancel (Some o)) /\
             (o = Redirect \/ o = SupersededByNewNavigation)) /\
  (let w' := emit S 0 e w in
   calls w' = calls w /\ world w' = world w /\ closed w' = closed w /\
   unsubscribedAt w' = unsubscribedAt w /\ operators w' = operators w /\
   unhandled w' = unhandled w /\
   (closed w = false ->
    forall e2, delivered (emit S 1 e2 w') = S (S (delivered w)))) /\
  (forall w0 : nat,
   let two := [navigationCancel Redirect; navigationCancel SupersededByNewNavigation] in
   let w2 := afterNextNavigation S (mkRouter two false) w0 in
   let w3 := afterNextNavigation S (mkRouter (two ++ [navigationEnd]) false) w0 in
   (calls w2 = [] /\ closed w2 = false /\ unsubscribedAt w2 = None) /\
   calls w3 = [2] /\ world w3 = S w0 /\ unsubscribedAt w3 = Some 2).
Proof.
  apply (@redirecting_keeps_waiting nat S 0
           (navigationCancel SupersededByNewNavigation) (subscribe 0)).
  reflexivity.
Defined.

(** C4: events are taken in emission order and the first terminal event
    wins.  When [t] is the first event classified COMPLETE or FAILED,
    [action] runs once, at [t]; whatever the router emits after [t], further
    terminal events included, is not delivered: the run ends in the state
    it has right after [t]. *)
Theorem first_terminal_wins :
  forall (W : Type) (action : W -> W) (w0 : W)
         (pre post : list Value) (t : Value) (c : bool),
  Forall (fun e => isTerminal e = false) pre ->
  isTerminal t = true ->
  Exists (fun e => isTerminal e = true) post ->
  let w := afterNextNavigation action (mkRouter (pre ++ t :: post) c) w0 in
  calls w = [List.length pre] /\
  world w = action w0 /\
  unsubscribedAt w = Some (List.length pre) /\
  delivered w = S (List.length pre) /\
  w = afterNextNavigation action (mkRouter (pre ++ [t]) false) w0.
Proof.
  intros W action w0 pre post t c Hpre Ht _. cbv zeta.
  rewrite !afterNextNavigation_terminal by assumption.
  splits; reflexivity.
Qed.

Lemma first_terminal_wins_witness :
  let w :=
    afterNextNavigation S
      (mkRouter ([navigationStart; navigationCancel Redirect]
                 ++ navigationCancel (OtherCode 0) :: [navigationEnd; navigationError])
                true) 0 in
  calls w = [2] /\ world w = 1 /\ unsubscribedAt w = Some 2 /\ delivered w = 3 /\
  w = afterNextNavigation S
        (mkRouter ([navigationStart; navigationCancel Redirect]
                   ++ [navigationCancel (OtherCode 0)]) false) 0.
Proof.
  apply (@first_terminal_wins nat S 0
           [navigationStart; navigationCancel Redirect]
           [navigationEnd; navigationError] (navigationCancel (OtherCode 0)) true).
  - repeat constructor.
  - reflexivity.
  - left. reflexivity.
Defined.

(** C5: when the source completes and no event was classified COMPLETE or
    FAILED, [action] has not run, the subscription is torn down at the
    completion, and no error was reported. *)
Theorem no_terminal_no_callback :
  forall (W : Type) (action : W -> W) (w0 : W) (es : list Value),
  Forall (fun e => isTerminal e = false) es ->
  let w := afterNextNavigation action (mkRouter es true) w0 in
  calls w = [] /\ world w = w0 /\ closed w = true /\
  unsubscribedAt w = Some (List.length es) /\ unhandled w = [].
Proof.
  intros W action w0 es Hes. cbv zeta.
  rewrite afterNextNavigation_no_terminal by assumption.
  splits; reflexivity.
Qed.

Lemma no_terminal_no_callback_witness :
  let w :=
    afterNextNavigation S
      (mkRouter [navigationCancel Redirect; navigationCancel SupersededByNewNavigation]
                true) 0 in
  calls w = [] /\ world w = 0 /\ closed w = true /\
  unsubscribedAt w = Some 2 /\ unhandled w = [].
Proof.
  apply (@no_terminal_no_callback nat S 0
           [navigationCancel Redirect; navigationCancel SupersededByNewNavigation]).
  repeat constructor.
Defined.

(** A run and the run over its recognized events only. *)
Lemma afterNextNavigation_recognized (W : Type) (action : W -> W) (w0 : W)
  (es : list Value) (c : bool) :
  let w := afterNextNavigation action (mkRouter es c) w0 in
  let w' := afterNextNavigation action (mkRouter (filter isRecognized es) c) w0 in
  world w = world w' /\
  List.map (fun p => List.length (filter isRecognized (firstn p es))) (calls w)
    = calls w' /\
  List.map (nth_error es) (calls w)
    = List.map (nth_error (filter isRecognized es)) (calls w') /\
  closed w = closed w' /\ operators w = operators w' /\
  unhandled w = unhandled w'.
Proof.
  cbv zeta.
  destruct (first_terminal es) as [Hes|(pre & t & post & -> & Hpre & Ht)].
  - rewrite !afterNextNavigation_no_terminal
      by (assumption || now apply filter_not_terminal).
    splits; reflexivity.
  - rewrite filter_app. simpl filter. rewrite (terminal_recognized _ Ht).
    rewrite !afterNextNavigation_terminal
      by (assumption || now apply filter_not_terminal).
    simpl. rewrite firstn_length_app.
    rewrite !nth_error_app2, !Nat.sub_diag by lia.
    splits; reflexivity.
Qed.

(** The first [filter] lets through the values of the four kinds, and
    no other. *)
Lemma isRecognized_kind (v : Value) : isRecognized v = ofRecognizedKind v.
Proof. destruct v as [| |[[] c]]; reflexivity. Qed.

Lemma filter_kind (es : list Value) :
  filter ofRecognizedKind es = filter isRecognized es.
Proof. apply filter_ext. intros v. symmetry. apply isRecognized_kind. Qed.

Lemma kindOf_None (u : Value) :
  kindOf u = None <->
  u = Undefined \/ u = Null \/
  exists name c, u = Instance (mkEvent (OtherClass name) c).
Proof.
  split.
  - destruct u as [| |[[] c]]; try discriminate; auto.
    intros _. right. right. now exists name, c.
  - intros [->|[->|(name & c & ->)]]; reflexivity.
Qed.

(** C6: a value of the stream that is not of one of the four kinds
    ([NavigationEnd], [NavigationCancel], [NavigationError],
    [NavigationSkipped]), that is, an object of any other class,
    [undefined] or [null], does not come out of the first [filter]: it is
    not classified, [take] does not count it, and the watcher is as before
    (only the count of events that entered the first [filter] grows).  Two
    sequences with the same events of the four kinds, that is, which differ
    by inserted or removed events of other kinds, give the same world, the
    same number of calls, and the call at the same event of the four
    kinds.  An event of another kind followed by a [NavigationEnd] makes
    [action] run once, at the second event. *)
Theorem unrecognized_ignored :
  forall (W : Type) (action : W -> W),
  (forall u : Value,
     kindOf u = None <->
     u = Undefined \/ u = Null \/
     exists name c, u = Instance (mkEvent (OtherClass name) c)) /\
  (forall (pos : nat) (u : Value) (w : Watcher W),
     kindOf u = None ->
     isRecognized u = false /\
     classify u = None /\
     pipeline (operators w) u = (operators w, []) /\
     let w' := emit action pos u w in
     calls w' = calls w /\ world w' = world w /\ closed w' = closed w /\
     unsubscribedAt w' = unsubscribedAt w /\ operators w' = operators w /\
     unhandled w' = unhandled w) /\
  (forall (w0 : W) (es1 es2 : list Value) (c : bool),
     filter ofRecognizedKind es1 = filter ofRecognizedKind es2 ->
     let w1 := afterNextNavigation action (mkRouter es1 c) w0 in
     let w2 := afterNextNavigation action (mkRouter es2 c) w0 in
     world w1 = world w2 /\
     List.length (calls w1) = List.length (calls w2) /\
     List.map (fun p => List.length (filter ofRecognizedKind (firstn p es1))) (calls w1)
       = List.map (fun p => List.length (filter ofRecognizedKind (firstn p es2))) (calls w2) /\
     List.map (nth_error es1) (calls w1) = List.map (nth_error es2) (calls w2) /\
     closed w1 = closed w2 /\ operators w1 = operators w2 /\
     unhandled w1 = unhandled w2) /\
  (forall (w0 : W) (u : Value),
     kindOf u = None ->
     let w := afterNextNavigation action (mkRouter [u; navigationEnd] false) w0 in
     calls w = [1] /\ world w = action w0).
Proof.
  intros W action. split; [exact kindOf_None|]. split; [|split].
  - intros pos u w Hk.
    assert (Hu : isRecognized u = false)
      by (rewrite isRecognized_kind; unfold ofRecognizedKind; now rewrite Hk).
    split; [exact Hu|]. split; [|split].
    + unfold classify. now rewrite isNavigationOutcomeEvent_normal, Hu.
    + now apply pipeline_unrecognized.
    + cbv zeta. destruct (closed w) eqn:Hw.
      * rewrite emit_closed by assumption. splits; try reflexivity. exact Hw.
      * rewrite emit_unrecognized by assumption. splits; try reflexivity. exact Hw.
  - intros w0 es1 es2 c Heq. cbv zeta.
    rewrite !filter_kind in Heq.
    rewrite (map_ext (fun p => List.length (filter ofRecognizedKind (firstn p es1)))
                     (fun p => List.length (filter isRecognized (firstn p es1))))
      by (intros p; now rewrite filter_kind).
    rewrite (map_ext (fun p => List.length (filter ofRecognizedKind (firstn p es2)))
                     (fun p => List.length (filter isRecognized (firstn p es2))))
      by (intros p; now rewrite filter_kind).
    destruct (afterNextNavigation_recognized action w0 es1 c)
      as (Hw1 & Hp1 & Hn1 & Hc1 & Ho1 & Hu1).
    destruct (afterNextNavigation_recognized action w0 es2 c)
      as (Hw2 & Hp2 & Hn2 & Hc2 & Ho2 & Hu2).
    rewrite Heq in *.
    splits; try congruence.
    rewrite <- (length_map (fun p => List.length (filter isRecognized (firstn p es1)))).
    rewrite Hp1, <- Hp2. apply length_map.
  - intros w0 u Hk. cbv zeta.
    assert (Hu : isTerminal u = false).
    { apply kindOf_None in Hk. destruct Hk as [->|[->|(name & c & ->)]]; reflexivity. }
    change [u; navigationEnd] with ([u] ++ navigationEnd :: []).
    rewrite (@afterNextNavigation_terminal W action [u] [] navigationEnd false w0);
      [split; reflexivity | now constructor | reflexivity].
Qed.

Lemma unrecognized_ignored_witness :
  let w1 := afterNextNavigation S
              (mkRouter [navigationStart; navigationError; Null] true) 0 in
  let w2 := afterNextNavigation S
              (mkRouter [Undefined;
                         Instance (mkEvent (OtherClass "RoutesRecognized") (Some Redirect));
                         navigationError] true) 0 in
  world w1 = world w2 /\
  List.length (calls w1) = List.length (calls w2) /\
  List.map (fun p => List.length (filter ofRecognizedKind
                        (firstn p [navigationStart; navigationError; Null])))
           (calls w1)
    = List.map (fun p => List.length (filter ofRecognizedKind
                        (firstn p [Undefined;
                                   Instance (mkEvent (OtherClass "RoutesRecognized")
                                                     (Some Redirect));
                                   navigationError])))
               (calls w2) /\
  List.map (nth_error [navigationStart; navigationError; Null]) (calls w1)
    = List.map (nth_error [Undefined;
                           Instance (mkEvent (OtherClass "RoutesRecognized")
                                             (Some Redirect));
                           navigationError]) (calls w2) /\
  closed w1 = closed w2 /\ operators w1 = operators w2 /\
  unhandled w1 = unhandled w2.
Proof.
  apply (proj1 (proj2 (proj2 (@unrecognized_ignored nat S))) 0
           [navigationStart; navigationError; Null]
           [Undefined;
            Instance (mkEvent (OtherClass "RoutesRecognized") (Some Redirect));
            navigationError] true).
  reflexivity.
Defined.

(** C7: the watcher has no error of its own.  Its three callbacks complete
    normally on every value, [undefined] and [null] included; no event
    makes the pipeline send an error; and no run reports an unhandled
    error. *)
Theorem watcher_never_throws :
  (forall e : Value, exists b, isNavigationOutcomeEvent e = Js.Normal b) /\
  (forall e : Value, exists r, toNavigationResult e = Js.Normal r) /\
  (forall r : NavigationResult, exists b, isNotRedirecting r = Js.Normal b) /\
  (forall (s : PipeState) (e : Value) (err : Js.Error),
     ~ In (Rx.Error err) (snd (pipeline s e))) /\
  (forall (W : Type) (action : W -> W) (router : Router) (w0 : W),
     unhandled (afterNextNavigation action router w0) = []).
Proof.
  splits.
  - intros e. eexists. apply isNavigationOutcomeEvent_normal.
  - apply toNavigationResult_normal.
  - intros r. eexists. apply isNotRedirecting_normal.
  - intros [[[[] []] []] seen] e err.
    unfold pipeline, Rx.pipe, Rx.filter, Rx.map.
    rewrite isNavigationOutcomeEvent_normal.
    destruct (isRecognized e); cbn [fst snd Rx.feed]; [|intros []].
    destruct (toNavigationResult_normal e) as [r ->].
    cbn [fst snd Rx.feed existsb Rx.isTerminalNotification orb app].
    rewrite isNotRedirecting_normal.
    destruct (negb (result_eqb r REDIRECTING)); cbn [fst snd Rx.feed]; [|intros []].
    destruct seen as [|seen]; simpl; intros H;
      decompose [or] H; try discriminate; assumption.
  - intros W action [es c] w0.
    destruct (first_terminal es) as [Hes|(pre & t & post & -> & Hpre & Ht)].
    + now rewrite afterNextNavigation_no_terminal.
    + now rewrite afterNextNavigation_terminal.
Qed.

(** The code's terminal events are those the specification classifies
    Complete or Failed. *)
Lemma isTerminal_outcome (v : Value) :
  isTerminal v = isTerminalOutcome (outcomeOf v).
Proof. destruct v as [| |[[] [[]|]]]; reflexivity. Qed.

Lemma firstTerminalOutcome_none (es : list Value) (pos : nat) :
  Forall (fun e => isTerminal e = false) es ->
  firstTerminalOutcome pos (List.map outcomeOf es) = None.
Proof.
  intros H. revert pos. induction H as [|e es He _ IH]; intros pos; [reflexivity|].
  cbn [List.map firstTerminalOutcome]. rewrite <- isTerminal_outcome, He. apply IH.
Qed.

Lemma firstTerminalOutcome_some (pre post : list Value) (t : Value) (pos : nat) :
  Forall (fun e => isTerminal e = false) pre -> isTerminal t = true ->
  firstTerminalOutcome pos (List.map outcomeOf (pre ++ t :: post)) =
  Some (pos + List.length pre).
Proof.
  intros H Ht. revert pos. induction H as [|e es He _ IH]; intros pos.
  - cbn [List.map app firstTerminalOutcome List.length].
    rewrite <- isTerminal_outcome, Ht. f_equal. lia.
  - cbn [List.map app firstTerminalOutcome List.length].
    rewrite <- isTerminal_outcome, He, IH. f_equal. lia.
Qed.

(** A run, read off the outcomes of its events. *)
Lemma afterNextNavigation_outcomes (W : Type) (action : W -> W) (w0 : W)
  (es : list Value) (c : bool) :
  afterNextNavigation action (mkRouter es c) w0 =
  match firstTerminalOutcome 0 (List.map outcomeOf es) with
  | Some p =>
      {| operators := (tt, tt, tt, 1); closed := true; world := action w0;
         delivered := S p; calls := [p];
         unsubscribedAt := Some p; unhandled := [] |}
  | None =>
      {| operators := initialPipeState; closed := c; world := w0;
         delivered := List.length (List.map outcomeOf es); calls := [];
         unsubscribedAt :=
           if c then Some (List.length (List.map outcomeOf es)) else None;
         unhandled := [] |}
  end.
Proof.
  destruct (first_terminal es) as [Hes|(pre & t & post & -> & Hpre & Ht)].
  - rewrite firstTerminalOutcome_none, length_map by exact Hes.
    now apply afterNextNavigation_no_terminal.
  - rewrite firstTerminalOutcome_some by assumption.
    now apply afterNextNavigation_terminal.
Qed.

(** C8: what the watcher does is fixed by the sequence of events as the
    specification sees it.  Two runs with the same callback over sequences
    that give, event for event, the same outcome (Complete, Failed,
    Redirecting, or none for an event of another kind) are equal: the same
    number of calls, at the same positions, the subscription torn down at
    the same position, the same world.  The event objects may differ
    otherwise: in their class, in the code of a cancellation that is no
    redirect, in a [code] on an event that is no cancellation.  That
    common behaviour is the one the specification gives: the callback
    fires at the first event whose outcome is Complete or Failed, where the
    subscription ends too; without such an event it does not fire, and the
    subscription ends when the source closes. *)
Theorem afterNextNavigation_deterministic :
  forall (W : Type) (action : W -> W) (w0 : W) (es1 es2 : list Value) (c : bool),
  List.map outcomeOf es1 = List.map outcomeOf es2 ->
  let w1 := afterNextNavigation action (mkRouter es1 c) w0 in
  let w2 := afterNextNavigation action (mkRouter es2 c) w0 in
  let b := behaviour (List.map outcomeOf es1) c in
  w1 = w2 /\
  List.length (calls w1) = List.length (calls w2) /\
  calls w1 = calls w2 /\
  unsubscribedAt w1 = unsubscribedAt w2 /\
  calls w1 = match firedAt b with Some p => [p] | None => [] end /\
  unsubscribedAt w1 = disposedAt b /\
  world w1 = match firedAt b with Some _ => action w0 | None => w0 end.
Proof.
  intros W action w0 es1 es2 c Heq. cbv zeta.
  rewrite (afterNextNavigation_outcomes action w0 es2 c), <- Heq.
  rewrite (afterNextNavigation_outcomes action w0 es1 c).
  unfold behaviour.
  destruct (firstTerminalOutcome 0 (List.map outcomeOf es1)); cbn; splits; reflexivity.
Qed.

Lemma afterNextNavigation_deterministic_witness :
  let es1 := [navigationStart; navigationCancel Redirect;
              Instance (mkEvent NavigationError (Some Redirect)); navigationEnd] in
  let es2 := [Null; navigationCancel Redirect;
              navigationCancel (OtherCode 7); navigationSkipped] in
  let w1 := afterNextNavigation S (mkRouter es1 true) 0 in
  let w2 := afterNextNavigation S (mkRouter es2 true) 0 in
  let b := behaviour (List.map outcomeOf es1) true in
  w1 = w2 /\
  List.length (calls w1) = List.length (calls w2) /\
  calls w1 = calls w2 /\
  unsubscribedAt w1 = unsubscribedAt w2 /\
  calls w1 = match firedAt b with Some p => [p] | None => [] end /\
  unsubscribedAt w1 = disposedAt b /\
  world w1 = match firedAt b with Some _ => S 0 | None => 0 end.
Proof.
  intros es1 es2.
  apply (@afterNextNavigation_deterministic nat S 0 es1 es2 true).
  reflexivity.
Defined.

End NavigationsFacts.

(** ** The server context *)

Module PlatformServerUtilsFacts.

Import JsString PlatformServerUtils.

Local Open Scope Z_scope.

(** The code units of [a-zA-Z0-9-], spelled out. *)
Lemma isAllowed_spec (c : Z) :
  isAllowed c = true <->
  (97 <= c <= 122) \/ (65 <= c <= 90) \/ (48 <= c <= 57) \/ c = 45.
Proof.
  unfold isAllowed, notAllowed, matches, inClass, existsb, itemMatches.
  rewrite negb_involutive.
  change (chr "a") with 97. change (chr "z") with 122.
  change (chr "A") with 65. change (chr "Z") with 90.
  change (chr "0") with 48. change (chr "9") with 57.
  change (chr "-") with 45.
  rewrite !orb_true_iff, !andb_true_iff, !Z.leb_le, Z.eqb_eq.
  intuition lia.
Qed.

(** Replacing every match by the empty string keeps the other code units. *)
Lemma replaceAll_empty (p : Pattern) (s : JsString.t) :
  replaceAll p (lit "") s = filter (fun c => negb (matches p c)) s.
Proof.
  unfold replaceAll. induction s as [|c s IH]; simpl; auto.
  destruct (matches p c); simpl; now rewrite IH.
Qed.

Lemma sanitized_context (s : JsString.t) :
  replaceAll notAllowed (lit "") s = filter isAllowed s.
Proof. apply replaceAll_empty. Qed.

Lemma filter_all {A : Type} (f : A -> bool) (l : list A) :
  Forall (fun x => f x = true) l -> filter f l = l.
Proof.
  induction 1 as [|x l Hx _ IH]; simpl; auto. now rewrite Hx, IH.
Qed.

Lemma filter_none {A : Type} (f : A -> bool) (l : list A) :
  Forall (fun x => f x = false) l -> filter f l = [].
Proof.
  induction 1 as [|x l Hx _ IH]; simpl; auto. now rewrite Hx.
Qed.

Lemma filter_allowed (s : JsString.t) :
  Forall (fun c => isAllowed c = true) (filter isAllowed s).
Proof.
  apply Forall_forall. intros c Hc. now apply filter_In in Hc.
Qed.

Lemma default_allowed :
  Forall (fun c => isAllowed c = true) DEFAULT_SERVER_CONTEXT.
Proof. repeat constructor. Qed.

(** What [sanitizeServerContext] returns. *)
Lemma sanitizeServerContext_cases (s : JsString.t) :
  (filter isAllowed s <> [] /\ sanitizeServerContext s = filter isAllowed s) \/
  (filter isAllowed s = [] /\ sanitizeServerContext s = DEFAULT_SERVER_CONTEXT).
Proof.
  unfold sanitizeServerContext. rewrite sanitized_context.
  destruct (filter isAllowed s) as [|c r]; [right|left]; split;
    try reflexivity; discriminate.
Qed.

Lemma sanitizeServerContext_allowed (s : JsString.t) :
  Forall (fun c => isAllowed c = true) (sanitizeServerContext s).
Proof.
  destruct (sanitizeServerContext_cases s) as [[_ ->]|[_ ->]].
  - apply filter_allowed.
  - apply default_allowed.
Qed.

Lemma sanitizeServerContext_nonempty (s : JsString.t) :
  sanitizeServerContext s <> [].
Proof.
  destruct (sanitizeServerContext_cases s) as [[H ->]|[_ ->]];
    [exact H | discriminate].
Qed.

(** C9: [sanitizeServerContext] returns a string that is not empty and
    holds only code units of [a-zA-Z0-9-]; on an input without any such
    code unit, the empty string included, it returns ["other"]; on any
    other input it returns the input's allowed code units in order; and
    sanitizing twice is sanitizing once. *)
Theorem sanitizeServerContext_spec :
  forall s : JsString.t,
  (0 < List.length (sanitizeServerContext s))%nat /\
  Forall (fun c => (97 <= c <= 122) \/ (65 <= c <= 90) \/ (48 <= c <= 57) \/ c = 45)
         (sanitizeServerContext s) /\
  (Forall (fun c => ~ ((97 <= c <= 122) \/ (65 <= c <= 90) \/ (48 <= c <= 57) \/ c = 45)) s ->
   sanitizeServerContext s = lit "other") /\
  (Exists (fun c => (97 <= c <= 122) \/ (65 <= c <= 90) \/ (48 <= c <= 57) \/ c = 45) s ->
   sanitizeServerContext s = filter isAllowed s) /\
  sanitizeServerContext (lit "") = lit "other" /\
  sanitizeServerContext (sanitizeServerContext s) = sanitizeServerContext s.
Proof.
  intros s. split; [|split; [|split; [|split; [|split]]]].
  - pose proof (sanitizeServerContext_nonempty s) as H.
    destruct (sanitizeServerContext s); [congruence | simpl; lia].
  - eapply Forall_impl; [|apply sanitizeServerContext_allowed].
    intros c. apply isAllowed_spec.
  - intros Hs.
    assert (Hn : filter isAllowed s = []).
    { apply filter_none. eapply Forall_impl; [|exact Hs].
      intros c Hc. simpl in Hc. destruct (isAllowed c) eqn:E; auto.
      apply isAllowed_spec in E. contradiction. }
    destruct (sanitizeServerContext_cases s) as [[H _]|[_ ->]];
      [contradiction | reflexivity].
  - intros Hs.
    destruct (sanitizeServerContext_cases s) as [[_ ->]|[H _]]; [reflexivity|].
    apply Exists_exists in Hs. destruct Hs as (c & Hin & Hc).
    apply isAllowed_spec in Hc.
    assert (Hf : In c (filter isAllowed s)) by (apply filter_In; auto).
    rewrite H in Hf. destruct Hf.
  - reflexivity.
  - destruct (sanitizeServerContext_cases (sanitizeServerContext s))
      as [[_ ->]|[H _]].
    + apply filter_all, sanitizeServerContext_allowed.
    + rewrite filter_all in H by apply sanitizeServerContext_allowed.
      now apply sanitizeServerContext_nonempty in H.
Qed.

Lemma sanitizeServerContext_spec_witness :
  sanitizeServerContext (lit "_ /") = lit "other" /\
  sanitizeServerContext (lit "s s-g_9") = lit "ss-g9".
Proof.
  split.
  - apply (proj1 (proj2 (proj2 (sanitizeServerContext_spec (lit "_ /"))))).
    repeat (constructor; [cbv - [Z.le]; lia|]). constructor.
  - apply (proj1 (proj2 (proj2 (proj2 (sanitizeServerContext_spec (lit "s s-g_9")))))).
    left. cbv - [Z.le]. lia.
Defined.

End PlatformServerUtilsFacts.

(** ** Rounding of binary64 products *)

Module JsNumberFacts.

Import JsNumber.

Local Open Scope Z_scope.

(** The number of binary digits of a positive number. *)
Lemma digits2_pos_bounds (p : positive) :
  2 ^ (Zpos (digits2_pos p) - 1) <= Zpos p < 2 ^ Zpos (digits2_pos p).
Proof.
  induction p as [p IH|p IH|]; cbn [digits2_pos];
    [rewrite Pos2Z.inj_succ, (Pos2Z.inj_xI p)
    |rewrite Pos2Z.inj_succ, (Pos2Z.inj_xO p)
    |simpl; lia];
    replace (Z.succ (Zpos (digits2_pos p)) - 1) with (Zpos (digits2_pos p)) by lia;
    rewrite Z.pow_succ_r by lia;
    assert (H : 2 ^ Zpos (digits2_pos p) = 2 * 2 ^ (Zpos (digits2_pos p) - 1))
      by (rewrite <- Z.pow_succ_r by lia; f_equal; lia);
    lia.
Qed.

Lemma digits2_pos_le (p : positive) (d : Z) :
  0 <= d -> Zpos p < 2 ^ d -> Zpos (digits2_pos p) <= d.
Proof.
  intros Hd Hp. destruct (Z.le_gt_cases (Zpos (digits2_pos p)) d) as [H|H]; auto.
  pose proof (digits2_pos_bounds p) as [Hlo _].
  assert (2 ^ d <= 2 ^ (Zpos (digits2_pos p) - 1))
    by (apply Z.pow_le_mono_r; lia).
  lia.
Qed.

(** [iter_pos] is iteration. *)
Lemma iter_pos_nat {A : Type} (f : A -> A) (p : positive) (x : A) :
  iter_pos f p x = Nat.iter (Pos.to_nat p) f x.
Proof.
  revert x. induction p as [p IH|p IH|]; intros x; cbn [iter_pos].
  - rewrite !IH, Pos2Nat.inj_xI.
    replace (S (2 * Pos.to_nat p))%nat
      with (Pos.to_nat p + (Pos.to_nat p + 1))%nat by lia.
    rewrite !Nat.iter_add. reflexivity.
  - rewrite !IH, Pos2Nat.inj_xO.
    replace (2 * Pos.to_nat p)%nat with (Pos.to_nat p + Pos.to_nat p)%nat by lia.
    rewrite Nat.iter_add. reflexivity.
  - reflexivity.
Qed.

(** One shift to the right halves the mantissa and remembers the bit that
    falls off. *)
Lemma shr_1_spec (mrs : shr_record) :
  0 <= shr_m mrs ->
  shr_m (shr_1 mrs) = shr_m mrs / 2 /\ shr_r (shr_1 mrs) = Z.odd (shr_m mrs).
Proof.
  destruct mrs as [m r s]. simpl shr_m at 1 2 4. intros Hm.
  rewrite <- Z.div2_div.
  destruct m as [|[p|p|]|p]; try lia; split; reflexivity.
Qed.

Lemma shr_iter_m (n : nat) (mrs : shr_record) :
  0 <= shr_m mrs ->
  shr_m (Nat.iter n shr_1 mrs) = shr_m mrs / 2 ^ Z.of_nat n.
Proof.
  intros Hm. induction n as [|n IH].
  - simpl. now rewrite Z.div_1_r.
  - change (Nat.iter (S n) shr_1 mrs) with (shr_1 (Nat.iter n shr_1 mrs)).
    assert (H0 : 0 <= shr_m (Nat.iter n shr_1 mrs)).
    { rewrite IH. apply Z.div_pos; lia. }
    rewrite (proj1 (shr_1_spec _ H0)), IH.
    rewrite Nat2Z.inj_succ, Z.pow_succ_r by lia.
    rewrite Z.div_div by lia. f_equal. lia.
Qed.

Lemma shr_iter_r (n : nat) (mrs : shr_record) :
  0 <= shr_m mrs ->
  shr_r (Nat.iter (S n) shr_1 mrs) = Z.odd (shr_m mrs / 2 ^ Z.of_nat n).
Proof.
  intros Hm.
  change (Nat.iter (S n) shr_1 mrs) with (shr_1 (Nat.iter n shr_1 mrs)).
  assert (H0 : 0 <= shr_m (Nat.iter n shr_1 mrs)).
  { rewrite shr_iter_m by assumption. apply Z.div_pos; lia. }
  rewrite (proj2 (shr_1_spec _ H0)). now rewrite shr_iter_m.
Qed.

(** Rounding to nearest adds at most one, and only when the last bit
    shifted out is set. *)
Lemma round_nearest_even_bounds (mrs : shr_record) :
  let m := round_nearest_even (shr_m mrs) (loc_of_shr_record mrs) in
  shr_m mrs <= m <= shr_m mrs + Z.b2z (shr_r mrs).
Proof.
  destruct mrs as [m [] []]; simpl; try lia.
  destruct (Z.even m); lia.
Qed.

(** Shifting an exact mantissa [n] places to the right divides it by
    [2 ^ n]; no shift is made for [n <= 0]. *)
Lemma shr_floor (M E n : Z) :
  0 <= M ->
  let sh := shr (Build_shr_record M false false) E n in
  snd sh = E + Z.max 0 n /\ shr_m (fst sh) = M / 2 ^ Z.max 0 n.
Proof.
  intros HM. destruct n as [|p|p]; cbn [shr fst snd shr_m].
  - split; [lia | now rewrite Z.div_1_r].
  - rewrite iter_pos_nat, shr_iter_m by assumption.
    rewrite positive_nat_Z. replace (Z.max 0 (Zpos p)) with (Zpos p) by lia.
    now split.
  - replace (Z.max 0 (Zneg p)) with 0 by lia.
    split; [lia | now rewrite Z.div_1_r].
Qed.

(** Shifting and then rounding to nearest: the result, scaled back, is at
    most half a unit of the last kept place above the exact mantissa. *)
Lemma round_shr (M E n : Z) :
  0 <= M ->
  let sh := shr (Build_shr_record M false false) E n in
  let m := round_nearest_even (shr_m (fst sh)) (loc_of_shr_record (fst sh)) in
  0 <= m /\ m * 2 ^ Z.max 0 n <= M + 2 ^ (Z.max 0 n - 1).
Proof.
  intros HM sh m.
  pose proof (round_nearest_even_bounds (fst sh)) as Hm.
  cbv zeta in Hm. fold m in Hm.
  destruct (shr_floor E n HM) as [_ Hfl]. fold sh in Hfl.
  assert (H0 : 0 <= shr_m (fst sh)) by (rewrite Hfl; apply Z.div_pos; lia).
  split; [lia|].
  destruct n as [|p|p].
  - replace (Z.max 0 0) with 0 in * by lia.
    subst sh. cbn [shr fst shr_m shr_r Z.b2z] in *. simpl. lia.
  - replace (Z.max 0 (Zpos p)) with (Zpos p) in * by lia.
    destruct (Pos2Nat.is_succ p) as [k Hk].
    assert (Hr : shr_r (fst sh) = Z.odd (M / 2 ^ Z.of_nat k)).
    { subst sh. cbn [shr fst]. rewrite iter_pos_nat, Hk.
      now rewrite shr_iter_r. }
    assert (Hp : Zpos p = Z.succ (Z.of_nat k))
      by (rewrite <- Nat2Z.inj_succ, <- Hk; now rewrite positive_nat_Z).
    rewrite Hp in *. replace (Z.succ (Z.of_nat k) - 1) with (Z.of_nat k) by lia.
    rewrite Z.pow_succ_r in * by lia.
    set (h := 2 ^ Z.of_nat k) in *.
    assert (Hh : 0 < h) by (apply Z.pow_pos_nonneg; lia).
    set (q := M / h) in *.
    assert (Hq : q * h <= M) by (rewrite Z.mul_comm; apply Z.mul_div_le; lia).
    assert (Hq2 : shr_m (fst sh) = q / 2).
    { rewrite Hfl. unfold q. rewrite Z.div_div by lia. f_equal. lia. }
    assert (Hodd : q = 2 * (q / 2) + Z.b2z (Z.odd q)).
    { rewrite (Z.div_mod q 2) at 1 by lia. now rewrite Zmod_odd. }
    rewrite Hr, Hq2 in Hm.
    destruct (Z.odd q); cbn [Z.b2z] in *; nia.
  - replace (Z.max 0 (Zneg p)) with 0 in * by lia.
    subst sh. cbn [shr fst shr_m shr_r Z.b2z] in *. simpl. lia.
Qed.

(** The rounding of an exact, positive product, step by step. *)
Lemma binary_round_aux_exact (M : positive) (E : Z) :
  exists m e n1 n2 : Z,
    n1 = Z.max 0 (fexp prec emax (Zdigits2 (Zpos M) + E) - E) /\
    0 <= n2 /\ e = E + n1 + n2 /\ 0 <= m /\
    m * 2 ^ (n1 + n2) <= Zpos M + 2 ^ (n1 - 1) /\
    binary_round_aux prec emax false (Zpos M) E loc_Exact =
    match m with
    | Z0 => S754_zero false
    | Zpos m' =>
        if e <=? emax - prec then S754_finite false m' e else S754_infinity false
    | Zneg _ => S754_nan
    end.
Proof.
  unfold binary_round_aux, shr_fexp. cbn [shr_record_of_loc].
  set (n := fexp prec emax (Zdigits2 (Zpos M) + E) - E).
  pose proof (@round_shr (Zpos M) E n ltac:(lia)) as Hround.
  pose proof (@shr_floor (Zpos M) E n ltac:(lia)) as Hfloor.
  cbv zeta in Hround, Hfloor.
  destruct (shr (Build_shr_record (Zpos M) false false) E n) as [mrs1 e1].
  cbn [fst snd] in Hround, Hfloor.
  set (m2 := round_nearest_even (shr_m mrs1) (loc_of_shr_record mrs1)) in *.
  destruct Hround as [Hm2 Hle]. destruct Hfloor as [He1 _].
  set (n' := fexp prec emax (Zdigits2 m2 + e1) - e1).
  pose proof (@shr_floor m2 e1 n' Hm2) as Hfloor2. cbv zeta in Hfloor2.
  destruct (shr (Build_shr_record m2 false false) e1 n') as [mrs2 e2].
  cbn [fst snd] in Hfloor2. destruct Hfloor2 as [He2 Hm3].
  exists (shr_m mrs2), e2, (Z.max 0 n), (Z.max 0 n').
  split; [reflexivity|]. split; [lia|]. split; [lia|].
  assert (Hp1 : 0 < 2 ^ Z.max 0 n) by (apply Z.pow_pos_nonneg; lia).
  assert (Hp2 : 0 < 2 ^ Z.max 0 n') by (apply Z.pow_pos_nonneg; lia).
  split; [rewrite Hm3; apply Z.div_pos; lia|].
  split; [|reflexivity].
  rewrite Z.pow_add_r by lia.
  assert (shr_m mrs2 * 2 ^ Z.max 0 n' <= m2)
    by (rewrite Hm3, Z.mul_comm; apply Z.mul_div_le; lia).
  nia.
Qed.

(** A Number of the unit interval is a zero, or a positive finite value
    whose exponent is at most -53. *)
Lemma inUnitInterval_cases (r : spec_float) :
  inUnitInterval r = true ->
  (exists s, r = S754_zero s) \/
  (exists m e, r = S754_finite false m e /\
               -1074 <= e <= -53 /\ Zpos m < 2 ^ 53).
Proof.
  unfold inUnitInterval. rewrite !andb_true_iff. intros [[Hv Hle] Hlt].
  change (ofZ 0) with (S754_zero false) in Hle.
  change (ofZ 1) with (S754_finite false 4503599627370496 (-52)) in Hlt.
  destruct r as [s|s| |s m e]; try discriminate.
  - left. now exists s.
  - destruct s; discriminate.
  - right. destruct s; try discriminate. exists m, e. split; [reflexivity|].
    cbn [valid_binary] in Hv. unfold bounded, canonical_mantissa in Hv.
    apply andb_true_iff in Hv as [Hc _]. apply Z.eqb_eq in Hc.
    unfold fexp, emin, prec, emax in Hc.
    pose proof (digits2_pos_bounds m) as [Hlo Hhi].
    assert (Hd : Zpos (digits2_pos m) <= 53) by lia.
    assert (H53 : 2 ^ Zpos (digits2_pos m) <= 2 ^ 53)
      by (apply Z.pow_le_mono_r; lia).
    unfold SFltb, SFcompare in Hlt.
    destruct (Z.compare_spec e (-52)) as [He|He|He]; try discriminate.
    + exfalso. rewrite Pos.compare_cont_spec in Hlt. cbn [Pos.switch_Eq] in Hlt.
      assert (Hm : Zpos m < 4503599627370496).
      { destruct (Pos.compare_spec m 4503599627370496); try discriminate.
        now apply Pos2Z.pos_lt_pos. }
      clear Hlt H53.
      assert (Hdm : Zpos (digits2_pos m) = 53) by lia.
      rewrite Hdm in Hlo. change (2 ^ (53 - 1)) with 4503599627370496 in Hlo.
      lia.
    + clear Hlt. lia.
Qed.

(** The product of a Number of the unit interval and 25 is below 25. *)
Lemma mul_25_floor (r : spec_float) :
  inUnitInterval r = true ->
  (exists s, mul r (ofZ 25) = S754_zero s) \/
  (exists m e, mul r (ofZ 25) = S754_finite false m e /\
               0 <= floorZ false m e <= 24).
Proof.
  intros Hr. change (ofZ 25) with (S754_finite false 7036874417766400 (-48)).
  destruct (inUnitInterval_cases r Hr) as [[s ->]|(m & e & -> & He & Hm)].
  { left. now exists (xorb s false). }
  clear Hr. unfold mul, SFmul. cbn [xorb].
  destruct (binary_round_aux_exact (m * 7036874417766400) (e + -48))
    as (m3 & e3 & n1 & n2 & Hn1 & Hn2 & He3 & Hm3 & Hle & ->).
  cbn [Zdigits2] in Hn1. rewrite Pos2Z.inj_mul in Hle.
  (* the first shift is of at most 53 places *)
  assert (Hdig : Zpos (digits2_pos (m * 7036874417766400)) <= 106).
  { apply digits2_pos_le; [lia|]. rewrite Pos2Z.inj_mul.
    change (2 ^ 106) with (2 ^ 53 * 2 ^ 53).
    apply Z.mul_lt_mono_nonneg;
      [apply Pos2Z.is_nonneg | exact Hm | apply Pos2Z.is_nonneg | reflexivity]. }
  assert (Hn1' : 0 <= n1 <= 53).
  { subst n1. unfold fexp, emin, prec, emax. lia. }
  assert (Hhalf : 2 ^ (n1 - 1) <= 2 ^ 52).
  { destruct (Z.eq_dec n1 0) as [->|]; [discriminate|].
    apply Z.pow_le_mono_r; lia. }
  clear Hdig Hn1.
  (* the mantissa of r is below T = 2 ^ (- e) *)
  assert (HT : 2 ^ 53 <= 2 ^ (- e)) by (apply Z.pow_le_mono_r; lia).
  (* with P = 2 ^ 48: the rounded product, scaled, is below 25 * P * T *)
  change (2 ^ 53) with (32 * 2 ^ 48) in *.
  change (2 ^ 52) with (16 * 2 ^ 48) in *.
  change (Zpos 7036874417766400) with (25 * 2 ^ 48) in *.
  assert (HP : 0 < 2 ^ 48) by reflexivity.
  assert (HV : 2 ^ 48 * 2 ^ (- e) = 2 ^ (- (e + -48))).
  { rewrite <- Z.pow_add_r by lia. f_equal. lia. }
  set (E := e + -48) in *.
  assert (HE : 101 <= - E) by (unfold E; lia).
  assert (Hn12 : n1 + n2 = e3 - E) by lia.
  clear He3. clearbody E. clear He.
  set (P := 2 ^ 48) in *. clearbody P.
  set (T := 2 ^ (- e)) in *. clearbody T.
  set (h := 2 ^ (n1 - 1)) in *. clearbody h.
  assert (Hbound : m3 * 2 ^ (n1 + n2) < 25 * 2 ^ (- E)).
  { rewrite <- HV.
    assert (Zpos m * (25 * P) + h < (Zpos m + 1) * (25 * P)) by lia.
    assert ((Zpos m + 1) * (25 * P) <= T * (25 * P))
      by (apply Z.mul_le_mono_nonneg_r; lia).
    lia. }
  clear Hle Hhalf HT Hm HV HP h T P m.
  assert (HX : 0 < 2 ^ (n1 + n2)) by (apply Z.pow_pos_nonneg; lia).
  assert (HVpos : 0 < 2 ^ (- E)) by (apply Z.pow_pos_nonneg; lia).
  destruct m3 as [|m'|m']; [left; now exists false| |lia].
  right.
  (* no overflow *)
  assert (He3' : e3 < 5).
  { assert (Hlt : 2 ^ (n1 + n2) < 2 ^ (5 + - E)).
    { rewrite (Z.pow_add_r 2 5 (- E)) by lia. change (2 ^ 5) with 32.
      assert (1 * 2 ^ (n1 + n2) <= Zpos m' * 2 ^ (n1 + n2))
        by (apply Z.mul_le_mono_nonneg_r; lia).
      lia. }
    apply Z.pow_lt_mono_r_iff in Hlt; lia. }
  replace (e3 <=? emax - prec) with true
    by (symmetry; apply Z.leb_le; unfold emax, prec; lia).
  exists m', e3. split; [reflexivity|].
  assert (Hge : 0 <= e3 - E) by lia.
  rewrite Hn12 in Hbound. clear Hn12 HX Hn1' Hn2 n1 n2.
  unfold floorZ. destruct (Z.leb_spec 0 e3) as [Hs|Hs].
  - replace (e3 - E) with (e3 + - E) in Hbound by lia.
    rewrite Z.pow_add_r, Z.mul_assoc in Hbound by lia.
    apply Z.mul_lt_mono_pos_r in Hbound; [|exact HVpos].
    assert (0 < 2 ^ e3) by (apply Z.pow_pos_nonneg; lia).
    split; [apply Z.mul_nonneg_nonneg; lia | lia].
  - assert (Hsplit : 2 ^ (- E) = 2 ^ (- e3) * 2 ^ (e3 - E)).
    { rewrite <- Z.pow_add_r by lia. f_equal. lia. }
    rewrite Hsplit, Z.mul_assoc in Hbound.
    apply Z.mul_lt_mono_pos_r in Hbound; [|apply Z.pow_pos_nonneg; lia].
    assert (0 < 2 ^ (- e3)) by (apply Z.pow_pos_nonneg; lia).
    split; [apply Z.div_pos; lia|].
    assert (Zpos m' / 2 ^ (- e3) < 25); [|lia].
    apply Z.div_lt_upper_bound; lia.
Qed.

End JsNumberFacts.

(** ** The random application id *)

Module ApplicationTokensFacts.

Import JsNumber ApplicationTokens JsNumberFacts.

Local Open Scope Z_scope.

(** [String.fromCharCode(97 + k)] for the integers [k] from 0 to 24,
    computed in binary64. *)
Lemma fromCharCode_table :
  forallb
    (fun k => match fromCharCode (add (ofZ 97) (binary_normalize prec emax k 0 false)) with
              | [c] => c =? 97 + k
              | _ => false
              end)
    (List.map Z.of_nat (seq 0 25)) = true.
Proof. vm_compute. reflexivity. Qed.

Lemma fromCharCode_small (k : Z) :
  0 <= k <= 24 ->
  fromCharCode (add (ofZ 97) (binary_normalize prec emax k 0 false)) = [97 + k].
Proof.
  intros Hk. pose proof fromCharCode_table as Ht.
  rewrite forallb_forall in Ht. specialize (Ht k).
  assert (Hin : In k (List.map Z.of_nat (seq 0 25))).
  { apply in_map_iff. exists (Z.to_nat k). split; [lia|].
    apply in_seq. lia. }
  specialize (Ht Hin).
  destruct (fromCharCode (add (ofZ 97) (binary_normalize prec emax k 0 false)))
    as [|c [|c' l]]; try discriminate.
  apply Z.eqb_eq in Ht. now subst c.
Qed.

(** The character made from one draw. *)
Lemma randomChar_of_draw (r : spec_float) :
  inUnitInterval r = true ->
  exists k, 0 <= k <= 24 /\
    fromCharCode (add (ofZ 97) (Math_floor (mul r (ofZ 25)))) = [97 + k].
Proof.
  intros Hr.
  destruct (mul_25_floor r Hr) as [[s ->]|(m & e & -> & Hk)].
  - exists 0. split; [lia|]. destruct s; reflexivity.
  - exists (floorZ false m e). split; [exact Hk|].
    cbn [Math_floor]. now apply fromCharCode_small.
Qed.

Lemma _randomChar_spec (draws : nat -> spec_float) (calls : nat) :
  inUnitInterval (draws calls) = true ->
  exists k, 0 <= k <= 24 /\ _randomChar draws calls = ([97 + k], S calls).
Proof.
  intros Hr. destruct (randomChar_of_draw _ Hr) as (k & Hk & Hc).
  exists k. split; [exact Hk|]. unfold _randomChar, Math_random. now rewrite Hc.
Qed.

(** C10: whatever values of [0, 1) the three calls of [Math.random()]
    return, [_appIdRandomProviderFactory] returns a string of exactly
    three code units, each from 97 (['a']) to 121 (['y']); 122 (['z'])
    does not occur.  The product [r * 25] is the rounded binary64 product. *)
Theorem _appIdRandomProviderFactory_spec :
  forall (draws : nat -> spec_float) (calls : nat),
  (forall i : nat, inUnitInterval (draws i) = true) ->
  let id := fst (_appIdRandomProviderFactory draws calls) in
  List.length id = 3%nat /\
  Forall (fun c => 97 <= c <= 121) id /\
  ~ In 122 id /\
  snd (_appIdRandomProviderFactory draws calls) = (calls + 3)%nat.
Proof.
  intros draws calls Hdraws. unfold _appIdRandomProviderFactory.
  destruct (_randomChar_spec draws calls (Hdraws _)) as (k1 & Hk1 & ->).
  destruct (_randomChar_spec draws (S calls) (Hdraws _)) as (k2 & Hk2 & ->).
  destruct (_randomChar_spec draws (S (S calls)) (Hdraws _)) as (k3 & Hk3 & ->).
  cbn [fst snd app List.length]. split; [reflexivity|]. split; [|split].
  - repeat constructor; lia.
  - cbn [In]. lia.
  - lia.
Qed.

Lemma _appIdRandomProviderFactory_spec_witness :
  let id := fst (_appIdRandomProviderFactory (fun _ => belowOne) 0) in
  List.length id = 3%nat /\
  Forall (fun c => 97 <= c <= 121) id /\
  ~ In 122 id /\
  snd (_appIdRandomProviderFactory (fun _ => belowOne) 0) = (0 + 3)%nat.
Proof.
  apply (_appIdRandomProviderFactory_spec (fun _ => belowOne) 0).
  intros i. vm_compute. reflexivity.
Defined.

End ApplicationTokensFacts.

(** ** Strings: [trim], [indexOf], [slice], [split] *)

Module JsTextFacts.

Import JsString JsText.

Local Open Scope Z_scope.

Lemma eqb_eq (a b : JsString.t) : eqb a b = true <-> a = b.
Proof.
  revert b. induction a as [|x a IH]; intros [|y b]; simpl;
    try (split; (reflexivity || discriminate)).
  rewrite andb_true_iff, Z.eqb_eq, IH. split.
  - now intros [-> ->].
  - intros H. injection H as -> ->. now split.
Qed.

Lemma eqb_refl (a : JsString.t) : eqb a a = true.
Proof. now apply eqb_eq. Qed.

Lemma eqb_neq (a b : JsString.t) : eqb a b = false <-> a <> b.
Proof.
  split.
  - intros H E. apply eqb_eq in E. congruence.
  - intros H. destruct (eqb a b) eqn:E; [|reflexivity].
    apply eqb_eq in E. contradiction.
Qed.

Lemma nonEmpty_false (s : JsString.t) : nonEmpty s = false <-> s = [].
Proof. destruct s; simpl; split; (reflexivity || discriminate). Qed.

Lemma nonEmpty_length (s : JsString.t) :
  (0 <? Z.of_nat (List.length s)) = nonEmpty s.
Proof. destruct s; reflexivity. Qed.

(** *** [trim] *)

Lemma forallb_rev {A : Type} (f : A -> bool) (l : list A) :
  forallb f (rev l) = forallb f l.
Proof.
  induction l as [|x l IH]; simpl; [reflexivity|].
  rewrite forallb_app, IH. simpl. rewrite andb_true_r. apply andb_comm.
Qed.

Lemma trimStart_app (a b : JsString.t) :
  trimStart (a ++ b) =
  if forallb isWhiteSpace a then trimStart b else trimStart a ++ b.
Proof.
  induction a as [|c a IH]; simpl; [reflexivity|].
  destruct (isWhiteSpace c); simpl; [exact IH | reflexivity].
Qed.

Lemma trimStart_all (s : JsString.t) :
  trimStart s = [] <-> forallb isWhiteSpace s = true.
Proof.
  induction s as [|c s IH]; simpl; [tauto|].
  destruct (isWhiteSpace c); simpl; [exact IH|].
  split; discriminate.
Qed.

Lemma trimStart_suffix (s : JsString.t) : exists a, s = a ++ trimStart s.
Proof.
  induction s as [|c s [a IH]]; simpl; [now exists []|].
  destruct (isWhiteSpace c).
  - exists (c :: a). simpl. now f_equal.
  - now exists [].
Qed.

Lemma trimStart_head (s : JsString.t) :
  match trimStart s with
  | [] => True
  | c :: _ => isWhiteSpace c = false
  end.
Proof.
  induction s as [|c s IH]; simpl; [exact I|].
  destruct (isWhiteSpace c) eqn:E; [exact IH | exact E].
Qed.

Lemma trimStart_fixed (s : JsString.t) :
  trimStart s = s <->
  match s with [] => True | c :: _ => isWhiteSpace c = false end.
Proof.
  split.
  - intros H. rewrite <- H. apply trimStart_head.
  - destruct s as [|c s]; simpl; [reflexivity|]. now intros ->.
Qed.

Lemma trimStart_idem (s : JsString.t) : trimStart (trimStart s) = trimStart s.
Proof. apply trimStart_fixed, trimStart_head. Qed.

Lemma trimEnd_cons (c : Z) (s : JsString.t) :
  trimEnd (c :: s) =
  if forallb isWhiteSpace s && isWhiteSpace c then [] else c :: trimEnd s.
Proof.
  unfold trimEnd. simpl rev. rewrite trimStart_app, forallb_rev.
  destruct (forallb isWhiteSpace s) eqn:Hs; simpl.
  - assert (Hr : trimStart (rev s) = [])
      by (apply trimStart_all; now rewrite forallb_rev).
    rewrite Hr. destruct (isWhiteSpace c); reflexivity.
  - rewrite rev_app_distr. reflexivity.
Qed.

Lemma trimEnd_all (s : JsString.t) :
  trimEnd s = [] <-> forallb isWhiteSpace s = true.
Proof.
  unfold trimEnd. rewrite <- forallb_rev, <- trimStart_all.
  split; intros H.
  - apply (f_equal (@rev Z)) in H. now rewrite rev_involutive in H.
  - now rewrite H.
Qed.

Lemma trimEnd_app_cons (a b : JsString.t) (c : Z) :
  isWhiteSpace c = false -> trimEnd (a ++ c :: b) = a ++ c :: trimEnd b.
Proof.
  intros Hc. induction a as [|x a IH]; simpl.
  - rewrite trimEnd_cons, Hc, andb_false_r. reflexivity.
  - rewrite trimEnd_cons, IH.
    replace (forallb isWhiteSpace (a ++ c :: b)) with false; [reflexivity|].
    symmetry. rewrite forallb_app. simpl. rewrite Hc. simpl. apply andb_false_r.
Qed.

Lemma trimEnd_prefix (s : JsString.t) : exists b, s = trimEnd s ++ b.
Proof.
  unfold trimEnd. destruct (trimStart_suffix (rev s)) as [a H].
  exists (rev a). apply (f_equal (@rev Z)) in H.
  rewrite rev_involutive, rev_app_distr in H. exact H.
Qed.

Lemma trimEnd_idem (s : JsString.t) : trimEnd (trimEnd s) = trimEnd s.
Proof. unfold trimEnd. now rewrite rev_involutive, trimStart_idem. Qed.

Lemma trimStart_trimEnd (s : JsString.t) :
  trimStart (trimEnd s) = trimEnd (trimStart s).
Proof.
  induction s as [|c s IH]; [reflexivity|].
  rewrite trimEnd_cons. simpl trimStart at 2.
  destruct (isWhiteSpace c) eqn:Hc.
  - destruct (forallb isWhiteSpace s) eqn:Hs; simpl.
    + symmetry. apply trimEnd_all.
      assert (Hn : trimStart s = []) by now apply trimStart_all.
      now rewrite Hn.
    + simpl. rewrite Hc. exact IH.
  - rewrite andb_false_r. simpl. rewrite Hc.
    rewrite trimEnd_cons, Hc, andb_false_r. reflexivity.
Qed.

Lemma trim_idem (s : JsString.t) : trim (trim s) = trim s.
Proof.
  unfold trim. now rewrite trimStart_trimEnd, trimStart_idem, trimEnd_idem.
Qed.

Lemma trim_trimEnd (s : JsString.t) : trim (trimEnd s) = trim s.
Proof. unfold trim. now rewrite trimStart_trimEnd, trimEnd_idem. Qed.

Lemma trim_nil : trim [] = [].
Proof. reflexivity. Qed.

(** A string without white space at its ends. *)
Lemma trim_fixed (s : JsString.t) :
  trim s = s <-> trimStart s = s /\ trimEnd s = s.
Proof.
  split.
  - intros H. destruct (trimStart_suffix s) as [a Ha].
    destruct (trimEnd_prefix (trimStart s)) as [b Hb].
    fold (trim s) in Hb. rewrite H in Hb.
    assert (Hlen : List.length s = (List.length a + (List.length s + List.length b))%nat).
    { rewrite Ha at 1. rewrite length_app. f_equal. rewrite Hb at 1.
      now rewrite length_app. }
    assert (a = []) by (destruct a; [reflexivity | simpl in Hlen; lia]).
    assert (b = []) by (destruct b; [reflexivity | simpl in Hlen; lia]).
    subst a b. simpl in Ha. rewrite app_nil_r in Hb.
    split; [now symmetry|]. unfold trim in H. now rewrite <- Ha in H.
  - intros [H1 H2]. unfold trim. now rewrite H1.
Qed.

Lemma trim_In (c : Z) (s : JsString.t) : In c (trim s) -> In c s.
Proof.
  intros H. destruct (trimStart_suffix s) as [a Ha].
  destruct (trimEnd_prefix (trimStart s)) as [b Hb].
  rewrite Ha, Hb. apply in_or_app. right. apply in_or_app. now left.
Qed.

(** A key, a colon and a value: what [trim] makes of it. *)
Lemma trim_entry (k v : JsString.t) :
  trim k = k -> trim (k ++ colon :: v) = k ++ colon :: trimEnd v.
Proof.
  intros Hk. apply trim_fixed in Hk as [Hs _].
  unfold trim.
  assert (H : trimStart (k ++ colon :: v) = k ++ colon :: v).
  { apply trimStart_fixed. apply trimStart_fixed in Hs.
    destruct k; [reflexivity | exact Hs]. }
  rewrite H. now apply trimEnd_app_cons.
Qed.

(** *** [indexOf] and [slice] *)

Lemma indexOf_range (c : Z) (s : JsString.t) :
  -1 <= indexOf c s < Z.of_nat (List.length s) \/ (s = [] /\ indexOf c s = -1).
Proof.
  induction s as [|x s IH]; [now right|]. left.
  change (List.length (x :: s)) with (S (List.length s)).
  rewrite Nat2Z.inj_succ. simpl indexOf.
  destruct (x =? c); [lia|].
  destruct (indexOf c s =? -1) eqn:E; [lia|].
  apply Z.eqb_neq in E. destruct IH as [IH|[-> IH]]; [lia|]. simpl in E. lia.
Qed.

Lemma indexOf_absent (c : Z) (s : JsString.t) :
  indexOf c s = -1 <-> ~ In c s.
Proof.
  induction s as [|x s IH]; simpl; [tauto|].
  destruct (Z.eqb_spec x c) as [->|Hx].
  - split; [discriminate | intros H; exfalso; apply H; now left].
  - destruct (Z.eqb_spec (indexOf c s) (-1)) as [E|E].
    + split; [|reflexivity]. intros _ [H|H]; [contradiction|]. now apply IH in H.
    + split.
      * intros H. pose proof (indexOf_range c s). lia.
      * intros H. exfalso. apply E, IH. intros Hin. apply H. now right.
Qed.

Lemma indexOf_app (c : Z) (a b : JsString.t) :
  ~ In c a -> indexOf c (a ++ c :: b) = Z.of_nat (List.length a).
Proof.
  induction a as [|x a IH]; intros Ha.
  - simpl. now rewrite Z.eqb_refl.
  - simpl app. simpl indexOf.
    destruct (Z.eqb_spec x c) as [->|Hx]; [exfalso; apply Ha; now left|].
    rewrite IH by (intros H; apply Ha; now right).
    destruct (Z.eqb_spec (Z.of_nat (List.length a)) (-1)); [lia|].
    simpl List.length. lia.
Qed.

(** A string splits at the index of its first [c]. *)
Lemma indexOf_split (c : Z) (s : JsString.t) :
  indexOf c s <> -1 ->
  exists a b, s = a ++ c :: b /\ ~ In c a /\
              indexOf c s = Z.of_nat (List.length a).
Proof.
  induction s as [|x s IH]; simpl; [congruence|].
  destruct (Z.eqb_spec x c) as [->|Hx].
  - intros _. exists [], s. repeat split. intros [].
  - destruct (Z.eqb_spec (indexOf c s) (-1)) as [E|E]; [congruence|].
    intros _. destruct (IH E) as (a & b & -> & Ha & Hi).
    exists (x :: a), b. repeat split.
    + intros [H|H]; [congruence | contradiction].
    + rewrite Hi. simpl List.length. lia.
Qed.

Lemma slice_prefix (a b : JsString.t) :
  slice (a ++ b) 0 (Z.of_nat (List.length a)) = a.
Proof.
  unfold slice, sliceIndex. rewrite length_app, Nat2Z.inj_add.
  replace (0 <? 0) with false by reflexivity.
  destruct (Z.ltb_spec (Z.of_nat (List.length a)) 0); [lia|].
  rewrite !Z.min_l by lia. rewrite Z.sub_0_r, Z.max_l by lia.
  simpl skipn. rewrite Nat2Z.id.
  rewrite firstn_app, firstn_all, Nat.sub_diag. simpl. apply app_nil_r.
Qed.

Lemma sliceFrom_suffix (a b : JsString.t) (c : Z) :
  sliceFrom (a ++ c :: b) (Z.of_nat (List.length a) + 1) = b.
Proof.
  unfold sliceFrom, slice, sliceIndex. rewrite length_app. simpl List.length.
  rewrite Nat2Z.inj_add, Nat2Z.inj_succ.
  destruct (Z.ltb_spec (Z.of_nat (List.length a) + 1) 0); [lia|].
  destruct (Z.ltb_spec (Z.of_nat (List.length a) + Z.succ (Z.of_nat (List.length b))) 0);
    [lia|].
  rewrite !Z.min_l by lia. rewrite Z.max_l by lia.
  replace (Z.to_nat (Z.of_nat (List.length a) + 1)) with (List.length a + 1)%nat by lia.
  replace (Z.to_nat _) with (List.length b) by lia.
  replace (a ++ c :: b)%list with ((a ++ [c]) ++ b)%list
    by (now rewrite <- app_assoc).
  rewrite skipn_app.
  replace (List.length (a ++ [c])) with (List.length a + 1)%nat
    by (rewrite length_app; reflexivity).
  rewrite skipn_all2 by (rewrite length_app; simpl; lia).
  rewrite Nat.sub_diag. simpl. apply firstn_all.
Qed.

(** *** [split] *)

(** No piece holds a semicolon. *)
Lemma splitAux_no_semicolon (s : JsString.t) :
  ~ In semicolon (fst (splitAux s)) /\
  Forall (fun p => ~ In semicolon p) (snd (splitAux s)).
Proof.
  induction s as [|c s [IH1 IH2]]; simpl; [split; [intros []|constructor]|].
  destruct (splitAux s) as [piece pieces]. simpl in IH1, IH2.
  destruct (Z.eqb_spec c semicolon) as [->|Hc].
  - destruct s as [|c' s']; [|destruct (c' =? semicolon)]; simpl;
      (split; [intros []|]); auto.
  - simpl. split; [|exact IH2]. intros [H|H]; [congruence | contradiction].
Qed.

Lemma splitSemicolons_no_semicolon (s : JsString.t) :
  Forall (fun p => ~ In semicolon p) (splitSemicolons s).
Proof.
  unfold splitSemicolons. destruct (splitAux_no_semicolon s) as [H1 H2].
  destruct (splitAux s). now constructor.
Qed.

(** A piece without semicolon, a semicolon, and a rest that does not start
    with one. *)
Lemma splitAux_piece (p rest : JsString.t) :
  ~ In semicolon p ->
  match rest with [] => True | c :: _ => c <> semicolon end ->
  splitAux (p ++ semicolon :: rest) =
  (p, fst (splitAux rest) :: snd (splitAux rest)).
Proof.
  intros Hp Hrest. induction p as [|x p IH].
  - cbn [app splitAux]. rewrite Z.eqb_refl.
    destruct (splitAux rest) as [piece pieces].
    destruct rest as [|c r]; [reflexivity|].
    destruct (Z.eqb_spec c semicolon); [contradiction | reflexivity].
  - cbn [app splitAux]. rewrite IH by (intros H; apply Hp; now right).
    destruct (Z.eqb_spec x semicolon) as [->|]; [|reflexivity].
    exfalso. apply Hp. now left.
Qed.

(** Pieces that are not empty, each followed by a semicolon, split into
    themselves and an empty last piece. *)
Lemma splitSemicolons_concat (pieces : list JsString.t) :
  Forall (fun p => ~ In semicolon p /\ p <> []) pieces ->
  splitSemicolons (concat (List.map (fun p => p ++ [semicolon]) pieces)) =
  (pieces ++ [[]])%list.
Proof.
  unfold splitSemicolons. induction 1 as [|p ps [Hp Hne] Hps IH]; [reflexivity|].
  simpl. rewrite <- app_assoc. simpl.
  rewrite splitAux_piece; [| exact Hp |].
  - destruct (splitAux (concat (List.map (fun p0 => p0 ++ [semicolon]) ps)))
      as [piece rest].
    simpl. now rewrite IH.
  - destruct Hps as [|q qs [Hq Hqne] _]; [exact I|].
    simpl. destruct q as [|c q]; [congruence|]. simpl.
    intros ->. apply Hq. now left.
Qed.

End JsTextFacts.

(** ** Objects *)

Module JsObjectFacts.

Import JsString JsText JsTextFacts JsObject.

Lemma get_In (o : JsObject.t) (k v : JsString.t) :
  get o k = Some v -> In (k, v) o.
Proof.
  induction o as [|[k' v'] o IH]; simpl; [discriminate|].
  destruct (eqb k' k) eqn:E.
  - apply eqb_eq in E. subst k'. intros H. injection H as ->. now left.
  - intros H. right. now apply IH.
Qed.

Lemma get_None (o : JsObject.t) (k : JsString.t) :
  get o k = None <-> ~ In k (keys o).
Proof.
  induction o as [|[k' v'] o IH]; simpl; [tauto|].
  destruct (eqb k' k) eqn:E.
  - apply eqb_eq in E. subst k'. split; [discriminate|]. intros H. exfalso. auto.
  - apply eqb_neq in E. rewrite IH. tauto.
Qed.

Lemma get_NoDup (o : JsObject.t) (k v : JsString.t) :
  NoDup (keys o) -> In (k, v) o -> get o k = Some v.
Proof.
  induction o as [|[k' v'] o IH]; simpl; [intros _ []|].
  intros Hnd [H|H].
  - injection H as -> ->. now rewrite eqb_refl.
  - inversion Hnd as [|? ? Hk' Hnd']; subst.
    destruct (eqb k' k) eqn:E.
    + apply eqb_eq in E. subst k'. exfalso. apply Hk'.
      change k with (fst (k, v)). now apply in_map.
    + now apply IH.
Qed.

Lemma keys_update (o : JsObject.t) (k v : JsString.t) :
  keys (update o k v) = keys o.
Proof.
  induction o as [|[k' v'] o IH]; simpl; [reflexivity|].
  destruct (eqb k' k); simpl; [reflexivity | now rewrite IH].
Qed.

Lemma get_update (o : JsObject.t) (k v k0 : JsString.t) :
  get (update o k v) k0 =
  if eqb k k0 then match get o k with Some _ => Some v | None => None end
  else get o k0.
Proof.
  induction o as [|[k' v'] o IH]; simpl; [now destruct (eqb k k0)|].
  destruct (eqb k' k) eqn:E; simpl.
  - apply eqb_eq in E. subst k'. now destruct (eqb k k0).
  - rewrite IH. destruct (eqb k' k0) eqn:E0; [|reflexivity].
    apply eqb_eq in E0. subst k0. apply eqb_neq in E.
    replace (eqb k k') with false; [reflexivity|].
    symmetry. apply eqb_neq. congruence.
Qed.

Lemma In_insertIndex (o : JsObject.t) (n : Z) (k v : JsString.t) (e : JsString.t * JsString.t) :
  In e (insertIndex o n k v) <-> e = (k, v) \/ In e o.
Proof.
  induction o as [|[k' v'] o IH]; simpl; [intuition congruence|].
  destruct (arrayIndex k') as [n'|]; [destruct (n' <? n)%Z|]; simpl;
    rewrite ?IH; intuition congruence.
Qed.

Lemma NoDup_insertIndex (o : JsObject.t) (n : Z) (k v : JsString.t) :
  NoDup (keys o) -> ~ In k (keys o) -> NoDup (keys (insertIndex o n k v)).
Proof.
  induction o as [|[k' v'] o IH]; simpl; intros Hnd Hk.
  - constructor; [intros []|constructor].
  - assert (Hcons : NoDup (k :: k' :: keys o)) by (constructor; assumption).
    destruct (arrayIndex k') as [n'|]; [destruct (n' <? n)%Z|]; simpl; auto.
    inversion Hnd as [|? ? Hk' Hnd']; subst.
    constructor; [|apply IH; [exact Hnd' | intros H; apply Hk; now right]].
    unfold keys. rewrite in_map_iff. intros [[k1 v1] [E Hin]]. simpl in E. subst k1.
    apply In_insertIndex in Hin as [Hin|Hin].
    + injection Hin as -> _. tauto.
    + apply Hk'. change k' with (fst (k', v1)). now apply in_map.
Qed.

Lemma get_insertIndex (o : JsObject.t) (n : Z) (k v k0 : JsString.t) :
  get o k = None ->
  get (insertIndex o n k v) k0 = if eqb k k0 then Some v else get o k0.
Proof.
  induction o as [|[k' v'] o IH]; simpl; [reflexivity|].
  destruct (eqb k' k) eqn:E; [discriminate|]. intros Hk.
  destruct (arrayIndex k') as [n'|]; [destruct (n' <? n)%Z|]; simpl;
    try reflexivity.
  rewrite IH by assumption.
  destruct (eqb k' k0) eqn:E0; [|reflexivity].
  apply eqb_eq in E0. subst k0. apply eqb_neq in E.
  replace (eqb k k') with false; [reflexivity|].
  symmetry. apply eqb_neq. congruence.
Qed.

Lemma get_app (o : JsObject.t) (k v k0 : JsString.t) :
  get o k = None ->
  get (o ++ [(k, v)]) k0 = if eqb k k0 then Some v else get o k0.
Proof.
  induction o as [|[k' v'] o IH]; simpl; [reflexivity|].
  destruct (eqb k' k) eqn:E; [discriminate|]. intros Hk.
  rewrite IH by assumption.
  destruct (eqb k' k0) eqn:E0; [|reflexivity].
  apply eqb_eq in E0. subst k0. apply eqb_neq in E.
  replace (eqb k k') with false; [reflexivity|].
  symmetry. apply eqb_neq. congruence.
Qed.

(** Reading after writing: the written key has the new value, the others
    keep theirs; [__proto__] cannot be written. *)
Lemma get_set (o : JsObject.t) (k v k0 : JsString.t) :
  get (set o k v) k0 =
  if eqb k (lit "__proto__") then get o k0
  else if eqb k k0 then Some v else get o k0.
Proof.
  unfold set. destruct (eqb k (lit "__proto__")); [reflexivity|].
  destruct (get o k) as [v0|] eqn:Hk.
  - rewrite get_update, Hk. reflexivity.
  - destruct (arrayIndex k); [now apply get_insertIndex | now apply get_app].
Qed.

Lemma In_set (o : JsObject.t) (k v : JsString.t) (e : JsString.t * JsString.t) :
  In e (set o k v) -> e = (k, v) \/ In e o.
Proof.
  unfold set. destruct (eqb k (lit "__proto__")); [now right|].
  destruct (get o k) as [v0|] eqn:Hk.
  - clear Hk. induction o as [|[k' v'] o IH]; simpl; [intros []|].
    destruct (eqb k' k) eqn:E; simpl.
    + apply eqb_eq in E. subst k'. intros [<-|H]; [now left | right; now right].
    + intros [<-|H]; [right; now left|].
      destruct (IH H) as [->|H']; [now left | right; now right].
  - destruct (arrayIndex k).
    + intros H. now apply In_insertIndex in H.
    + intros H. apply in_app_or in H as [H|[<-|[]]]; [now right | now left].
Qed.

Lemma NoDup_set (o : JsObject.t) (k v : JsString.t) :
  NoDup (keys o) -> NoDup (keys (set o k v)).
Proof.
  intros Hnd. unfold set. destruct (eqb k (lit "__proto__")); [exact Hnd|].
  destruct (get o k) as [v0|] eqn:Hk.
  - now rewrite keys_update.
  - apply get_None in Hk. destruct (arrayIndex k).
    + now apply NoDup_insertIndex.
    + unfold keys in *. rewrite map_app. simpl.
      apply NoDup_app; [exact Hnd | constructor; [intros []|constructor] |].
      intros x Hx [<-|[]]. contradiction.
Qed.

(** No assignment creates an own property [__proto__]. *)
Lemma set_no_proto (o : JsObject.t) (k v : JsString.t) :
  ~ In (lit "__proto__") (keys o) -> ~ In (lit "__proto__") (keys (set o k v)).
Proof.
  intros Ho Hin. apply get_None in Ho.
  assert (H : get (set o k v) (lit "__proto__") = None).
  { rewrite get_set. destruct (eqb k (lit "__proto__")); exact Ho. }
  apply get_None in H. contradiction.
Qed.

End JsObjectFacts.

(** ** The style attribute *)

Module ServerRendererStylesFacts.

Import JsString JsText JsTextFacts Exn JsObject JsObjectFacts ServerRendererStyles.

Local Open Scope Z_scope.

Lemma has_In (c : Z) (s : JsString.t) : has c s = true <-> In c s.
Proof.
  unfold has. rewrite existsb_exists. split.
  - intros (x & Hx & E). apply Z.eqb_eq in E. now subst x.
  - intros H. exists c. split; [exact H | apply Z.eqb_refl].
Qed.

Lemma has_false (c : Z) (s : JsString.t) : has c s = false <-> ~ In c s.
Proof.
  rewrite <- has_In. destruct (has c s); split; congruence.
Qed.

Lemma cleanName_spec (k : JsString.t) :
  cleanName k = true <-> trim k = k /\ ~ In colon k /\ ~ In semicolon k.
Proof.
  unfold cleanName. rewrite !andb_true_iff, !negb_true_iff, eqb_eq, !has_false.
  tauto.
Qed.

Lemma safeValue_spec (v : JsString.t) :
  safeValue v = true <-> ~ In semicolon v.
Proof. unfold safeValue. now rewrite negb_true_iff, has_false. Qed.

Lemma cleanValue_spec (v : JsString.t) :
  cleanValue v = true <-> trim v = v /\ ~ In semicolon v.
Proof.
  unfold cleanValue. now rewrite andb_true_iff, eqb_eq, safeValue_spec.
Qed.

Lemma writable_set (m : JsObject.t) (k v : JsString.t) :
  writable m -> cleanName k = true -> safeValue v = true -> writable (set m k v).
Proof.
  intros (Hnd & Hp & Hall) Hk Hv. split; [|split].
  - now apply NoDup_set.
  - now apply set_no_proto.
  - rewrite Forall_forall in *. intros e He.
    apply In_set in He as [->|He]; [now split | now apply Hall].
Qed.

Lemma wellFormed_set (m : JsObject.t) (k v : JsString.t) :
  wellFormed m -> cleanName k = true -> cleanValue v = true ->
  wellFormed (set m k v).
Proof.
  intros [Hw Hall] Hk Hv. split.
  - apply writable_set; auto. apply cleanValue_spec in Hv.
    now apply safeValue_spec.
  - rewrite Forall_forall in *. intros e He.
    apply In_set in He as [->|He]; [exact Hv | now apply Hall].
Qed.

Lemma wellFormed_empty : wellFormed JsObject.empty.
Proof.
  split; [split; [|split]|]; try constructor. intros [].
Qed.

(** *** Reading *)

(** What the loop does with one piece. *)
Lemma readStyleList_cons (item : JsString.t) (rest : list JsString.t)
  (m : JsObject.t) :
  readStyleList (item :: rest) m =
  if nonEmpty (trim item) then
    if indexOf colon (trim item) =? -1 then
      Throws (Error (lit "Invalid CSS style: " ++ trim item))
    else
      readStyleList rest
        (set m (trim (slice (trim item) 0 (indexOf colon (trim item))))
               (trim (sliceFrom (trim item) (indexOf colon (trim item) + 1))))
  else readStyleList rest m.
Proof. cbn [readStyleList]. now rewrite nonEmpty_length. Qed.

(** A piece without semicolon gives a clean name and a clean value. *)
Lemma piece_clean (style : JsString.t) :
  ~ In semicolon style -> indexOf colon style <> -1 ->
  cleanName (trim (slice style 0 (indexOf colon style))) = true /\
  cleanValue (trim (sliceFrom style (indexOf colon style + 1))) = true.
Proof.
  intros Hs Hi. destruct (indexOf_split colon style Hi) as (a & b & -> & Ha & ->).
  rewrite slice_prefix, sliceFrom_suffix. split.
  - apply cleanName_spec. split; [apply trim_idem|].
    split; intros H; apply trim_In in H; [contradiction|].
    apply Hs, in_or_app. now left.
  - apply cleanValue_spec. split; [apply trim_idem|].
    intros H. apply trim_In in H. apply Hs, in_or_app. right. now right.
Qed.

Lemma readStyleList_wellFormed (styleList : list JsString.t) :
  Forall (fun p => ~ In semicolon p) styleList ->
  forall m m', wellFormed m -> readStyleList styleList m = Returns m' ->
  wellFormed m'.
Proof.
  induction 1 as [|item rest Hitem _ IH]; intros m m' Hm.
  - simpl. intros H. now injection H as <-.
  - rewrite readStyleList_cons.
    destruct (nonEmpty (trim item)); [|now apply IH].
    destruct (Z.eqb_spec (indexOf colon (trim item)) (-1)) as [E|E];
      [discriminate|].
    apply IH. destruct (piece_clean (trim item)) as [Hk Hv]; auto.
    + intros H. now apply trim_In in H.
    + now apply wellFormed_set.
Qed.

Lemma readStyleList_throws (styleList : list JsString.t) (m : JsObject.t) :
  (exists e, readStyleList styleList m = Throws e) <->
  Exists (fun p => trim p <> [] /\ ~ In colon (trim p)) styleList.
Proof.
  revert m. induction styleList as [|item rest IH]; intros m.
  - simpl. split; [intros [e H]; discriminate | intros H; inversion H].
  - rewrite readStyleList_cons, Exists_cons.
    destruct (nonEmpty (trim item)) eqn:Hne.
    + destruct (Z.eqb_spec (indexOf colon (trim item)) (-1)) as [E|E].
      * split; [intros _|intros _; eexists; reflexivity].
        left. split; [|now apply indexOf_absent].
        intros H. rewrite H in Hne. discriminate.
      * rewrite IH. split; [now right|].
        intros [[_ H]|H]; [|exact H]. now apply indexOf_absent in H.
    + rewrite IH. apply nonEmpty_false in Hne.
      split; [now right|]. intros [[H _]|H]; [contradiction | exact H].
Qed.

Lemma readStyleList_error (styleList : list JsString.t) (m : JsObject.t) (e : Exn.t) :
  readStyleList styleList m = Throws e ->
  exists piece, In piece styleList /\ ~ In colon (trim piece) /\
    e = Error (lit "Invalid CSS style: " ++ trim piece).
Proof.
  revert m. induction styleList as [|item rest IH]; intros m.
  - discriminate.
  - rewrite readStyleList_cons.
    destruct (nonEmpty (trim item)).
    + destruct (Z.eqb_spec (indexOf colon (trim item)) (-1)) as [E|E].
      * intros H. injection H as <-. exists item.
        split; [now left|]. split; [now apply indexOf_absent | reflexivity].
      * intros H. destruct (IH _ H) as (p & Hp & Hc & He).
        exists p. split; [now right | now split].
    + intros H. destruct (IH _ H) as (p & Hp & Hc & He).
      exists p. split; [now right | now split].
Qed.

(** *** Writing, and reading back *)

Lemma writeStyleList_spec (o : JsObject.t) (acc : JsString.t) :
  writeStyleList o acc =
  acc ++ concat (List.map (fun p => p ++ [semicolon]) (List.map declaration (written o))).
Proof.
  revert acc. induction o as [|[k v] o IH]; intros acc; simpl.
  - now rewrite app_nil_r.
  - destruct (nonEmpty v); simpl; rewrite IH; [|reflexivity].
    unfold declaration. simpl. repeat (rewrite <- app_assoc; simpl). reflexivity.
Qed.

Lemma declaration_ok (e : JsString.t * JsString.t) :
  cleanName (fst e) = true -> safeValue (snd e) = true ->
  ~ In semicolon (declaration e) /\ declaration e <> [].
Proof.
  intros Hk Hv. apply cleanName_spec in Hk as (_ & _ & Hk).
  apply safeValue_spec in Hv. unfold declaration. split.
  - intros H. apply in_app_or in H as [H|[H|H]]; auto. discriminate.
  - destruct (fst e); discriminate.
Qed.

(** Reading one declaration of a clean name. *)
Lemma readStyleList_declaration (e : JsString.t * JsString.t)
  (rest : list JsString.t) (m : JsObject.t) :
  cleanName (fst e) = true ->
  readStyleList (declaration e :: rest) m =
  readStyleList rest (set m (fst e) (trim (snd e))).
Proof.
  destruct e as [k v]. simpl fst. simpl snd. intros Hk.
  apply cleanName_spec in Hk as (Ht & Hc & _).
  rewrite readStyleList_cons. unfold declaration. simpl fst. simpl snd.
  rewrite trim_entry by exact Ht.
  replace (nonEmpty (k ++ colon :: trimEnd v)) with true by now destruct k.
  rewrite indexOf_app by exact Hc.
  destruct (Z.eqb_spec (Z.of_nat (List.length k)) (-1)); [lia|].
  rewrite slice_prefix, sliceFrom_suffix, Ht, trim_trimEnd. reflexivity.
Qed.

Lemma readStyleList_declarations (entries : JsObject.t) (m : JsObject.t) :
  Forall (fun e => cleanName (fst e) = true) entries ->
  readStyleList (List.map declaration entries ++ [[]]) m =
  Returns (fold_left (fun m e => set m (fst e) (trim (snd e))) entries m).
Proof.
  intros H. revert m. induction H as [|e entries He _ IH]; intros m.
  - reflexivity.
  - cbn [List.map app fold_left].
    rewrite readStyleList_declaration by exact He. apply IH.
Qed.

(** The value of a key after a run of assignments to distinct keys. *)
Lemma get_fold_set (entries : JsObject.t) (m : JsObject.t) (k : JsString.t) :
  NoDup (keys entries) -> ~ In (lit "__proto__") (keys entries) ->
  get (fold_left (fun m e => set m (fst e) (trim (snd e))) entries m) k =
  match get entries k with
  | Some v => Some (trim v)
  | None => get m k
  end.
Proof.
  revert m. induction entries as [|[k1 v1] entries IH]; intros m Hnd Hp.
  - reflexivity.
  - simpl fold_left. inversion Hnd as [|? ? Hk1 Hnd']; subst.
    rewrite IH; [|exact Hnd' | intros H; apply Hp; now right].
    simpl get. rewrite get_set.
    replace (eqb k1 (lit "__proto__")) with false
      by (symmetry; apply eqb_neq; intros ->; apply Hp; now left).
    destruct (eqb k1 k) eqn:E; [|reflexivity].
    apply eqb_eq in E. subst k1.
    apply get_None in Hk1. now rewrite Hk1.
Qed.

Lemma written_sub (o : JsObject.t) (k : JsString.t) :
  In k (keys (written o)) -> In k (keys o).
Proof.
  unfold keys, written. rewrite !in_map_iff. intros (e & He & Hin).
  apply filter_In in Hin as [Hin _]. now exists e.
Qed.

Lemma NoDup_written (o : JsObject.t) : NoDup (keys o) -> NoDup (keys (written o)).
Proof.
  induction o as [|[k v] o IH]; simpl; [constructor|].
  intros Hnd. inversion Hnd as [|? ? Hk Hnd']; subst.
  destruct (nonEmpty v); simpl; [|now apply IH].
  constructor; [|now apply IH]. intros H. apply Hk. now apply written_sub.
Qed.

Lemma get_written (o : JsObject.t) (k : JsString.t) :
  NoDup (keys o) ->
  get (written o) k =
  match get o k with
  | Some v => if nonEmpty v then Some v else None
  | None => None
  end.
Proof.
  induction o as [|[k1 v1] o IH]; simpl; [reflexivity|].
  intros Hnd. inversion Hnd as [|? ? Hk Hnd']; subst.
  destruct (eqb k1 k) eqn:E.
  - apply eqb_eq in E. subst k1. destruct (nonEmpty v1); simpl.
    + now rewrite eqb_refl.
    + rewrite IH by exact Hnd'. apply get_None in Hk. now rewrite Hk.
  - destruct (nonEmpty v1); simpl; [rewrite E|]; now apply IH.
Qed.

(** What [_writeStyleAttribute] leaves, read again; only the entries
    that are written need clean names and safe values. *)
Lemma read_written (element : Element) (o : JsObject.t) :
  Forall (fun e => cleanName (fst e) = true /\ safeValue (snd e) = true)
         (written o) ->
  _readStyleAttribute (_writeStyleAttribute element o) =
  Returns (fold_left (fun m e => set m (fst e) (trim (snd e))) (written o) empty).
Proof.
  intros Hw.
  unfold _writeStyleAttribute. rewrite writeStyleList_spec. simpl app.
  destruct (written o) as [|e entries] eqn:Hwr; [reflexivity|].
  rewrite <- Hwr in *.
  set (s := concat _).
  assert (Hs : nonEmpty s = true).
  { subst s. rewrite Hwr. destruct e as [k v]. unfold declaration. simpl.
    now destruct k. }
  rewrite Hs. unfold setAttribute_style, _readStyleAttribute, getAttribute_style.
  rewrite Hs. subst s. rewrite splitSemicolons_concat.
  - apply readStyleList_declarations.
    eapply Forall_impl; [|exact Hw]. now intros a [H _].
  - apply Forall_map. eapply Forall_impl; [|exact Hw].
    intros a [H1 H2]. now apply declaration_ok.
Qed.

Lemma read_write (element : Element) (o : JsObject.t) :
  writable o ->
  _readStyleAttribute (_writeStyleAttribute element o) =
  Returns (fold_left (fun m e => set m (fst e) (trim (snd e))) (written o) empty).
Proof.
  intros (Hnd & Hp & Hall). apply read_written.
  rewrite Forall_forall in *. intros e He. apply filter_In in He as [He _].
  now apply Hall.
Qed.

(** [valueOf] after the round trip, for distinct keys without
    [__proto__]. *)
Lemma valueOf_read_written (o : JsObject.t) (k : JsString.t) :
  NoDup (keys o) -> ~ In (lit "__proto__") (keys o) ->
  valueOf (fold_left (fun m e => set m (fst e) (trim (snd e))) (written o) empty) k =
  trim (valueOf o k).
Proof.
  intros Hnd Hp. unfold valueOf.
  rewrite get_fold_set;
    [| now apply NoDup_written | intros H; apply Hp; now apply written_sub].
  rewrite get_written by exact Hnd.
  destruct (get o k) as [v|]; [|reflexivity].
  destruct (nonEmpty v) eqn:E; [reflexivity|].
  apply nonEmpty_false in E. now subst v.
Qed.

(** [valueOf] after the round trip. *)
Lemma valueOf_read_write (o : JsObject.t) (k : JsString.t) :
  writable o ->
  valueOf (fold_left (fun m e => set m (fst e) (trim (snd e))) (written o) empty) k =
  trim (valueOf o k).
Proof. intros (Hnd & Hp & _). now apply valueOf_read_written. Qed.

Lemma valueOf_set (m : JsObject.t) (k v k0 : JsString.t) :
  valueOf (set m k v) k0 =
  if eqb k (lit "__proto__") then valueOf m k0
  else if eqb k k0 then v else valueOf m k0.
Proof.
  unfold valueOf. rewrite get_set.
  destruct (eqb k (lit "__proto__")); [reflexivity|]. now destruct (eqb k k0).
Qed.

(** A value read from the attribute has no white space at its ends. *)
Lemma valueOf_wellFormed (m : JsObject.t) (k : JsString.t) :
  wellFormed m -> trim (valueOf m k) = valueOf m k.
Proof.
  intros [_ Hall]. unfold valueOf. destruct (get m k) as [v|] eqn:E; [|reflexivity].
  apply get_In in E. rewrite Forall_forall in Hall.
  specialize (Hall _ E). simpl in Hall. now apply cleanValue_spec in Hall.
Qed.

Lemma _readStyleAttribute_inv (element : Element) (m : JsObject.t) :
  _readStyleAttribute element = Returns m -> wellFormed m.
Proof.
  unfold _readStyleAttribute, getAttribute_style.
  destruct element as [s|]; [destruct (nonEmpty s)|];
    try (intros H; injection H as <-; apply wellFormed_empty).
  apply readStyleList_wellFormed;
    [apply splitSemicolons_no_semicolon | apply wellFormed_empty].
Qed.

(** X1: [_readStyleAttribute] throws exactly when the element has a style
    attribute one of whose pieces (between runs of semicolons) is, once
    trimmed, not empty and without a colon; the error is
    ["Invalid CSS style: "] followed by such a trimmed piece.  An element
    without the attribute, or with an empty one, never makes it throw. *)
Theorem _readStyleAttribute_throws :
  forall element : Element,
  ((exists e, _readStyleAttribute element = Throws e) <->
   (exists styleAttribute, element = Some styleAttribute /\
      Exists (fun piece => trim piece <> [] /\ ~ In colon (trim piece))
             (splitSemicolons styleAttribute))) /\
  (forall e, _readStyleAttribute element = Throws e ->
     exists styleAttribute piece,
       element = Some styleAttribute /\
       In piece (splitSemicolons styleAttribute) /\
       ~ In colon (trim piece) /\
       e = Error (lit "Invalid CSS style: " ++ trim piece)).
Proof.
  intros element. unfold _readStyleAttribute, getAttribute_style. split.
  - destruct element as [s|].
    + destruct (nonEmpty s) eqn:Hs.
      * rewrite readStyleList_throws. split.
        -- intros H. now exists s.
        -- intros (s' & E & H). now injection E as <-.
      * apply nonEmpty_false in Hs. subst s. split.
        -- intros [e H]. discriminate.
        -- intros (s' & E & H). injection E as <-.
           inversion H as [? ? [H1 _]|? ? H1]; subst;
             [exfalso; now apply H1 | inversion H1].
    + split; [intros [e H]; discriminate | intros (s' & E & _); discriminate].
  - intros e. destruct element as [s|]; [|discriminate].
    destruct (nonEmpty s); [|discriminate].
    intros H. apply readStyleList_error in H as (p & Hp & Hc & He).
    now exists s, p.
Qed.

(** X2: a style map that [_readStyleAttribute] returns has distinct keys,
    never the key [__proto__]; every key is free of colons, semicolons and
    white space at its ends, and every value free of semicolons and of
    white space at its ends. *)
Theorem _readStyleAttribute_wellFormed :
  forall (element : Element) (styleMap : JsObject.t),
  _readStyleAttribute element = Returns styleMap ->
  NoDup (keys styleMap) /\
  ~ In (lit "__proto__") (keys styleMap) /\
  (forall k v, In (k, v) styleMap ->
     (trim k = k /\ ~ In colon k /\ ~ In semicolon k) /\
     (trim v = v /\ ~ In semicolon v) /\
     get styleMap k = Some v).
Proof.
  intros element m H. apply _readStyleAttribute_inv in H.
  destruct H as [(Hnd & Hp & Hall) Hval]. split; [exact Hnd|]. split; [exact Hp|].
  intros k v Hin. rewrite Forall_forall in Hall, Hval.
  destruct (Hall _ Hin) as [Hk _]. specialize (Hval _ Hin).
  split; [now apply cleanName_spec|]. split; [now apply cleanValue_spec|].
  now apply get_NoDup.
Qed.

Lemma _readStyleAttribute_wellFormed_witness :
  NoDup (keys [(lit "color", lit "red"); (lit "top", lit "0")]) /\
  ~ In (lit "__proto__") (keys [(lit "color", lit "red"); (lit "top", lit "0")]) /\
  (forall k v, In (k, v) [(lit "color", lit "red"); (lit "top", lit "0")] ->
     (trim k = k /\ ~ In colon k /\ ~ In semicolon k) /\
     (trim v = v /\ ~ In semicolon v) /\
     get [(lit "color", lit "red"); (lit "top", lit "0")] k = Some v).
Proof.
  apply (_readStyleAttribute_wellFormed
           (Some (lit " color : red ;;__proto__:x; top:0 ;"))).
  reflexivity.
Defined.

Lemma styleOf_write (element : Element) (o : JsObject.t) (name : JsString.t) :
  writable o ->
  styleOf (_writeStyleAttribute element o) name = Returns (trim (valueOf o name)).
Proof.
  intros Ho. unfold styleOf. rewrite read_write by exact Ho.
  simpl. now rewrite valueOf_read_write.
Qed.

Lemma write_all_empty (element : Element) (o : JsObject.t) :
  (forall k v, In (k, v) o -> v = []) -> _writeStyleAttribute element o = None.
Proof.
  intros Hall. unfold _writeStyleAttribute. rewrite writeStyleList_spec.
  replace (written o) with (@nil (JsString.t * JsString.t)); [reflexivity|].
  symmetry. unfold written.
  induction o as [|[k v] o IH]; [reflexivity|]. simpl.
  rewrite (Hall k v) by now left. simpl. apply IH.
  intros k' v' H. apply (Hall k'). now right.
Qed.

(** X3: writing a style map and reading the attribute again gives every
    style back with its value trimmed (a style without value, or with an
    empty one, reads as empty), whatever the attribute held before;
    and when no value is left the attribute is removed.  The map must have
    distinct clean names other than [__proto__] and values without
    semicolon. *)
Theorem read_after_write :
  forall (element : Element) (styleMap : JsObject.t),
  writable styleMap ->
  (forall name,
     styleOf (_writeStyleAttribute element styleMap) name =
     Returns (trim (valueOf styleMap name))) /\
  ((forall k v, In (k, v) styleMap -> v = []) ->
   _writeStyleAttribute element styleMap = None).
Proof.
  intros element o Ho. split.
  - intros name. now apply styleOf_write.
  - apply write_all_empty.
Qed.

Lemma read_after_write_witness :
  (forall name,
     styleOf (_writeStyleAttribute (Some (lit "x"))
                [(lit "color", lit " red "); (lit "top", lit "")]) name =
     Returns (trim (valueOf [(lit "color", lit " red "); (lit "top", lit "")] name))) /\
  ((forall k v, In (k, v) [(lit "color", lit " red "); (lit "top", lit "")] -> v = []) ->
   _writeStyleAttribute (Some (lit "x"))
     [(lit "color", lit " red "); (lit "top", lit "")] = None).
Proof.
  apply (@read_after_write (Some (lit "x"))
           [(lit "color", lit " red "); (lit "top", lit "")]).
  split; [|split].
  - repeat constructor; simpl; intuition discriminate.
  - simpl. intuition discriminate.
  - repeat constructor.
Defined.

(** *** [setStyle] and [removeStyle] *)

Section SetStyle.

Variable toLowerCase : JsString.t -> JsString.t.
Variable Important : Z.

(** [setStyle] on an attribute that reads as [m]: the attribute afterwards. *)
Lemma setStyle_returns (el : Element) (style : JsString.t)
  (value : option JsString.t) (flags : Z) (m : JsObject.t) :
  _readStyleAttribute el = Returns m ->
  setStyle toLowerCase Important el style value flags =
  Returns (_writeStyleAttribute el
             (set m (styleName toLowerCase style) (styleValue Important value flags))).
Proof. intros H. unfold setStyle. now rewrite H. Qed.

Lemma styleOf_after_set (el el0 : Element) (m : JsObject.t) (name v other : JsString.t) :
  _readStyleAttribute el = Returns m ->
  cleanName name = true -> safeValue v = true ->
  styleOf (_writeStyleAttribute el0 (set m name v)) other =
  Returns (if eqb name (lit "__proto__") then valueOf m other
           else if eqb name other then trim v else valueOf m other).
Proof.
  intros Hm Hn Hv. apply _readStyleAttribute_inv in Hm.
  assert (Hw : writable (set m name v))
    by (apply writable_set; [apply Hm | exact Hn | exact Hv]).
  rewrite (styleOf_write el0 _ Hw), valueOf_set.
  destruct (eqb name (lit "__proto__")); [now rewrite valueOf_wellFormed|].
  destruct (eqb name other); [reflexivity | now rewrite valueOf_wellFormed].
Qed.

(** The same for the empty value, whatever the name is: a name that is
    not clean is stored with the empty value, and not written. *)
Lemma styleOf_after_unset (el el0 : Element) (m : JsObject.t) (name other : JsString.t) :
  _readStyleAttribute el = Returns m ->
  styleOf (_writeStyleAttribute el0 (set m name (lit ""))) other =
  Returns (if eqb name (lit "__proto__") then valueOf m other
           else if eqb name other then lit "" else valueOf m other).
Proof.
  intros Hm. apply _readStyleAttribute_inv in Hm.
  destruct Hm as [(Hnd & Hp & Hall) Hval].
  assert (Hw : Forall (fun e => cleanName (fst e) = true /\ safeValue (snd e) = true)
                      (written (set m name (lit "")))).
  { rewrite Forall_forall in *. intros e He. apply filter_In in He as [He Hne].
    apply In_set in He as [->|He]; [discriminate Hne | now apply Hall]. }
  unfold styleOf. rewrite (read_written el0 _ Hw). cbn [bind].
  rewrite valueOf_read_written by (now apply NoDup_set || now apply set_no_proto).
  rewrite valueOf_set.
  assert (Hm' : wellFormed m) by (split; [split; [|split]|]; assumption).
  destruct (eqb name (lit "__proto__")); [now rewrite valueOf_wellFormed|].
  destruct (eqb name other); [reflexivity | now rewrite valueOf_wellFormed].
Qed.

End SetStyle.

(** X4: after [setStyle(el, style, value, flags)] on an element whose style
    attribute parses, reading the attribute gives, for the name the style
    is stored under, the stored value trimmed, and for every other name
    what it gave before.  The stored name must be clean and not
    [__proto__], and the stored value without semicolon. *)
Theorem setStyle_styleOf :
  forall (toLowerCase : JsString.t -> JsString.t) (Important : Z)
         (el : Element) (style : JsString.t) (value : option JsString.t)
         (flags : Z) (styleMap : JsObject.t),
  _readStyleAttribute el = Returns styleMap ->
  cleanName (styleName toLowerCase style) = true ->
  styleName toLowerCase style <> lit "__proto__" ->
  safeValue (styleValue Important value flags) = true ->
  exists el',
    setStyle toLowerCase Important el style value flags = Returns el' /\
    styleOf el' (styleName toLowerCase style) =
      Returns (trim (styleValue Important value flags)) /\
    (forall other, other <> styleName toLowerCase style ->
       styleOf el' other = styleOf el other).
Proof.
  intros toLowerCase Important el style value flags m Hm Hn Hp Hv.
  eexists. split; [apply setStyle_returns; exact Hm|].
  apply eqb_neq in Hp. split.
  - rewrite (@styleOf_after_set el _ m _ _ _ Hm Hn Hv), Hp. now rewrite eqb_refl.
  - intros other Ho. rewrite (@styleOf_after_set el _ m _ _ _ Hm Hn Hv), Hp.
    replace (eqb (styleName toLowerCase style) other) with false
      by (symmetry; apply eqb_neq; congruence).
    unfold styleOf. now rewrite Hm.
Qed.

Lemma setStyle_styleOf_witness :
  exists el',
    setStyle asciiToLowerCase 1 (Some (lit "color:red; top : 0")) (lit "backgroundColor")
             (Some (lit " blue ")) 1 = Returns el' /\
    styleOf el' (styleName asciiToLowerCase (lit "backgroundColor")) =
      Returns (trim (styleValue 1 (Some (lit " blue ")) 1)) /\
    (forall other, other <> styleName asciiToLowerCase (lit "backgroundColor") ->
       styleOf el' other = styleOf (Some (lit "color:red; top : 0")) other).
Proof.
  apply (@setStyle_styleOf asciiToLowerCase 1 (Some (lit "color:red; top : 0"))
           (lit "backgroundColor") (Some (lit " blue ")) 1
           [(lit "color", lit "red"); (lit "top", lit "0")]).
  - reflexivity.
  - reflexivity.
  - discriminate.
  - reflexivity.
Defined.

(** X5: [removeStyle(el, style, flags)] without the [Important] bit, on an
    element whose style attribute parses: afterwards the style reads as
    empty, every other name reads as before, and when no other style has
    a value the attribute itself is removed.  This holds for every style
    name. *)
Theorem removeStyle_styleOf :
  forall (toLowerCase : JsString.t -> JsString.t) (Important : Z)
         (el : Element) (style : JsString.t) (flags : Z) (styleMap : JsObject.t),
  _readStyleAttribute el = Returns styleMap ->
  Z.land flags Important = 0 ->
  exists el',
    removeStyle toLowerCase Important el style flags = Returns el' /\
    styleOf el' (styleName toLowerCase style) = Returns (lit "") /\
    (forall other, other <> styleName toLowerCase style ->
       styleOf el' other = styleOf el other) /\
    ((forall other, other <> styleName toLowerCase style ->
        valueOf styleMap other = []) -> el' = None).
Proof.
  intros toLowerCase Important el style flags m Hm Hf.
  set (name := styleName toLowerCase style) in *.
  assert (Hv : styleValue Important (Some (lit "")) flags = lit "")
    by (unfold styleValue; now rewrite Hf).
  eexists. split; [unfold removeStyle; apply setStyle_returns; exact Hm|].
  fold name. rewrite Hv.
  assert (Hwf : wellFormed m) by now apply _readStyleAttribute_inv in Hm.
  split; [|split].
  - rewrite (@styleOf_after_unset el _ m _ _ Hm), eqb_refl.
    destruct (eqb name (lit "__proto__")) eqn:E; [|reflexivity].
    apply eqb_eq in E. rewrite E. unfold valueOf.
    replace (get m (lit "__proto__")) with (@None JsString.t); [reflexivity|].
    symmetry. apply get_None. apply Hwf.
  - intros other Ho. rewrite (@styleOf_after_unset el _ m _ _ Hm).
    replace (eqb name other) with false by (symmetry; apply eqb_neq; congruence).
    unfold styleOf. rewrite Hm. now destruct (eqb name (lit "__proto__")).
  - intros Hall.
    assert (Hnd : NoDup (keys (set m name (lit ""))))
      by (apply NoDup_set; apply Hwf).
    apply write_all_empty.
    intros k v Hin. apply get_NoDup in Hin; [|exact Hnd].
    rewrite get_set in Hin.
    destruct (eqb name (lit "__proto__")) eqn:Ep.
    + apply eqb_eq in Ep.
      destruct (eqb name k) eqn:Ek.
      * apply eqb_eq in Ek. subst k. rewrite Ep in Hin.
        replace (get m (lit "__proto__")) with (@None JsString.t) in Hin;
          [discriminate|].
        symmetry. apply get_None. apply Hwf.
      * apply eqb_neq in Ek. specialize (Hall k ltac:(congruence)).
        unfold valueOf in Hall. rewrite Hin in Hall. exact Hall.
    + destruct (eqb name k) eqn:Ek; [now injection Hin as <-|].
      apply eqb_neq in Ek. specialize (Hall k ltac:(congruence)).
      unfold valueOf in Hall. rewrite Hin in Hall. exact Hall.
Qed.

Lemma removeStyle_styleOf_witness :
  exists el',
    removeStyle asciiToLowerCase 1 (Some (lit "color:red; top:0")) (lit "top:") 2
      = Returns el' /\
    styleOf el' (styleName asciiToLowerCase (lit "top:")) = Returns (lit "") /\
    (forall other, other <> styleName asciiToLowerCase (lit "top:") ->
       styleOf el' other = styleOf (Some (lit "color:red; top:0")) other) /\
    ((forall other, other <> styleName asciiToLowerCase (lit "top:") ->
        valueOf [(lit "color", lit "red"); (lit "top", lit "0")] other = []) ->
     el' = None).
Proof.
  apply (@removeStyle_styleOf asciiToLowerCase 1 (Some (lit "color:red; top:0"))
           (lit "top:") 2 [(lit "color", lit "red"); (lit "top", lit "0")]);
    reflexivity.
Defined.

(** X6: on an element whose style attribute parses, and for a style whose
    stored name is clean (no white space at its ends, no colon, no
    semicolon) and is not [__proto__]: with the [Important] bit set,
    [removeStyle] does not remove the style.  The value it stores is
    [' !important'], so the attribute is kept and the style reads as
    ["!important"] afterwards. *)
Theorem removeStyle_important :
  forall (toLowerCase : JsString.t -> JsString.t) (Important : Z)
         (el : Element) (style : JsString.t) (flags : Z) (styleMap : JsObject.t),
  _readStyleAttribute el = Returns styleMap ->
  cleanName (styleName toLowerCase style) = true ->
  styleName toLowerCase style <> lit "__proto__" ->
  Z.land flags Important <> 0 ->
  exists el',
    removeStyle toLowerCase Important el style flags = Returns el' /\
    el' <> None /\
    styleOf el' (styleName toLowerCase style) = Returns (lit "!important").
Proof.
  intros toLowerCase Important el style flags m Hm Hn Hp Hf.
  assert (Hv : styleValue Important (Some (lit "")) flags = lit " !important").
  { unfold styleValue. apply Z.eqb_neq in Hf. now rewrite Hf. }
  assert (Hs : safeValue (lit " !important") = true) by reflexivity.
  eexists. split; [unfold removeStyle; apply setStyle_returns; exact Hm|].
  rewrite Hv. split.
  - intros E.
    pose proof (@styleOf_after_set el el m _ _ (styleName toLowerCase style)
                  Hm Hn Hs) as H.
    rewrite E in H. apply eqb_neq in Hp. rewrite Hp, eqb_refl in H.
    discriminate H.
  - rewrite (@styleOf_after_set el _ m _ _ _ Hm Hn Hs).
    apply eqb_neq in Hp. now rewrite Hp, eqb_refl.
Qed.

Lemma removeStyle_important_witness :
  exists el',
    removeStyle asciiToLowerCase 1 (Some (lit "color:red")) (lit "color") 1 = Returns el' /\
    el' <> None /\
    styleOf el' (styleName asciiToLowerCase (lit "color")) = Returns (lit "!important").
Proof.
  apply (@removeStyle_important asciiToLowerCase 1 (Some (lit "color:red"))
           (lit "color") 1 [(lit "color", lit "red")]);
    (reflexivity || discriminate).
Defined.

(** *** The style name *)

Lemma isUpper_not_lower (c : Z) : isUpper c = true -> isLower c = false.
Proof.
  unfold isUpper, isLower. change (chr "A") with 65. change (chr "Z") with 90.
  change (chr "a") with 97. change (chr "z") with 122.
  rewrite andb_true_iff, !Z.leb_le. intros H.
  apply andb_false_iff. left. apply Z.leb_gt. lia.
Qed.

Lemma camelToDash_head (a : Z) (s : JsString.t) :
  exists t, camelToDash (a :: s) = a :: t.
Proof.
  destruct s as [|b s]; simpl; [now exists []|].
  destruct (isLower a && isUpper b); eexists; reflexivity.
Qed.

Lemma hasCamelPair_cons (a : Z) (s : JsString.t) :
  hasCamelPair (a :: s) =
  match s with
  | [] => false
  | b :: _ => (isLower a && isUpper b) || hasCamelPair s
  end.
Proof. destruct s; reflexivity. Qed.

Lemma camelToDash_cons (a b : Z) (s : JsString.t) :
  camelToDash (a :: b :: s) =
  if isLower a && isUpper b then a :: dash :: b :: camelToDash s
  else a :: camelToDash (b :: s).
Proof. reflexivity. Qed.

Lemma camelToDash_no_pair (s : JsString.t) :
  hasCamelPair (camelToDash s) = false /\
  forall a, hasCamelPair (camelToDash (a :: s)) = false.
Proof.
  induction s as [|b s [IH1 IH2]]; [split; reflexivity|].
  split; [apply IH2|]. intros a. rewrite camelToDash_cons.
  destruct (isLower a && isUpper b) eqn:E.
  - apply andb_true_iff in E as [_ Hb].
    change (hasCamelPair (a :: dash :: b :: camelToDash s))
      with ((isLower a && isUpper dash)
            || ((isLower dash && isUpper b) || hasCamelPair (b :: camelToDash s))).
    replace (isUpper dash) with false by reflexivity.
    replace (isLower dash) with false by reflexivity.
    rewrite andb_false_r, andb_false_l, !orb_false_l.
    rewrite hasCamelPair_cons, (isUpper_not_lower _ Hb), IH1.
    now destruct (camelToDash s).
  - specialize (IH2 b).
    destruct (camelToDash_head b s) as [t Ht]. rewrite Ht in *.
    change (hasCamelPair (a :: b :: t))
      with ((isLower a && isUpper b) || hasCamelPair (b :: t)).
    now rewrite E, IH2.
Qed.

Lemma camelToDash_fixed (s : JsString.t) :
  (hasCamelPair s = false -> camelToDash s = s) /\
  forall a, hasCamelPair (a :: s) = false -> camelToDash (a :: s) = a :: s.
Proof.
  induction s as [|b s [IH1 IH2]]; [split; reflexivity|].
  split; [apply IH2|]. intros a H. rewrite hasCamelPair_cons in H.
  apply orb_false_iff in H as [H1 H2].
  rewrite camelToDash_cons, H1. f_equal. now apply IH2.
Qed.

(** X7: the dash-casing of a style name is idempotent.  Its result never
    holds a lowercase letter directly followed by an uppercase one, a
    name without such a pair (so any name without ASCII capitals) is left
    as it is, and dash-casing twice is dash-casing once. *)
Theorem camelToDash_idempotent :
  forall s : JsString.t,
  hasCamelPair (camelToDash s) = false /\
  (hasCamelPair s = false -> camelToDash s = s) /\
  (forallb (fun c => negb (isUpper c)) s = true -> camelToDash s = s) /\
  camelToDash (camelToDash s) = camelToDash s.
Proof.
  intros s. split; [apply camelToDash_no_pair|].
  split; [apply camelToDash_fixed|]. split.
  - intros H. apply camelToDash_fixed.
    induction s as [|a s IH]; [reflexivity|].
    simpl in H. apply andb_true_iff in H as [_ H].
    rewrite hasCamelPair_cons. destruct s as [|b s']; [reflexivity|].
    rewrite IH by exact H. simpl in H. apply andb_true_iff in H as [Hb _].
    apply negb_true_iff in Hb. rewrite Hb. now rewrite andb_false_r.
  - apply camelToDash_fixed, camelToDash_no_pair.
Qed.

Lemma camelToDash_idempotent_witness :
  camelToDash (lit "background-color") = lit "background-color".
Proof.
  apply (proj1 (proj2 (proj2 (camelToDash_idempotent (lit "background-color"))))).
  reflexivity.
Defined.

End ServerRendererStylesFacts.

(** ** The renderer factory *)

Module ServerRendererFactoryFacts.

Import JsString JsText JsTextFacts Exn ServerRendererFactory.

Section Factory.

Variable Styles : Type.
Variable shimStylesContent : JsString.t -> Styles -> Styles.
Variable shimContentAttribute : JsString.t -> JsString.t.
Variable shimHostAttribute : JsString.t -> JsString.t.

Local Notation "'Factory'" := (ServerRendererFactory.Factory Styles).
Local Notation "'RendererType2'" := (ServerRendererFactory.RendererType2 Styles).
Local Notation "'Renderer'" := (ServerRendererFactory.Renderer Styles).
Local Notation "'createRenderer'" :=
  (ServerRendererFactory.createRenderer
     shimStylesContent shimContentAttribute shimHostAttribute).
Local Notation "'createRenderers'" :=
  (ServerRendererFactory.createRenderers
     shimStylesContent shimContentAttribute shimHostAttribute).

Lemma mapGet_None (m : list (JsString.t * Renderer)) (k : JsString.t) :
  mapGet m k = None <-> ~ In k (List.map fst m).
Proof.
  induction m as [|[k' r] m IH]; simpl; [tauto|].
  destruct (eqb k' k) eqn:E.
  - apply eqb_eq in E. split; [discriminate | intros H; exfalso; auto].
  - apply eqb_neq in E. rewrite IH. tauto.
Qed.

Lemma mapGet_In (m : list (JsString.t * Renderer)) (k : JsString.t) :
  mapGet m k <> None -> In k (List.map fst m).
Proof.
  induction m as [|[k' r] m IH]; simpl; [congruence|].
  destruct (eqb k' k) eqn:E; [apply eqb_eq in E; now left | right; now apply IH].
Qed.

Lemma mapSet_new (m : list (JsString.t * Renderer)) (k : JsString.t) (r : Renderer) :
  mapGet m k = None -> mapSet m k r = (m ++ [(k, r)])%list.
Proof.
  induction m as [|[k' r'] m IH]; simpl; [reflexivity|].
  destruct (eqb k' k); [discriminate|]. intros H. now rewrite IH.
Qed.

Lemma mapGet_app (m : list (JsString.t * Renderer)) (k k0 : JsString.t) (r : Renderer) :
  mapGet (m ++ [(k, r)]) k0 =
  match mapGet m k0 with
  | Some r0 => Some r0
  | None => if eqb k k0 then Some r else None
  end.
Proof.
  induction m as [|[k' r'] m IH]; simpl; [reflexivity|].
  destruct (eqb k' k0); [reflexivity | exact IH].
Qed.

Lemma invariant_new (a : JsString.t) : invariant (@newFactory Styles a).
Proof. split; [reflexivity | constructor]. Qed.

(** One call: what it returns and what it does to the factory. *)
Lemma createRenderer_cases (f : Factory) (element : ElementRef) (type : RendererType2) :
  match encapsulation type, mapGet (rendererByCompId f) (id type) with
  | Emulated, Some DefaultRenderer =>
      createRenderer f (Some element) (Some type) = Throws TypeError
  | Emulated, Some (Emulated2 n r) =>
      createRenderer f (Some element) (Some type) =
      Returns (Emulated2 n r,
               mkFactory (rendererByCompId f) (appId f) (created f)
                         (addStylesCalls f)
                         (hostAttributes f ++ [(element, hostAttr r)]))
  | Emulated, None =>
      let shortId := appId f ++ lit "-" ++ id type in
      let r := mkEmulated type (shimContentAttribute shortId)
                          (shimHostAttribute shortId) in
      let renderer := Emulated2 (List.length (created f)) r in
      createRenderer f (Some element) (Some type) =
      Returns (renderer,
               mkFactory (rendererByCompId f ++ [(id type, renderer)]) (appId f)
                 (created f ++ [r])
                 (addStylesCalls f ++
                  [mkAddStyles (id type) (shimStylesContent shortId (styles type))])
                 (hostAttributes f ++ [(element, hostAttr r)]))
  | _, Some _ =>
      createRenderer f (Some element) (Some type) = Returns (DefaultRenderer, f)
  | _, None =>
      createRenderer f (Some element) (Some type) =
      Returns (DefaultRenderer,
               mkFactory (rendererByCompId f ++ [(id type, DefaultRenderer)])
                 (appId f) (created f)
                 (addStylesCalls f ++
                  [mkAddStyles (id type) (shimStylesContent (id type) (styles type))])
                 (hostAttributes f))
  end.
Proof.
  unfold ServerRendererFactory.createRenderer, mapHas.
  destruct (encapsulation type);
    destruct (mapGet (rendererByCompId f) (id type)) as [[|n r]|] eqn:E;
    simpl; rewrite ?mapSet_new by exact E; reflexivity.
Qed.

(** Registering a new id, with its styles. *)
Lemma invariant_register (f : Factory) (k : JsString.t) (r : Renderer)
  (c : list (EmulatedRenderer Styles)) (s : Styles)
  (h : list (ElementRef * JsString.t)) :
  mapGet (rendererByCompId f) k = None -> invariant f ->
  invariant (mkFactory (rendererByCompId f ++ [(k, r)]) (appId f) c
                       (addStylesCalls f ++ [mkAddStyles k s]) h).
Proof.
  intros E [H1 H2]. unfold invariant, styledIds in *. simpl.
  rewrite !map_app, H1. simpl. split; [reflexivity|].
  apply mapGet_None in E.
  apply NoDup_app; [exact H2 | constructor; [intros []|constructor] |].
  intros x Hx [<-|[]]. contradiction.
Qed.

Lemma mapGet_register (m : list (JsString.t * Renderer)) (k k0 : JsString.t)
  (r r0 : Renderer) :
  mapGet m k0 = Some r0 -> mapGet (m ++ [(k, r)]) k0 = Some r0.
Proof. intros H. now rewrite mapGet_app, H. Qed.

Lemma mapGet_registered (m : list (JsString.t * Renderer)) (k : JsString.t)
  (r : Renderer) :
  mapGet m k = None -> mapGet (m ++ [(k, r)]) k = Some r.
Proof. intros H. now rewrite mapGet_app, H, eqb_refl. Qed.

(** What one call that returns does to the map: a new key is the id of
    the call's type, and no key changes its renderer. *)
Lemma createRenderer_step (f f' : Factory) (element : option ElementRef)
  (type : option RendererType2) (r : Renderer) :
  createRenderer f element type = Returns (r, f') ->
  (invariant f -> invariant f') /\
  (forall k r0, mapGet (rendererByCompId f) k = Some r0 ->
                mapGet (rendererByCompId f') k = Some r0) /\
  (forall e t, element = Some e -> type = Some t ->
               mapGet (rendererByCompId f') (id t) = Some r \/
               (encapsulation t <> Emulated /\ r = DefaultRenderer /\
                mapGet (rendererByCompId f') (id t) <> None)).
Proof.
  destruct element as [element|], type as [type|];
    try (intros H; injection H as <- <-;
         split; [auto|]; split; [auto|]; intros e t H1 H2; discriminate).
  pose proof (createRenderer_cases f element type) as Hc.
  destruct (encapsulation type) eqn:Enc;
    destruct (mapGet (rendererByCompId f) (id type)) as [[|n er]|] eqn:E;
    cbv zeta in Hc; rewrite Hc; try discriminate;
    intros H; injection H as <- <-; cbn [rendererByCompId].
  - (* emulated, cached *)
    split; [intros [H1 H2]; split; assumption|]. split; [auto|].
    intros e t _ Ht. injection Ht as <-. now left.
  - (* emulated, new *)
    split; [now apply invariant_register|].
    split; [intros k r0; apply mapGet_register|].
    intros e t _ Ht. injection Ht as <-. left. now apply mapGet_registered.
  - split; [auto|]. split; [auto|]. intros e t _ Ht. injection Ht as <-.
    right. rewrite Enc, E. repeat split; discriminate.
  - split; [auto|]. split; [auto|]. intros e t _ Ht. injection Ht as <-.
    right. rewrite Enc, E. repeat split; discriminate.
  - split; [now apply invariant_register|].
    split; [intros k r0; apply mapGet_register|].
    intros e t _ Ht. injection Ht as <-. left. now apply mapGet_registered.
  - split; [auto|]. split; [auto|]. intros e t _ Ht. injection Ht as <-.
    right. rewrite Enc, E. repeat split; discriminate.
  - split; [auto|]. split; [auto|]. intros e t _ Ht. injection Ht as <-.
    right. rewrite Enc, E. repeat split; discriminate.
  - split; [now apply invariant_register|].
    split; [intros k r0; apply mapGet_register|].
    intros e t _ Ht. injection Ht as <-. left. now apply mapGet_registered.
Qed.

Lemma createRenderers_steps
  (calls : list (option ElementRef * option RendererType2)) :
  forall f f' : Factory,
  createRenderers f calls = Returns f' ->
  (invariant f -> invariant f') /\
  (forall k r0, mapGet (rendererByCompId f) k = Some r0 ->
                mapGet (rendererByCompId f') k = Some r0) /\
  (forall e t, In (Some e, Some t) calls ->
               mapGet (rendererByCompId f') (id t) <> None).
Proof.
  induction calls as [|[element type] calls IH]; intros f f'.
  - simpl. intros H. injection H as <-.
    split; [auto|]. split; [auto|]. intros e t [].
  - cbn [ServerRendererFactory.createRenderers].
    destruct (createRenderer f element type) as [[r f1]|e] eqn:E; [|discriminate].
    cbn [bind snd]. intros H.
    destruct (@createRenderer_step _ _ _ _ _ E) as (S1 & S2 & S3).
    destruct (IH _ _ H) as (I1 & I2 & I3).
    split; [auto|]. split; [auto|].
    intros e t [Hin|Hin]; [|exact (I3 _ _ Hin)].
    injection Hin as -> ->.
    assert (S3' : mapGet (rendererByCompId f1) (id t) <> None).
    { destruct (S3 e t eq_refl eq_refl) as [S|(_ & _ & S)];
        [rewrite S; discriminate | exact S]. }
    destruct (mapGet (rendererByCompId f1) (id t)) as [r1|] eqn:E1;
      [|contradiction].
    now rewrite (I2 _ _ E1).
Qed.

(** After a call for an emulated type, that type's id is bound to the
    emulated renderer the call returned. *)
Lemma emulated_registered (f f1 : Factory) (el : ElementRef) (ty : RendererType2)
  (r : Renderer) :
  encapsulation ty = Emulated ->
  createRenderer f (Some el) (Some ty) = Returns (r, f1) ->
  (exists n er, r = Emulated2 n er) /\
  mapGet (rendererByCompId f1) (id ty) = Some r.
Proof.
  intros Enc. pose proof (createRenderer_cases f el ty) as Hc. rewrite Enc in Hc.
  destruct (mapGet (rendererByCompId f) (id ty)) as [[|n er]|] eqn:E;
    cbv zeta in Hc; rewrite Hc; try discriminate;
    intros H; injection H as <- <-; cbn [rendererByCompId].
  - split; [eauto | exact E].
  - split; [eauto | now apply mapGet_registered].
Qed.

(** After the first call for an id, made for a type that is not emulated,
    the id is bound to the default renderer. *)
Lemma default_registered (f f1 : Factory) (el : ElementRef) (ty : RendererType2)
  (r : Renderer) :
  encapsulation ty <> Emulated ->
  mapGet (rendererByCompId f) (id ty) = None ->
  createRenderer f (Some el) (Some ty) = Returns (r, f1) ->
  mapGet (rendererByCompId f1) (id ty) = Some DefaultRenderer.
Proof.
  intros Enc E. pose proof (createRenderer_cases f el ty) as Hc. rewrite E in Hc.
  destruct (encapsulation ty); [contradiction| |];
    rewrite Hc; intros H; injection H as <- <-; cbn [rendererByCompId];
    now apply mapGet_registered.
Qed.

End Factory.

(** X8: over any run of [createRenderer] calls on a new factory (none of
    which throws), the styles of a component type are added to the shared
    styles host exactly once: the ids for which styles were added are the
    keys of [rendererByCompId], without repetition, and the type of every
    call made with an element is among them. *)
Theorem styles_added_once :
  forall (Styles : Type) (shimStylesContent : JsString.t -> Styles -> Styles)
         (shimContentAttribute shimHostAttribute : JsString.t -> JsString.t)
         (appId : JsString.t)
         (calls : list (option ElementRef * option (RendererType2 Styles)))
         (f : Factory Styles),
  createRenderers shimStylesContent shimContentAttribute shimHostAttribute
    (newFactory appId) calls = Returns f ->
  NoDup (List.map (@forComponent Styles) (addStylesCalls f)) /\
  List.map (@forComponent Styles) (addStylesCalls f) =
    List.map fst (rendererByCompId f) /\
  (forall element type, In (Some element, Some type) calls ->
     In (id type) (List.map (@forComponent Styles) (addStylesCalls f))).
Proof.
  intros Styles s1 s2 s3 a calls f H.
  destruct (@createRenderers_steps _ s1 s2 s3 _ _ _ H) as (I1 & _ & I3).
  destruct (I1 (invariant_new Styles a)) as [H1 H2]. unfold styledIds in H1.
  split; [now rewrite H1|]. split; [exact H1|].
  intros element type Hin. rewrite H1.
  apply mapGet_In. exact (I3 _ _ Hin).
Qed.

Lemma styles_added_once_witness :
  let ty := mkType (lit "c1") Emulated 7 in
  let calls := [(Some 0, Some ty); (None, Some ty); (Some 1, Some ty);
                (Some 2, Some (mkType (lit "c2") ShadowDom 8))] in
  let f :=
    {| rendererByCompId :=
         [(lit "c1", Emulated2 0 (mkEmulated ty (lit "app-c1") (lit "app-c1")));
          (lit "c2", DefaultRenderer)];
       appId := lit "app";
       created := [mkEmulated ty (lit "app-c1") (lit "app-c1")];
       addStylesCalls := [mkAddStyles (lit "c1") 7; mkAddStyles (lit "c2") 8];
       hostAttributes := [(0, lit "app-c1"); (1, lit "app-c1")] |} in
  NoDup (List.map (@forComponent nat) (addStylesCalls f)) /\
  List.map (@forComponent nat) (addStylesCalls f) =
    List.map fst (rendererByCompId f) /\
  (forall element type, In (Some element, Some type) calls ->
     In (id type) (List.map (@forComponent nat) (addStylesCalls f))).
Proof.
  apply (@styles_added_once nat (fun _ s => s) (fun s => s) (fun s => s) (lit "app")).
  reflexivity.
Defined.

(** X9: the emulated renderer of a component type is created once.  When
    [createRenderer] has returned a renderer for an emulated type, every
    later call for an emulated type with the same id, whatever calls were
    made in between, returns that same renderer, adds no styles and
    creates nothing: it only sets the renderer's host attribute on the
    new element. *)
Theorem emulated_renderer_cached :
  forall (Styles : Type) (shimStylesContent : JsString.t -> Styles -> Styles)
         (shimContentAttribute shimHostAttribute : JsString.t -> JsString.t)
         (f f1 f2 : Factory Styles) (el el2 : ElementRef)
         (ty ty2 : RendererType2 Styles) (r : Renderer Styles)
         (calls : list (option ElementRef * option (RendererType2 Styles))),
  encapsulation ty = Emulated ->
  createRenderer shimStylesContent shimContentAttribute shimHostAttribute
    f (Some el) (Some ty) = Returns (r, f1) ->
  createRenderers shimStylesContent shimContentAttribute shimHostAttribute
    f1 calls = Returns f2 ->
  id ty2 = id ty -> encapsulation ty2 = Emulated ->
  exists n er,
    r = Emulated2 n er /\
    createRenderer shimStylesContent shimContentAttribute shimHostAttribute
      f2 (Some el2) (Some ty2) =
    Returns (r, mkFactory (rendererByCompId f2) (appId f2) (created f2)
                          (addStylesCalls f2)
                          (hostAttributes f2 ++ [(el2, hostAttr er)])).
Proof.
  intros Styles s1 s2 s3 f f1 f2 el el2 ty ty2 r calls Enc H1 H2 Hid Enc2.
  destruct (@emulated_registered _ s1 s2 s3 _ _ _ _ _ Enc H1) as [(n & er & ->) Hg].
  destruct (@createRenderers_steps _ s1 s2 s3 _ _ _ H2) as (_ & I2 & _).
  apply I2 in Hg. exists n, er. split; [reflexivity|].
  pose proof (createRenderer_cases s1 s2 s3 f2 el2 ty2) as Hc.
  now rewrite Enc2, Hid, Hg in Hc.
Qed.

Lemma emulated_renderer_cached_witness :
  let ty := mkType (lit "c1") Emulated 7 in
  let er := mkEmulated ty (lit "app-c1") (lit "host-app-c1") in
  let f2 :=
    {| rendererByCompId := [(lit "c1", Emulated2 0 er); (lit "c2", DefaultRenderer)];
       appId := lit "app";
       created := [er];
       addStylesCalls := [mkAddStyles (lit "c1") 7; mkAddStyles (lit "c2") 8];
       hostAttributes := [(0, lit "host-app-c1")] |} in
  exists n er',
    Emulated2 0 er = Emulated2 n er' /\
    createRenderer (fun _ (s : nat) => s) (fun s => s) (fun s => lit "host-" ++ s)
      f2 (Some 5) (Some (mkType (lit "c1") Emulated 9)) =
    Returns (Emulated2 0 er,
             mkFactory (rendererByCompId f2) (appId f2) (created f2)
                       (addStylesCalls f2)
                       (hostAttributes f2 ++ [(5, hostAttr er')])).
Proof.
  intros ty er f2.
  eapply (@emulated_renderer_cached nat (fun _ s => s) (fun s => s)
            (fun s => lit "host-" ++ s)
            (newFactory (lit "app")) _ f2 0 5 ty
            (mkType (lit "c1") Emulated 9) (Emulated2 0 er)
            [(Some 1, Some (mkType (lit "c2") NoEncapsulation 8))]);
    reflexivity.
Defined.

(** X10: an id first registered by a call for a type that is not emulated
    is bound to the default renderer, which has no [applyToHost]: every
    later call for an emulated type with that id throws a [TypeError]. *)
Theorem mixed_encapsulation_throws :
  forall (Styles : Type) (shimStylesContent : JsString.t -> Styles -> Styles)
         (shimContentAttribute shimHostAttribute : JsString.t -> JsString.t)
         (f f1 f2 : Factory Styles) (el el2 : ElementRef)
         (ty ty2 : RendererType2 Styles) (r : Renderer Styles)
         (calls : list (option ElementRef * option (RendererType2 Styles))),
  encapsulation ty <> Emulated ->
  mapGet (rendererByCompId f) (id ty) = None ->
  createRenderer shimStylesContent shimContentAttribute shimHostAttribute
    f (Some el) (Some ty) = Returns (r, f1) ->
  createRenderers shimStylesContent shimContentAttribute shimHostAttribute
    f1 calls = Returns f2 ->
  id ty2 = id ty -> encapsulation ty2 = Emulated ->
  createRenderer shimStylesContent shimContentAttribute shimHostAttribute
    f2 (Some el2) (Some ty2) = Throws TypeError.
Proof.
  intros Styles s1 s2 s3 f f1 f2 el el2 ty ty2 r calls Enc E H1 H2 Hid Enc2.
  pose proof (@default_registered _ s1 s2 s3 _ _ _ _ _ Enc E H1) as Hg.
  destruct (@createRenderers_steps _ s1 s2 s3 _ _ _ H2) as (_ & I2 & _).
  apply I2 in Hg.
  pose proof (createRenderer_cases s1 s2 s3 f2 el2 ty2) as Hc.
  now rewrite Enc2, Hid, Hg in Hc.
Qed.

Lemma mixed_encapsulation_throws_witness :
  createRenderer (fun _ (s : nat) => s) (fun s => s) (fun s => s)
    {| rendererByCompId := [(lit "c1", DefaultRenderer)];
       appId := lit "app"; created := [];
       addStylesCalls := [mkAddStyles (lit "c1") 7];
       hostAttributes := [] |}
    (Some 1) (Some (mkType (lit "c1") Emulated 7)) = Throws TypeError.
Proof.
  eapply (@mixed_encapsulation_throws nat (fun _ s => s) (fun s => s) (fun s => s)
            (newFactory (lit "app")) _ _ 0 1
            (mkType (lit "c1") NoEncapsulation 7) (mkType (lit "c1") Emulated 7)
            DefaultRenderer []);
    (reflexivity || discriminate).
Defined.

End ServerRendererFactoryFacts.

(** ** [_render] and [appendServerContextInfo] *)

Module PlatformServerRenderFacts.

Import JsString PlatformServerUtils PlatformServerRender.

Local Open Scope Z_scope.

Lemma firstStable_fulfilled (source : Observable) :
  In true (emitted source) -> firstStable source = Fulfilled true.
Proof.
  intros H. unfold firstStable.
  replace (existsb (fun isStable => isStable) (emitted source)) with true; [reflexivity|].
  symmetry. apply existsb_exists. now exists true.
Qed.

Lemma firstStable_inv (source : Observable) (b : bool) :
  firstStable source = Fulfilled b -> In true (emitted source).
Proof.
  unfold firstStable.
  destruct (existsb (fun isStable => isStable) (emitted source)) eqn:E.
  - intros _. apply existsb_exists in E. destruct E as ([|] & Hin & Hb);
      [exact Hin | discriminate].
  - destruct (ending source); discriminate.
Qed.

Lemma runCallbacks_cons (i : nat) (callback : Callback) (rest : list Callback) :
  runCallbacks i (callback :: rest) =
  match callback with
  | ReturnsValue =>
      (Call i :: fst (runCallbacks (S i) rest), snd (runCallbacks (S i) rest))
  | ReturnsPromise p =>
      (Call i :: fst (runCallbacks (S i) rest), p :: snd (runCallbacks (S i) rest))
  | Raises e =>
      (Call i :: Warn e :: fst (runCallbacks (S i) rest), snd (runCallbacks (S i) rest))
  end.
Proof.
  cbn [runCallbacks]. destruct (runCallbacks (S i) rest) as [effects asyncPromises].
  now destruct callback.
Qed.

Lemma awaitAll_cons (p : PromiseState unit) (rest : list (PromiseState unit)) :
  awaitAll (p :: rest) =
  match p with
  | Fulfilled _ => awaitAll rest
  | Rejected e => (Warn e :: fst (awaitAll rest), snd (awaitAll rest))
  | Pending => (fst (awaitAll rest), false)
  end.
Proof.
  cbn [awaitAll]. destruct (awaitAll rest) as [warnings settled].
  now destruct p.
Qed.

Lemma appendServerContextInfo_quiet (serverContext : JsString.t)
  (cs : list ComponentRef) :
  Forall quiet (appendServerContextInfo serverContext cs).
Proof.
  unfold appendServerContextInfo.
  induction cs as [|c cs IH]; cbn [flat_map]; [constructor|].
  destruct (nativeElement c); cbn [app]; [constructor|]; auto.
  split; discriminate.
Qed.

Lemma runCallbacks_quiet (callbacks : list Callback) (i : nat) :
  Forall quiet (fst (runCallbacks i callbacks)).
Proof.
  revert i. induction callbacks as [|c rest IH]; intros i; [constructor|].
  rewrite runCallbacks_cons.
  destruct c; cbn [fst]; repeat (constructor; [split; discriminate|]); apply IH.
Qed.

Lemma awaitAll_quiet (ps : list (PromiseState unit)) :
  Forall quiet (fst (awaitAll ps)).
Proof.
  induction ps as [|p rest IH]; [constructor|].
  rewrite awaitAll_cons. destruct p; cbn [fst]; auto.
  constructor; [split; discriminate | exact IH].
Qed.

Lemma doneOf_quiet (app : Bootstrapped) : Forall quiet (doneOf app).
Proof.
  unfold doneOf. repeat (apply Forall_app; split).
  - apply appendServerContextInfo_quiet.
  - destruct (IS_HYDRATION_FEATURE_ENABLED app); repeat constructor; discriminate.
  - apply runCallbacks_quiet.
  - apply awaitAll_quiet.
Qed.

Lemma quiet_not_in (done : list Effect) :
  Forall quiet done -> ~ In RenderToString done /\ ~ In Destroy done.
Proof.
  intros H. rewrite Forall_forall in H.
  split; intros Hin; apply H in Hin; destruct Hin as [H1 H2]; congruence.
Qed.

(** [_render] once the application is bootstrapped with an id and stable. *)
Lemma _render_stable (renderToString : list Effect -> JsString.t)
  (app : Bootstrapped) :
  truthy (APP_ID app) = true ->
  In true (emitted (isStable app)) ->
  _render renderToString (Fulfilled app) =
  if snd (awaitAll (snd (runCallbacks 0 (callbacksOf app))))
  then complete renderToString (doneOf app)
  else (doneOf app, Pending).
Proof.
  intros Hid Hst. unfold _render, doneOf, callbacksOf, serverContextOf.
  rewrite Hid, (firstStable_fulfilled _ Hst). cbn [negb].
  destruct (BEFORE_APP_SERIALIZED app) as [callbacks|].
  - destruct (runCallbacks 0 callbacks) as [called [|p ps]] eqn:E; cbn [fst snd].
    + cbn [awaitAll fst snd]. now rewrite app_nil_r.
    + destruct (awaitAll (p :: ps)) as [warnings settled]; cbn [fst snd].
      now rewrite <- !app_assoc.
  - cbn [runCallbacks awaitAll fst snd]. now rewrite !app_nil_r.
Qed.

(** Without an id, or before the application is stable, nothing is done. *)
Lemma _render_unstable (renderToString : list Effect -> JsString.t)
  (bootstrapPromise : PromiseState Bootstrapped) :
  (forall app, bootstrapPromise = Fulfilled app ->
     truthy (APP_ID app) = true -> ~ In true (emitted (isStable app))) ->
  fst (_render renderToString bootstrapPromise) = [] /\
  forall output, snd (_render renderToString bootstrapPromise) <> Fulfilled output.
Proof.
  intros H. destruct bootstrapPromise as [app| |]; cbn [_render];
    try (split; [reflexivity | discriminate]).
  destruct (truthy (APP_ID app)) eqn:Hid; cbn [negb];
    [|split; [reflexivity | discriminate]].
  specialize (H app eq_refl Hid).
  destruct (firstStable (isStable app)) eqn:Hst;
    try (split; [reflexivity | discriminate]).
  apply firstStable_inv in Hst. contradiction.
Qed.

Lemma attributesSet_app (t1 t2 : list Effect) :
  attributesSet (t1 ++ t2) = (attributesSet t1 ++ attributesSet t2)%list.
Proof. apply flat_map_app. Qed.

Lemma callsOf_app (t1 t2 : list Effect) :
  callsOf (t1 ++ t2) = (callsOf t1 ++ callsOf t2)%list.
Proof. apply flat_map_app. Qed.

Lemma warningsOf_app (t1 t2 : list Effect) :
  warningsOf (t1 ++ t2) = (warningsOf t1 ++ warningsOf t2)%list.
Proof. apply flat_map_app. Qed.

Lemma appendServerContextInfo_observed (serverContext : JsString.t)
  (cs : list ComponentRef) :
  attributesSet (appendServerContextInfo serverContext cs) =
    flat_map (fun c => match nativeElement c with
                       | Some element =>
                           [(renderer c, element, lit "ng-server-context", serverContext)]
                       | None => []
                       end) cs /\
  callsOf (appendServerContextInfo serverContext cs) = [] /\
  warningsOf (appendServerContextInfo serverContext cs) = [].
Proof.
  unfold appendServerContextInfo.
  induction cs as [|c cs (IH1 & IH2 & IH3)]; [now cbn|].
  cbn [flat_map]. rewrite attributesSet_app, callsOf_app, warningsOf_app, IH1, IH2, IH3.
  now destruct (nativeElement c).
Qed.

Lemma runCallbacks_observed (callbacks : list Callback) (i : nat) :
  attributesSet (fst (runCallbacks i callbacks)) = [] /\
  callsOf (fst (runCallbacks i callbacks)) = seq i (List.length callbacks).
Proof.
  revert i. induction callbacks as [|c rest IH]; intros i; [now cbn|].
  rewrite runCallbacks_cons. destruct (IH (S i)) as [IH1 IH2].
  destruct c; cbn [fst attributesSet callsOf flat_map app List.length seq];
    fold (attributesSet (fst (runCallbacks (S i) rest)));
    fold (callsOf (fst (runCallbacks (S i) rest)));
    now rewrite IH1, IH2.
Qed.

Lemma awaitAll_observed (ps : list (PromiseState unit)) :
  attributesSet (fst (awaitAll ps)) = [] /\ callsOf (fst (awaitAll ps)) = [].
Proof.
  induction ps as [|p rest [IH1 IH2]]; [now cbn|].
  rewrite awaitAll_cons. destruct p; cbn [fst]; auto.
Qed.

(** One warning for each callback that fails. *)
Lemma warnings_counted (callbacks : list Callback) (i : nat) :
  (List.length (warningsOf (fst (runCallbacks i callbacks))) +
   List.length (warningsOf (fst (awaitAll (snd (runCallbacks i callbacks))))))%nat =
  List.length (filter fails callbacks).
Proof.
  revert i. induction callbacks as [|c rest IH]; intros i; [now cbn|].
  rewrite runCallbacks_cons. specialize (IH (S i)).
  destruct c as [|[u|e|]|e]; cbn [fst snd filter fails]; try rewrite awaitAll_cons;
    cbn [fst snd warningsOf flat_map app List.length];
    fold (warningsOf (fst (runCallbacks (S i) rest)));
    fold (warningsOf (fst (awaitAll (snd (runCallbacks (S i) rest))))); lia.
Qed.

(** The promises awaited all settle unless a callback returned one that
    never does. *)
Lemma awaitAll_settled (callbacks : list Callback) (i : nat) :
  snd (awaitAll (snd (runCallbacks i callbacks))) = true <->
  ~ In (ReturnsPromise Pending) callbacks.
Proof.
  revert i. induction callbacks as [|c rest IH]; intros i; [cbn; tauto|].
  rewrite runCallbacks_cons. specialize (IH (S i)).
  destruct c as [|[u|e|]|e]; cbn [fst snd In]; try rewrite awaitAll_cons; cbn [fst snd];
    try (rewrite IH; intuition discriminate).
  split; [discriminate | intros H; exfalso; apply H; now left].
Qed.

(** X11: [_render] destroys the platform exactly when the promise it
    returns is fulfilled.  Then [renderToString] and [destroy] are its last
    two effects, each happens once, and the promise holds the string
    rendered after everything else was done; when the promise is rejected
    or never settles, the platform is not destroyed. *)
Theorem platform_destroyed_iff_fulfilled :
  forall (renderToString : list Effect -> JsString.t)
         (bootstrapPromise : PromiseState Bootstrapped),
  let trace := fst (_render renderToString bootstrapPromise) in
  let result := snd (_render renderToString bootstrapPromise) in
  (In Destroy trace <-> exists output, result = Fulfilled output) /\
  (forall output, result = Fulfilled output ->
     exists done,
       trace = (done ++ [RenderToString; Destroy])%list /\
       output = renderToString done /\
       ~ In RenderToString done /\ ~ In Destroy done).
Proof.
  intros renderToString bootstrapPromise trace result. subst trace result.
  assert (Hcases :
    (exists app, bootstrapPromise = Fulfilled app /\ truthy (APP_ID app) = true /\
                 In true (emitted (isStable app))) \/
    (forall app, bootstrapPromise = Fulfilled app ->
       truthy (APP_ID app) = true -> ~ In true (emitted (isStable app)))).
  { destruct bootstrapPromise as [app| |]; try (right; discriminate).
    destruct (truthy (APP_ID app)) eqn:Hid;
      [|right; intros a [= <-]; congruence].
    destruct (in_dec Bool.bool_dec true (emitted (isStable app))) as [Hin|Hnin].
    - left. now exists app.
    - right. now intros a [= <-]. }
  destruct Hcases as [(app & -> & Hid & Hst)|Hno].
  - rewrite (_render_stable renderToString app Hid Hst).
    destruct (quiet_not_in (doneOf_quiet app)) as [Hr Hd].
    destruct (snd (awaitAll (snd (runCallbacks 0 (callbacksOf app))))).
    + unfold complete; cbn [fst snd]. split.
      * split; [eauto|]. intros _. apply in_or_app. right. cbn. auto.
      * intros output [= <-]. now exists (doneOf app).
    + cbn [fst snd]. split.
      * split; [contradiction | intros [output H]; discriminate].
      * discriminate.
  - destruct (@_render_unstable renderToString bootstrapPromise Hno) as [-> Hnf].
    split.
    + split; [intros [] | intros [output H]; now apply Hnf in H].
    + intros output H. now apply Hnf in H.
Qed.

(** X12: once the application is bootstrapped with an id and stable,
    [_render] sets one attribute for each component that has a native
    element, in the order of the components and through the component's
    renderer, and sets no other: the name is [ng-server-context], and the
    value is the sanitized server context, which is not empty and holds
    only code units of [a-zA-Z0-9-], whatever [SERVER_CONTEXT] provides. *)
Theorem server_context_attribute :
  forall (renderToString : list Effect -> JsString.t) (app : Bootstrapped),
  truthy (APP_ID app) = true ->
  In true (emitted (isStable app)) ->
  exists value,
    attributesSet (fst (_render renderToString (Fulfilled app))) =
      flat_map (fun c => match nativeElement c with
                         | Some element =>
                             [(renderer c, element, lit "ng-server-context", value)]
                         | None => []
                         end) (components app) /\
    value = sanitizeServerContext
              match SERVER_CONTEXT app with
              | Some provided => provided
              | None => lit "other"
              end /\
    value <> [] /\
    Forall (fun c => (97 <= c <= 122) \/ (65 <= c <= 90) \/ (48 <= c <= 57) \/ c = 45)
           value.
Proof.
  intros renderToString app Hid Hst. exists (serverContextOf app).
  split; [|split; [reflexivity|split]].
  - rewrite (_render_stable renderToString app Hid Hst).
    assert (Hdone : attributesSet (doneOf app) =
              flat_map (fun c => match nativeElement c with
                                 | Some element =>
                                     [(renderer c, element, lit "ng-server-context",
                                       serverContextOf app)]
                                 | None => []
                                 end) (components app)).
    { unfold doneOf. rewrite !attributesSet_app.
      destruct (appendServerContextInfo_observed (serverContextOf app) (components app))
        as (-> & _ & _).
      destruct (runCallbacks_observed (callbacksOf app) 0) as [-> _].
      destruct (awaitAll_observed (snd (runCallbacks 0 (callbacksOf app)))) as [-> _].
      destruct (IS_HYDRATION_FEATURE_ENABLED app); cbn [attributesSet flat_map List.app];
        now rewrite !app_nil_r. }
    destruct (snd (awaitAll (snd (runCallbacks 0 (callbacksOf app)))));
      unfold complete; cbn [fst]; [|exact Hdone].
    rewrite attributesSet_app, Hdone. cbn. now rewrite app_nil_r.
  - apply PlatformServerUtilsFacts.sanitizeServerContext_nonempty.
  - unfold serverContextOf.
    eapply Forall_impl; [|apply PlatformServerUtilsFacts.sanitizeServerContext_allowed].
    intros c Hc. now apply PlatformServerUtilsFacts.isAllowed_spec.
Qed.

Lemma server_context_attribute_witness :
  let app :=
    mkBootstrapped (Some (lit "ng")) (Some (lit "ssr <1>"))
      [mkComponent 0%nat (Some 10%nat); mkComponent 1%nat None; mkComponent 2%nat (Some 12%nat)]
      (mkObservable [false; true] StaysOpen) true
      (Some [Raises (Foreign 1); ReturnsPromise (Rejected (Foreign 2))]) in
  exists value,
    attributesSet (fst (_render (fun _ => lit "<html>") (Fulfilled app))) =
      flat_map (fun c => match nativeElement c with
                         | Some element =>
                             [(renderer c, element, lit "ng-server-context", value)]
                         | None => []
                         end) (components app) /\
    value = sanitizeServerContext
              match SERVER_CONTEXT app with
              | Some provided => provided
              | None => lit "other"
              end /\
    value <> [] /\
    Forall (fun c => (97 <= c <= 122) \/ (65 <= c <= 90) \/ (48 <= c <= 57) \/ c = 45)
           value.
Proof.
  intros app.
  apply (@server_context_attribute (fun _ => lit "<html>") app);
    [reflexivity | cbn; auto].
Defined.

(** X13: once the application is bootstrapped with an id and stable,
    [_render] calls every [BEFORE_APP_SERIALIZED] callback once, in order,
    whether or not an earlier one threw, and warns once for each callback
    that threw or returned a promise that was rejected.  No such failure
    rejects the promise [_render] returns: it is fulfilled unless a callback
    returned a promise that never settles. *)
Theorem callback_failures_ignored :
  forall (renderToString : list Effect -> JsString.t) (app : Bootstrapped),
  truthy (APP_ID app) = true ->
  In true (emitted (isStable app)) ->
  let trace := fst (_render renderToString (Fulfilled app)) in
  let result := snd (_render renderToString (Fulfilled app)) in
  callsOf trace = seq 0 (List.length (callbacksOf app)) /\
  List.length (warningsOf trace) = List.length (filter fails (callbacksOf app)) /\
  ((exists output, result = Fulfilled output) <->
   ~ In (ReturnsPromise Pending) (callbacksOf app)) /\
  (In (ReturnsPromise Pending) (callbacksOf app) -> result = Pending).
Proof.
  intros renderToString app Hid Hst trace result. subst trace result.
  rewrite (_render_stable renderToString app Hid Hst).
  assert (Hcalls : callsOf (doneOf app) = seq 0 (List.length (callbacksOf app))).
  { unfold doneOf. rewrite !callsOf_app.
    destruct (appendServerContextInfo_observed (serverContextOf app) (components app))
      as (_ & -> & _).
    destruct (runCallbacks_observed (callbacksOf app) 0) as [_ ->].
    destruct (awaitAll_observed (snd (runCallbacks 0 (callbacksOf app)))) as [_ ->].
    destruct (IS_HYDRATION_FEATURE_ENABLED app); cbn [callsOf flat_map List.app];
      now rewrite app_nil_r. }
  assert (Hwarn : List.length (warningsOf (doneOf app)) =
                  List.length (filter fails (callbacksOf app))).
  { unfold doneOf. rewrite !warningsOf_app.
    destruct (appendServerContextInfo_observed (serverContextOf app) (components app))
      as (_ & _ & ->).
    rewrite <- (warnings_counted (callbacksOf app) 0).
    destruct (IS_HYDRATION_FEATURE_ENABLED app); cbn [warningsOf flat_map List.app];
      now rewrite length_app. }
  pose proof (awaitAll_settled (callbacksOf app) 0) as Hset.
  destruct (snd (awaitAll (snd (runCallbacks 0 (callbacksOf app))))).
  - unfold complete; cbn [fst snd].
    rewrite callsOf_app, warningsOf_app, length_app, Hcalls, Hwarn. cbn.
    rewrite app_nil_r, Nat.add_0_r.
    split; [reflexivity|]. split; [reflexivity|]. split.
    + split; [intros _; now apply Hset | eauto].
    + intros Hin. exfalso. apply (proj1 Hset eq_refl), Hin.
  - cbn [fst snd]. split; [exact Hcalls|]. split; [exact Hwarn|]. split.
    + split; [intros [output H]; discriminate|].
      intros Hn. apply Hset in Hn. discriminate.
    + reflexivity.
Qed.

Lemma callback_failures_ignored_witness :
  let app :=
    mkBootstrapped (Some (lit "ng")) None
      [mkComponent 0%nat (Some 10%nat)]
      (mkObservable [false; true] StaysOpen) false
      (Some [Raises (Foreign 1); ReturnsPromise (Rejected (Foreign 2));
             ReturnsValue; ReturnsPromise (Fulfilled tt)]) in
  let renderToString := fun done : list Effect => lit "<html>" in
  let trace := fst (_render renderToString (Fulfilled app)) in
  let result := snd (_render renderToString (Fulfilled app)) in
  callsOf trace = seq 0 (List.length (callbacksOf app)) /\
  List.length (warningsOf trace) = List.length (filter fails (callbacksOf app)) /\
  ((exists output, result = Fulfilled output) <->
   ~ In (ReturnsPromise Pending) (callbacksOf app)) /\
  (In (ReturnsPromise Pending) (callbacksOf app) -> result = Pending).
Proof.
  intros app renderToString.
  apply (@callback_failures_ignored renderToString app);
    [reflexivity | cbn; auto].
Defined.

End PlatformServerRenderFacts.

(** ** The ids [_appIdRandomProviderFactory] can return *)

Module ApplicationTokensRange.

Import JsString JsNumber ApplicationTokens ApplicationTokensDraws.

Local Open Scope Z_scope.

Lemma drawFor_spec (c : Z) :
  97 <= c <= 121 ->
  inUnitInterval (drawFor c) = true /\
  fromCharCode (add (ofZ 97) (Math_floor (mul (drawFor c) (ofZ 25)))) = [c].
Proof.
  intros H.
  assert (Hc : In c (List.map Z.of_nat (seq 97 25))).
  { apply in_map_iff. exists (Z.to_nat c). split; [lia|]. apply in_seq. lia. }
  cbv [seq List.map] in Hc. cbn [In] in Hc.
  repeat (destruct Hc as [<-|Hc]; [vm_compute; split; reflexivity|]).
  destruct Hc.
Qed.

(** X14: every string of three code units from 97 (['a']) to 121 (['y'])
    is returned by [_appIdRandomProviderFactory] for some three values of
    [0, 1) that [Math.random()] may return: the range of the ids is all of
    [a..y] in each position, and the three characters are drawn one after
    the other, the first from the first call. *)
Theorem _appIdRandomProviderFactory_onto :
  forall (c1 c2 c3 : Z) (calls : nat),
  97 <= c1 <= 121 -> 97 <= c2 <= 121 -> 97 <= c3 <= 121 ->
  exists r1 r2 r3 : spec_float,
    inUnitInterval r1 = true /\ inUnitInterval r2 = true /\
    inUnitInterval r3 = true /\
    forall draws : nat -> spec_float,
      draws calls = r1 -> draws (S calls) = r2 -> draws (S (S calls)) = r3 ->
      _appIdRandomProviderFactory draws calls = ([c1; c2; c3], (calls + 3)%nat).
Proof.
  intros c1 c2 c3 calls H1 H2 H3.
  destruct (drawFor_spec H1) as [U1 E1].
  destruct (drawFor_spec H2) as [U2 E2].
  destruct (drawFor_spec H3) as [U3 E3].
  exists (drawFor c1), (drawFor c2), (drawFor c3).
  split; [exact U1|]. split; [exact U2|]. split; [exact U3|].
  intros draws D1 D2 D3.
  unfold _appIdRandomProviderFactory, _randomChar, Math_random.
  rewrite D1, D2, D3, E1, E2, E3. cbn [List.app].
  f_equal. lia.
Qed.

Lemma _appIdRandomProviderFactory_onto_witness :
  exists r1 r2 r3 : spec_float,
    inUnitInterval r1 = true /\ inUnitInterval r2 = true /\
    inUnitInterval r3 = true /\
    forall draws : nat -> spec_float,
      draws 0%nat = r1 -> draws 1%nat = r2 -> draws 2%nat = r3 ->
      _appIdRandomProviderFactory draws 0 = ([97; 110; 121], (0 + 3)%nat).
Proof.
  apply (@_appIdRandomProviderFactory_onto 97 110 121 0); lia.
Defined.

End ApplicationTokensRange.
